(** * GoSize: the bounded top-K selector and the directory walker

    A shallow embedding of [main.go] (package [main] of GoSize) and the
    properties of its traversal core.  The repository holds a second copy
    of the program, without the drive column; the functions embedded here
    ([push], [up], [down], [sortedDesc], [walkDir], [isIgnorable],
    [shouldSkipByGlob]) read the same in both.

    Conventions of the embedding.
    - Go's [int64] and (64-bit) [int] values are integers in [Z]; every
      addition the program performs is written with its two's-complement
      wrap-around ([add64]).  Comparisons need no wrap-around.
    - A slice is a [list]; positions in a slice are [nat] (a slice of
      items that fits in memory is far shorter than [2^62], so [2*i + 1]
      does not wrap).  An index expression that is out of range panics in
      Go: it is [None] here, and the panic propagates through the option
      monad.
    - [for] loops whose trip count is not the length of a list are defined
      by well-founded recursion on the quantity that the loop moves
      ([up]: the index [i]; [down]: the distance of [i] to the end).
    - The mutexes ([minHeap.mu], the [mu] local to [walkDir]) serialise the
      critical sections; the embedding of [push], [sortedDesc] and of the
      walker is that of one serialised execution, in which a goroutine
      runs where it is started.  The interleavings of the goroutines are
      the subject of the admission pool, further down. *)

From Equations Require Import Equations.
From Equations.Prop Require Import Logic.
From stdpp Require Import base option list sorting strings pretty gmap.
From Stdlib Require Import ZArith Lia.

Open Scope Z_scope.

(** ** Machine integers *)

(** The value that a Go [int64] holds after an operation whose exact
    result is [z]. *)
Definition wrap64 (z : Z) : Z := (z + 2 ^ 63) mod 2 ^ 64 - 2 ^ 63.

(** [a + b] on [int64] (and on [int], which is 64 bits wide on the
    platforms the program is built for). *)
Definition add64 (a b : Z) : Z := wrap64 (a + b).

Definition max_int64 : Z := 2 ^ 63 - 1.
Definition min_int64 : Z := - 2 ^ 63.

(** ** Items and the min-heap  (main.go, "TYPES: ITEMS & HEAP") *)

(** [type item struct { Path string; Size int64 }] *)
Record item : Type := Item { Path : string; Size : Z }.

(** [type minHeap struct { mu sync.Mutex; data []item; k int }] *)
Record minHeap : Type := MinHeap { data : list item; k : Z }.

(** [&minHeap{k: k}]: the selector as [main] constructs it. *)
Definition newHeap (k : Z) : minHeap := {| data := []; k := k |}.

(** [h.data[a], h.data[b] = h.data[b], h.data[a]]; both index expressions
    are evaluated (and may panic) before either store. *)
Definition exchange (d : list item) (a b : nat) : option (list item) :=
  x ← d !! a;
  y ← d !! b;
  Some (<[b := x]> (<[a := y]> d)).

(** One trip through the loop of [up], entered with [i > 0]:
    [None] is a panic, [Some (inl d)] is [break] with slice [d],
    [Some (inr (d, p))] continues the loop with [i = p]. *)
Definition up_step (d : list item) (i : nat) : option (list item + list item * nat) :=
  let p := ((i - 1) / 2)%nat in
  x ← d !! p;
  y ← d !! i;
  if Size x <=? Size y then Some (inl d)
  else d' ← exchange d p i; Some (inr (d', p)).

Lemma up_step_decreases d j d' p :
  up_step d (S j) = Some (inr (d', p)) → (p < S j)%nat.
Proof.
  unfold up_step. intros H.
  apply bind_Some in H as (x & _ & H).
  apply bind_Some in H as (y & _ & H).
  destruct (Size x <=? Size y); [discriminate|].
  apply bind_Some in H as (d'' & _ & H).
  assert (p = ((S j - 1) / 2)%nat) as -> by congruence.
  apply Nat.Div0.div_lt_upper_bound. lia.
Qed.

(** [func (h *minHeap) up(i int)] *)
Equations? up (d : list item) (i : nat) : option (list item) by wf i lt :=
  up d O := Some d;
  up d (S j) with inspect (up_step d (S j)) => {
    | exist _ None _ := None;
    | exist _ (Some (inl d')) _ := Some d';
    | exist _ (Some (inr (d', p))) Hstep := up d' p }.
Proof. exact (up_step_decreases _ _ _ _ Hstep). Qed.

(** [h.data[a].Size < h.data[b].Size] *)
Definition size_lt_at (d : list item) (a b : nat) : option bool :=
  x ← d !! a;
  y ← d !! b;
  Some (Size x <? Size y).

(** The choice of [small] in one trip through the loop of [down].
    Positions are natural numbers: they are the values of the [int]
    variables [i], [l] and [r] of the source as long as [2*i + 2] does not
    exceed the largest [int], which holds for every position that [push]
    passes and every position inside a slice. *)
Definition down_small (d : list item) (i : nat) : option nat :=
  let n := length d in
  let l := (2 * i + 1)%nat in
  let r := (l + 1)%nat in
  let small := i in
  small ← (if (l <? n)%nat
           then c ← size_lt_at d l small; Some (if c : bool then l else small)
           else Some small);
  if (r <? n)%nat
  then c ← size_lt_at d r small; Some (if c : bool then r else small)
  else Some small.

(** One trip through the loop of [down]; the result reads as for
    [up_step]. *)
Definition down_step (d : list item) (i : nat) : option (list item + list item * nat) :=
  small ← down_small d i;
  if decide (small = i) then Some (inl d)
  else d' ← exchange d i small; Some (inr (d', small)).

Lemma exchange_length d a b d' : exchange d a b = Some d' → length d' = length d.
Proof.
  unfold exchange. intros H.
  apply bind_Some in H as (x & _ & H).
  apply bind_Some in H as (y & _ & H).
  injection H as <-. by rewrite !length_insert.
Qed.

Lemma down_small_range d i small :
  down_small d i = Some small →
  small = i ∨ (i < small < length d)%nat.
Proof.
  unfold down_small. intros H.
  apply bind_Some in H as (s1 & H1 & H).
  assert (s1 = i ∨ (s1 = 2 * i + 1 ∧ 2 * i + 1 < length d))%nat as Hs1.
  { destruct (2 * i + 1 <? length d)%nat eqn:Hl.
    - apply Nat.ltb_lt in Hl.
      apply bind_Some in H1 as (c & _ & H1). injection H1 as <-.
      destruct c; lia.
    - injection H1 as <-. lia. }
  destruct (2 * i + 1 + 1 <? length d)%nat eqn:Hr.
  - apply Nat.ltb_lt in Hr.
    apply bind_Some in H as (c & _ & H). injection H as <-.
    destruct c; lia.
  - injection H as <-. lia.
Qed.

Lemma down_step_decreases d i d' s :
  down_step d i = Some (inr (d', s)) →
  (length d' - s < length d - i)%nat.
Proof.
  unfold down_step. intros H.
  apply bind_Some in H as (small & Hs & H).
  destruct (decide (small = i)); [discriminate|].
  apply bind_Some in H as (d'' & Hx & H).
  injection H as <- <-.
  apply exchange_length in Hx. apply down_small_range in Hs. lia.
Qed.

(** [func (h *minHeap) down(i int)] *)
Equations? down (d : list item) (i : nat) : option (list item)
  by wf (length d - i)%nat lt :=
  down d i with inspect (down_step d i) => {
    | exist _ None _ := None;
    | exist _ (Some (inl d')) _ := Some d';
    | exist _ (Some (inr (d', s))) Hstep := down d' s }.
Proof. exact (down_step_decreases _ _ _ _ Hstep). Qed.

(** [func (h *minHeap) push(it item)] *)
Definition push (it : item) (h : minHeap) : option minHeap :=
  if k h <=? 0 then Some h
  else if Z.of_nat (length (data h)) <? k h then
    let d := data h ++ [it] in
    d' ← up d (length d - 1);
    Some {| data := d'; k := k h |}
  else
    root ← data h !! 0%nat;
    if Size it >? Size root then
      d' ← down (<[0%nat := it]> (data h)) 0;
      Some {| data := d'; k := k h |}
    else Some h.

(** A sequence of pushes, in order. *)
Fixpoint pushes (its : list item) (h : minHeap) : option minHeap :=
  match its with
  | [] => Some h
  | it :: its' => h' ← push it h; pushes its' h'
  end.

Example push_ex :
  data <$> pushes [Item "a" 10; Item "b" 50; Item "c" 5; Item "d" 100; Item "e" 20] (newHeap 3)
  = Some [Item "e" 20; Item "b" 50; Item "d" 100].
Proof. vm_compute. reflexivity. Qed.

(** ** [sort.Slice] and the snapshot *)

(** The comparison that [sortedDesc] hands to [sort.Slice]:
    [func(i, j int) bool { return out[i].Size > out[j].Size }]. *)
Definition bySizeDesc (a b : item) : bool := Size a >? Size b.

(** What [sort.Slice] needs of its [less] to promise a sorted result. *)
Record StrictWeakOrder (less : item → item → bool) : Prop := {
  swo_irrefl : ∀ a, less a a = false;
  swo_trans : ∀ a b c, less a b = true → less b c = true → less a c = true;
  swo_incomp : ∀ a b c,
    less a b = false → less b a = false →
    less b c = false → less c b = false →
    less a c = false ∧ less c a = false
}.

(** [sort.Slice] belongs to Go's standard library.  The walker relies on
    its documented contract only: the slice is permuted in place, and
    afterwards no element is [less] than one that comes before it.  The
    sort is not stable, so the order of elements that compare equal is
    left to the implementation. *)
Class SliceSorter : Type := {
  sort_slice : (item → item → bool) → list item → list item;
  sort_slice_perm : ∀ less l, sort_slice less l ≡ₚ l;
  sort_slice_sorted : ∀ less l,
    StrictWeakOrder less →
    StronglySorted (λ a b, less b a = false) (sort_slice less l)
}.

(** [func (h *minHeap) sortedDesc() []item].  The slice that is sorted is
    a copy ([make] and [copy]), so the heap is returned as it was. *)
Definition sortedDesc `{SliceSorter} (h : minHeap) : minHeap * list item :=
  let out := data h in
  let out := sort_slice bySizeDesc out in
  (h, out).

(** A straight insertion sort, one implementation of the contract. *)
Fixpoint insert_by (less : item → item → bool) (x : item) (l : list item) : list item :=
  match l with
  | [] => [x]
  | y :: l' => if less y x then y :: insert_by less x l' else x :: l
  end.

Fixpoint insertion_sort (less : item → item → bool) (l : list item) : list item :=
  match l with
  | [] => []
  | x :: l' => insert_by less x (insertion_sort less l')
  end.

(** ** Configuration, counters and errors  (main.go, "CONFIG & STATS") *)

(** [type walkCfg struct] *)
Record walkCfg : Type := WalkCfg {
  topK : Z;
  workers : Z;
  followLinks : bool;
  maxDepth : Z;
  skipHidden : bool;
  skipPatterns : list string;
  showProgress : bool
}.

(** [type stats struct]: the four counters, all [int64]. *)
Record stats : Type := Stats {
  filesSeen : Z;
  dirsSeen : Z;
  skipped : Z;
  errors : Z
}.

(** The objects that every call of [walkDir] shares by pointer:
    [fileTop, dirTop *minHeap] and [s *stats]. *)
Record shared : Type := Shared {
  fileTop : minHeap;
  dirTop : minHeap;
  counters : stats
}.

(** [atomic.AddInt64(&s.filesSeen, 1)] and its three siblings. *)
Definition incFilesSeen (w : shared) : shared :=
  let c := counters w in
  {| fileTop := fileTop w; dirTop := dirTop w;
     counters := {| filesSeen := add64 (filesSeen c) 1; dirsSeen := dirsSeen c;
                    skipped := skipped c; errors := errors c |} |}.

Definition incDirsSeen (w : shared) : shared :=
  let c := counters w in
  {| fileTop := fileTop w; dirTop := dirTop w;
     counters := {| filesSeen := filesSeen c; dirsSeen := add64 (dirsSeen c) 1;
                    skipped := skipped c; errors := errors c |} |}.

Definition incSkipped (w : shared) : shared :=
  let c := counters w in
  {| fileTop := fileTop w; dirTop := dirTop w;
     counters := {| filesSeen := filesSeen c; dirsSeen := dirsSeen c;
                    skipped := add64 (skipped c) 1; errors := errors c |} |}.

Definition incErrors (w : shared) : shared :=
  let c := counters w in
  {| fileTop := fileTop w; dirTop := dirTop w;
     counters := {| filesSeen := filesSeen c; dirsSeen := dirsSeen c;
                    skipped := skipped c; errors := add64 (errors c) 1 |} |}.

(** [fileTop.push(it)] and [dirTop.push(it)] on the shared heaps. *)
Definition pushFile (it : item) (w : shared) : option shared :=
  h ← push it (fileTop w);
  Some {| fileTop := h; dirTop := dirTop w; counters := counters w |}.

Definition pushDir (it : item) (w : shared) : option shared :=
  h ← push it (dirTop w);
  Some {| fileTop := fileTop w; dirTop := h; counters := counters w |}.

(** The errors that the walker can tell apart: [context.Canceled], which
    is what [ctx.Err()] returns once [cancel] was called; an error [e] with
    [errors.Is(e, fs.ErrPermission)]; any other error. *)
Inductive error : Type :=
| Canceled
| PermissionDenied
| OtherFailure (msg : string).

(** [func isIgnorable(err error) bool] *)
Definition isIgnorable (err : error) : bool :=
  match err with
  | PermissionDenied => true
  | _ => false
  end.

(** ** File modes  ([io/fs]) *)

(** The mode bits of Go's [fs.FileMode] (a [uint32]) that form
    [fs.ModeType], with the values [io/fs] gives them. *)
Definition ModeDir : Z := Z.shiftl 1 31.
Definition ModeSymlink : Z := Z.shiftl 1 27.
Definition ModeDevice : Z := Z.shiftl 1 26.
Definition ModeNamedPipe : Z := Z.shiftl 1 25.
Definition ModeSocket : Z := Z.shiftl 1 24.
Definition ModeCharDevice : Z := Z.shiftl 1 21.
Definition ModeIrregular : Z := Z.shiftl 1 19.

Definition ModeType : Z :=
  Z.lor ModeDir (Z.lor ModeSymlink (Z.lor ModeNamedPipe
    (Z.lor ModeSocket (Z.lor ModeDevice (Z.lor ModeCharDevice ModeIrregular))))).

(** [m.IsDir()] is [m&ModeDir != 0]; [m.IsRegular()] is [m&ModeType == 0]. *)
Definition IsDir (m : Z) : bool := negb (Z.land m ModeDir =? 0).
Definition IsRegular (m : Z) : bool := Z.land m ModeType =? 0.

(** [info.Mode()&fs.ModeSymlink != 0] *)
Definition isSymlink (m : Z) : bool := negb (Z.land m ModeSymlink =? 0).

(** ** The file system as one run of the walker sees it *)

(** [fs.FileInfo], as far as the walker reads it. *)
Record FileInfo : Type := { Mode : Z; FileSize : Z }.

(** A directory entry carries what the calls made on it return:
    [de.Name()], [de.Type()] (the mode bits that [de.IsDir()] tests),
    [de.Info()], and, should the walker come to ask, whether the send on
    [sem] can proceed when the entry is reached ([slot]) and what the call
    of [walkDir] on the entry's path finds ([below]).  A [dir] is what one
    call of [walkDir] finds: whether [ctx.Done()] is ready at entry, and
    the result of [os.ReadDir]. *)
Inductive DirEntry : Type :=
  Entry (name : string) (type : Z) (info : error + FileInfo)
        (slot : bool) (below : dir)
with dir : Type :=
  Dir (done : bool) (listing : error + list DirEntry).

Definition Name (de : DirEntry) : string := let 'Entry n _ _ _ _ := de in n.
Definition Type_ (de : DirEntry) : Z := let 'Entry _ t _ _ _ := de in t.
Definition Info (de : DirEntry) : error + FileInfo := let 'Entry _ _ i _ _ := de in i.
Definition Slot (de : DirEntry) : bool := let 'Entry _ _ _ b _ := de in b.
Definition Below (de : DirEntry) : dir := let 'Entry _ _ _ _ d := de in d.

(** [path/filepath]: the two functions of the platform's path package
    that the walker calls.  [Match p s] is the first result of
    [filepath.Match(p, s)]; the walker drops the second. *)
Class FilePath : Type := {
  Join : string → string → string;
  Match : string → string → bool
}.

(** [strings.HasPrefix(s, prefix)] *)
Definition HasPrefix (s prefix : string) : bool := String.prefix prefix s.

(** ** The walker  (main.go, "WALKER" and "HELPERS") *)

(** [func shouldSkipByGlob(path string, patterns []string) bool] *)
Fixpoint shouldSkipByGlob `{FilePath} (path : string) (patterns : list string) : bool :=
  match patterns with
  | [] => false
  | p :: rest => if Match p path then true else shouldSkipByGlob path rest
  end.

(** What [walkDir] returns: [(int64, error)], with [None] for [nil]. *)
Definition result : Type := Z * option error.

(** The statements that follow a recursive call, the same in the
    goroutine and in the [default] branch: [if derr == nil] add the child's
    size to [total] and push the child into [dirTop], [else if
    !isIgnorable(derr)] count an error. *)
Definition afterChild (p : string) (r : result) (w : shared) (total : Z) : option (shared * Z) :=
  match r with
  | (size, None) =>
      let total := add64 total size in
      w ← pushDir {| Path := p; Size := size |} w;
      Some (w, total)
  | (_, Some derr) =>
      if negb (isIgnorable derr) then Some (incErrors w, total)
      else Some (w, total)
  end.

Section Walker.
Context `{FilePath}.
Variable cfg : walkCfg.

(** The body of [for _, de := range entries], with the recursive call
    abstracted as [walk].  The goroutine of the first [select] case is
    run to its end where it is started: of the schedules of the program
    this is the one in which a goroutine is done before its caller goes
    on.  The counters at the end do not depend on the schedule.  The
    totals do once a goroutine is started, and with them the sizes pushed
    into [dirTop]: the caller adds to [total] without [mu]; for the other
    schedules see [stepTotal] and [returns]. *)
Definition visit (walk : dir → string → Z → shared → option (shared * result))
    (path : string) (depth : Z) (de : DirEntry) (w : shared) (total : Z)
    : option (shared * Z) :=
  let name := Name de in
  let full := Join path name in
  if shouldSkipByGlob full (skipPatterns cfg) then Some (incSkipped w, total)
  else match Info de with
  | inl lerr => Some (incErrors w, total)
  | inr info =>
    if isSymlink (Mode info) && negb (followLinks cfg) then Some (incSkipped w, total)
    else if skipHidden cfg && HasPrefix name "." then Some (incSkipped w, total)
    else if IsDir (Type_ de) then
      if Slot de then
        '(w, r) ← walk (Below de) full (add64 depth 1) w;
        afterChild full r w total
      else
        '(w, r) ← walk (Below de) full (add64 depth 1) w;
        afterChild full r w total
    else if IsRegular (Mode info) then
      let fs := FileSize info in
      let total := add64 total fs in
      let w := incFilesSeen w in
      w ← pushFile {| Path := full; Size := fs |} w;
      Some (w, total)
    else Some (w, total)
  end.

(** [for _, de := range entries { ... }] *)
Definition range (body : DirEntry → shared → Z → option (shared * Z)) :=
  fix loop (entries : list DirEntry) (w : shared) (total : Z) : option (shared * Z) :=
    match entries with
    | [] => Some (w, total)
    | de :: rest => '(w, total) ← body de w total; loop rest w total
    end.

(** [func walkDir(ctx, path, depth, cfg, sem, fileTop, dirTop, s) (int64, error)] *)
Fixpoint walkDir (d : dir) (path : string) (depth : Z) (w : shared)
    : option (shared * result) :=
  let 'Dir done listing := d in
  if done then Some (w, (0, Some Canceled))
  else if (maxDepth cfg >? 0) && (depth >? maxDepth cfg) then
    Some (incSkipped w, (0, None))
  else match listing with
  | inl err => Some (incErrors w, (0, Some err))
  | inr entries =>
    let w := incDirsSeen w in
    '(w, total) ← range (visit walkDir path depth) entries w 0;
    Some (w, (total, None))
  end.
End Walker.

(** * The admission pool *)

(** The walker above runs each goroutine where it is started.  The bound
    on the goroutines that are at work at once is a property of all
    interleavings; for it the goroutines of a scan are laid out as a pool
    of tasks that a scheduler steps one at a time.  A step is one
    statement that touches [sem] or the set of goroutines: the [select]
    with its send, the [go] statement, a return, the deferred receive, the
    end of a goroutine.  What the tasks compute (sizes, counters,
    selectors) plays no part and is left out; [wg.Wait] only delays a
    return and is left out too, so the pool has every interleaving of the
    program, and more. *)

(** The directories that the walker descends into, below one directory. *)
#[warnings="-register-all"]
Inductive subtree : Type := Sub (children : list subtree).

(** A goroutine that runs [walkDir].
    - [frames] is its stack of calls of [walkDir], innermost first, each
      with the subdirectories that its loop has yet to reach.
    - [starting] holds the subdirectory for which the send on [sem] has
      proceeded while the [go] statement is still to come.
    - [spawned] tells that the goroutine was started by that [go]
      statement, and so owes a receive on [sem] when its [walkDir] has
      returned; the goroutines that [main] starts, one for each root, are
      not [spawned].
    - [released] tells that the deferred receive is done; what is left
      to the goroutine is [wg.Done()]. *)
Record task : Type := Task {
  spawned : bool;
  released : bool;
  starting : option (list subtree);
  frames : list (list subtree)
}.

(** [semLen] is the number of values that the buffer of [sem] holds. *)
Record pool : Type := Pool { semLen : nat; tasks : list task }.

(** [sem := make(chan struct{}, cfg.workers)]: a panic for a negative
    size, else a channel with that capacity. *)
Definition makeSem (workers : Z) : option nat :=
  if workers <? 0 then None else Some (Z.to_nat workers).

(** The goroutine that [main] starts for a root. *)
Definition rootTask (r : subtree) : task :=
  let 'Sub children := r in
  {| spawned := false; released := false; starting := None; frames := [children] |}.

(** The goroutine that the [go] statement of [walkDir] starts. *)
Definition childTask (children : list subtree) : task :=
  {| spawned := true; released := false; starting := None; frames := [children] |}.

(** The pool when [main] has started one goroutine for each root. *)
Definition startScan (roots : list subtree) : pool :=
  {| semLen := 0; tasks := rootTask <$> roots |}.

(** One step of task [i] in a pool whose channel has capacity [cap];
    [None] when there is no task [i] or when the task is blocked. *)
Definition step (cap : nat) (i : nat) (p : pool) : option pool :=
  t ← tasks p !! i;
  match starting t with
  | Some children =>
      (* [wg.Add(1); go func(p string) { ... }(full)] *)
      Some {| semLen := semLen p;
              tasks := <[i := {| spawned := spawned t; released := released t;
                                 starting := None; frames := frames t |}]> (tasks p)
                       ++ [childTask children] |}
  | None =>
      match frames t with
      | (Sub children :: rest) :: outer =>
          (* [if de.IsDir() { select { ... } }] *)
          if (semLen p <? cap)%nat then
            (* [case sem <- struct{}{}:] the send proceeds *)
            Some {| semLen := S (semLen p);
                    tasks := <[i := {| spawned := spawned t; released := released t;
                                       starting := Some children;
                                       frames := rest :: outer |}]> (tasks p) |}
          else
            (* [default:] the call of [walkDir] in the same goroutine *)
            Some {| semLen := semLen p;
                    tasks := <[i := {| spawned := spawned t; released := released t;
                                       starting := None;
                                       frames := children :: rest :: outer |}]> (tasks p) |}
      | [] :: outer =>
          (* the loop is over: [wg.Wait(); return total, nil] *)
          Some {| semLen := semLen p;
                  tasks := <[i := {| spawned := spawned t; released := released t;
                                     starting := None; frames := outer |}]> (tasks p) |}
      | [] =>
          (* the outermost [walkDir] has returned; the deferred calls run,
             last deferred first *)
          if spawned t && negb (released t) then
            (* [defer func() { <-sem }()]: blocks on an empty channel *)
            match semLen p with
            | O => None
            | S n =>
                Some {| semLen := n;
                        tasks := <[i := {| spawned := true; released := true;
                                           starting := None; frames := [] |}]> (tasks p) |}
            end
          else
            (* [defer wg.Done()], and the goroutine ends *)
            Some {| semLen := semLen p; tasks := delete i (tasks p) |}
      end
  end.

(** The pool after the scheduler has picked the tasks of [schedule], one
    after the other. *)
Fixpoint run (cap : nat) (schedule : list nat) (p : pool) : option pool :=
  match schedule with
  | [] => Some p
  | i :: schedule' => p' ← step cap i p; run cap schedule' p'
  end.

(** The number of tasks, each counted with its weight. *)
Fixpoint weight (f : task → nat) (ts : list task) : nat :=
  match ts with
  | [] => 0
  | t :: ts' => (f t + weight f ts')%nat
  end.

(** A goroutine started by [go] in [walkDir] is at work until it has
    given its slot back. *)
Definition atWork (t : task) : nat :=
  if spawned t && negb (released t) then 1 else 0.

(** A goroutine between the send on [sem] and the [go] statement. *)
Definition aboutToGo (t : task) : nat :=
  match starting t with
  | Some _ => 1
  | None => 0
  end.

Definition active (ts : list task) : nat := weight atWork ts.

(** Every value in the buffer belongs to a goroutine at work or to a
    [go] statement about to run. *)
Definition pool_inv (cap : nat) (p : pool) : Prop :=
  (active (tasks p) + weight aboutToGo (tasks p))%nat = semLen p ∧
  (semLen p <= cap)%nat.

(** * Specifications *)

(** ** The selector *)

(** The parent of position [j > 0] in the implicit tree. *)
Definition parent (j : nat) : nat := ((j - 1) / 2)%nat.

(** Every element is at least its parent: the order of a min-heap. *)
Definition heap_ordered (d : list item) : Prop :=
  ∀ j x y, (0 < j)%nat →
    d !! parent j = Some x → d !! j = Some y → Size x <= Size y.

(** The order holds everywhere except between [i] and its parent, and the
    children of [i] are at least the parent of [i]: the state of [up]. *)
Definition up_inv (d : list item) (i : nat) : Prop :=
  (∀ j x y, (0 < j)%nat → j ≠ i →
     d !! parent j = Some x → d !! j = Some y → Size x <= Size y) ∧
  (∀ j x y, (0 < i)%nat → (0 < j)%nat → parent j = i →
     d !! parent i = Some x → d !! j = Some y → Size x <= Size y).

(** The order holds everywhere except between [i] and its children, and
    the children of [i] are at least the parent of [i]: the state of
    [down]. *)
Definition down_inv (d : list item) (i : nat) : Prop :=
  (∀ j x y, (0 < j)%nat → parent j ≠ i →
     d !! parent j = Some x → d !! j = Some y → Size x <= Size y) ∧
  (∀ j x y, (0 < i)%nat → (0 < j)%nat → parent j = i →
     d !! parent i = Some x → d !! j = Some y → Size x <= Size y).

(** [kept] and [dropped] split [pushed], and nothing dropped is larger
    than anything kept. *)
Definition largest_of (pushed kept dropped : list item) : Prop :=
  pushed ≡ₚ kept ++ dropped ∧
  ∀ x y, x ∈ kept → y ∈ dropped → Size y <= Size x.

(** The state of a selector of capacity [K > 0] after [pushed]. *)
Definition selector_inv (K : Z) (pushed : list item) (h : minHeap) : Prop :=
  k h = K ∧
  heap_ordered (data h) ∧
  Z.of_nat (length (data h)) = Z.min K (Z.of_nat (length pushed)) ∧
  ∃ dropped, largest_of pushed (data h) dropped.

(** Sizes, largest first: the order of the snapshot. *)
Definition descending : relation Z := λ a b, b <= a.

#[global] Instance descending_dec : RelDecision descending.
Proof. intros a b. unfold descending. apply _. Defined.

#[global] Instance descending_total : Total descending.
Proof. intros a b. unfold descending. lia. Qed.

#[global] Instance descending_trans : Transitive descending.
Proof. intros a b c. unfold descending. lia. Qed.

#[global] Instance descending_antisymm : AntiSymm (=) descending.
Proof. intros a b. unfold descending. lia. Qed.

(** All the sizes of a list, largest first. *)
Definition largest_first (sizes : list Z) : list Z := merge_sort descending sizes.

(** ** The walker *)

(** The shared objects as [main] sets them up: two selectors of capacity
    [cfg.topK], counters at zero. *)
Definition newShared (cfg : walkCfg) : shared :=
  {| fileTop := newHeap (topK cfg); dirTop := newHeap (topK cfg);
     counters := {| filesSeen := 0; dirsSeen := 0; skipped := 0; errors := 0 |} |}.

(** The pair that [walkDir] returns. *)
Definition walkResult `{FilePath} (cfg : walkCfg) (d : dir) (path : string) (depth : Z)
    : option result :=
  snd <$> walkDir cfg d path depth (newShared cfg).

(** An entry that the configuration tells the walker to pass over: it
    matches a skip pattern, or it is hidden and hidden entries are
    skipped, or it is a symbolic link and links are not followed. *)
Definition skippedByConfig `{FilePath} (cfg : walkCfg) (path : string) (de : DirEntry) : bool :=
  shouldSkipByGlob (Join path (Name de)) (skipPatterns cfg)
  || (skipHidden cfg && HasPrefix (Name de) ".")
  || match Info de with
     | inr info => isSymlink (Mode info) && negb (followLinks cfg)
     | inl _ => false
     end.

(** What one entry adds to the aggregate of its directory: a regular
    file its size, a subdirectory what the recursive call returns when it
    returns no error, anything else nothing. *)
Definition contribution `{FilePath} (cfg : walkCfg) (path : string) (depth : Z)
    (de : DirEntry) : Z :=
  if skippedByConfig cfg path de then 0
  else match Info de with
       | inl _ => 0
       | inr info =>
           if IsDir (Type_ de) then
             match walkResult cfg (Below de) (Join path (Name de)) (add64 depth 1) with
             | Some (size, None) => size
             | _ => 0
             end
           else if IsRegular (Mode info) then FileSize info
           else 0
       end.

(** A call on [d] returns the same pair from every state of the shared
    objects, and never panics. *)
Definition pure_result `{FilePath} (cfg : walkCfg) (d : dir) : Prop :=
  ∀ path depth, ∃ r, ∀ w, ∃ w', walkDir cfg d path depth w = Some (w', r).

(** The entry passes every filter of the loop body and is a directory:
    the walker calls itself on it. *)
Definition descends `{FilePath} (cfg : walkCfg) (path : string) (de : DirEntry) : Prop :=
  shouldSkipByGlob (Join path (Name de)) (skipPatterns cfg) = false ∧
  (∃ info, Info de = inr info ∧
           isSymlink (Mode info) && negb (followLinks cfg) = false) ∧
  skipHidden cfg && HasPrefix (Name de) "." = false ∧
  IsDir (Type_ de) = true.

(** The depth test at the head of [walkDir]. *)
Definition beyondDepth (cfg : walkCfg) (depth : Z) : Prop :=
  0 < maxDepth cfg ∧ maxDepth cfg < depth.

(** Induction over the directories below a directory. *)
Definition dir_below_ind (P : dir → Prop)
    (Hfail : ∀ done err, P (Dir done (inl err)))
    (Hlist : ∀ done entries,
       Forall (λ de, P (Below de)) entries → P (Dir done (inr entries)))
    : ∀ d, P d :=
  fix go (d : dir) : P d :=
    match d with
    | Dir done (inl err) => Hfail done err
    | Dir done (inr entries) =>
        Hlist done entries
          ((fix all (l : list DirEntry) : Forall (λ de, P (Below de)) l :=
              match l with
              | [] => Forall_nil_2 _
              | de :: l' =>
                  Forall_cons_2 _ de l'
                    (match de return P (Below de) with
                     | Entry _ _ _ _ b => go b
                     end)
                    (all l')
              end) entries)
    end.

(** ** Inputs for the examples *)

(** A path package for the examples: [Join] puts one separator between
    directory and name, and a pattern without metacharacters matches the
    path equal to it. *)
#[local] Instance plain_paths : FilePath := {|
  Join := λ dir name, (dir +:+ "/" +:+ name)%string;
  Match := String.eqb
|}.

(** What [os.ReadDir] answers for a path that is not a directory. *)
Definition notADirectory : dir := Dir false (inl (OtherFailure "not a directory")).

(** A regular file of the given size, mode [-rw-r--r--]. *)
Definition regularFile (name : string) (size : Z) : DirEntry :=
  Entry name 0 (inr {| Mode := 420; FileSize := size |}) false notADirectory.

(** A subdirectory, mode [drwxr-xr-x]. *)
Definition subDirectory (name : string) (slot : bool) (d : dir) : DirEntry :=
  Entry name ModeDir (inr {| Mode := Z.lor ModeDir 493; FileSize := 4096 |}) slot d.

(** The flags at their defaults on a machine of four cores, with
    [-top K] and [-maxdepth D]. *)
Definition defaultCfg (K D : Z) : walkCfg :=
  {| topK := K; workers := 4; followLinks := false; maxDepth := D;
     skipHidden := false; skipPatterns := []; showProgress := true |}.

(** The tree [root/a/b/file] of the specification, [file] of 100 bytes. *)
Definition treeRootAB : dir :=
  Dir false (inr [subDirectory "a" false
    (Dir false (inr [subDirectory "b" false
      (Dir false (inr [regularFile "file" 100]))]))]).

(** * The rest of the program *)

(** ** [main]: the scan  (main.go, "MAIN") *)

(** [for _, root := range roots { go func() { walkDir(ctx, r, 0, ...) }() }]
    and [wg.Wait()].  Each root comes with what the walk finds there; what
    [walkDir] returns for a root, size and error, is dropped by [main]. *)
Fixpoint scanRoots `{FilePath} (cfg : walkCfg) (roots : list (string * dir))
    (w : shared) : option shared :=
  match roots with
  | [] => Some w
  | (r, d) :: rest => '(w, _) ← walkDir cfg d r 0 w; scanRoots cfg rest w
  end.

(** What [main] prints: the rows of the two tables and the counters of
    the summary line. *)
Record report : Type := Report {
  largestDirs : list item;
  largestFiles : list item;
  summary : stats
}.

(** [main], from the construction of the selectors to the summary line:
    [fileTop := &minHeap{k: cfg.topK}], [dirTop := &minHeap{k: cfg.topK}],
    [var s stats], [sem := make(chan struct{}, cfg.workers)], which panics
    for a negative size, the scan, [dirTop.sortedDesc()],
    [fileTop.sortedDesc()], and the four [atomic.LoadInt64].  Whether a send
    on [sem] proceeds is told by the entries of the trees. *)
Definition scan `{FilePath} `{SliceSorter} (cfg : walkCfg) (roots : list (string * dir))
    : option report :=
  let w := newShared cfg in
  _ ← makeSem (workers cfg);
  w ← scanRoots cfg roots w;
  Some {| largestDirs := (sortedDesc (dirTop w)).2;
          largestFiles := (sortedDesc (fileTop w)).2;
          summary := counters w |}.

(** ** Sizes for people  (main.go, "BYTES: HUMAN READABLE") *)

(** What [fmt.Sprintf] prints for the numbers of the program:
    [Sprintf_2f n u] is what [%.2f] prints for [float64(n)/float64(u)],
    [Sprintf_d n] is what [%d] prints for [n], and [Sprintf_pct n total] is
    what [%.2f%%] prints for [(float64(n)/float64(total))*100]. *)
Class Fmt : Type := {
  Sprintf_2f : Z → Z → string;
  Sprintf_d : Z → string;
  Sprintf_pct : Z → Z → string
}.

(** The constants of both functions: [1 << 10], ..., [1 << 50]. *)
Definition KB : Z := Z.shiftl 1 10.
Definition MB : Z := Z.shiftl 1 20.
Definition GB : Z := Z.shiftl 1 30.
Definition TB : Z := Z.shiftl 1 40.
Definition PB : Z := Z.shiftl 1 50.

(** [func humanBytes(n int64) string], with its local
    [f := func(v float64, unit string) string]. *)
Definition humanBytes `{Fmt} (n : Z) : string :=
  let f (d : Z) (unit : string) := (Sprintf_2f n d +:+ " " +:+ unit)%string in
  if n >=? PB then f PB "PB"
  else if n >=? TB then f TB "TB"
  else if n >=? GB then f GB "GB"
  else if n >=? MB then f MB "MB"
  else if n >=? KB then f KB "MB"
  else (Sprintf_d n +:+ " B")%string.

(** [func humanBytesFixed(n int64) string] *)
Definition humanBytesFixed `{Fmt} (n : Z) : string :=
  if n >=? PB then (Sprintf_2f n PB +:+ " PB")%string
  else if n >=? TB then (Sprintf_2f n TB +:+ " TB")%string
  else if n >=? GB then (Sprintf_2f n GB +:+ " GB")%string
  else if n >=? MB then (Sprintf_2f n MB +:+ " MB")%string
  else if n >=? KB then (Sprintf_2f n KB +:+ " KB")%string
  else (Sprintf_d n +:+ " B")%string.

(** ** Roots and patterns  (main.go, "MAIN" and "HELPERS") *)

(** [strings.HasSuffix(s, suffix)] *)
Definition HasSuffix (s suffix : string) : bool :=
  bool_decide (String.list_ascii_of_string suffix `suffix_of` String.list_ascii_of_string s).

(** What the program asks of the machine it runs on: [runtime.GOOS];
    whether [os.Stat] returns a nil error; [filepath.VolumeName]; and the
    call [windows.GetDiskFreeSpaceEx(windows.StringToUTF16Ptr(root), ...)]
    with its three outcomes. *)
Inductive diskAnswer : Type :=
| DiskPanic               (* [StringToUTF16Ptr] on a string with a NUL *)
| DiskError               (* a non-nil error *)
| DiskTotal (totalBytes : Z).

Class Host : Type := {
  GOOS : string;
  StatOk : string → bool;
  VolumeName : string → string;
  GetDiskFreeSpaceEx : string → diskAnswer
}.

(** [strings.Split] and [strings.TrimSpace]. *)
Class StringsPkg : Type := {
  Split : string → string → list string;
  TrimSpace : string → string
}.

(** The letters that [for c := 'A'; c <= 'Z'; c++] goes through. *)
Definition driveLetters : list Ascii.ascii :=
  (λ i, Ascii.ascii_of_nat (65 + i)) <$> seq 0 26.

(** [string([]rune{c, ':'}) + `\`] *)
Definition driveRoot (c : Ascii.ascii) : string :=
  (String c ":" +:+ "\")%string.

(** The loop of [detectWindowsDrives], over the letters [cs]:
    [if _, err := os.Stat(root); err == nil { roots = append(roots, root) }]. *)
Fixpoint statRoots `{Host} (cs : list Ascii.ascii) : list string :=
  match cs with
  | [] => []
  | c :: cs' =>
      let root := driveRoot c in
      if StatOk root then root :: statRoots cs' else statRoots cs'
  end.

(** [func detectWindowsDrives() []string] *)
Definition detectWindowsDrives `{Host} : list string := statRoots driveLetters.

(** The loop of [main] over the parts of [-roots]. *)
Fixpoint collectRoots `{StringsPkg} (parts : list string) : list string :=
  match parts with
  | [] => []
  | r :: rest =>
      let r := TrimSpace r in
      if String.eqb r "" then collectRoots rest
      else
        let r := if negb (HasSuffix r "\") && negb (HasSuffix r "/")
                 then (r +:+ "\")%string else r in
        r :: collectRoots rest
  end.

(** [main], "Roots": the roots to scan, or the code of [os.Exit]. *)
Definition chooseRoots `{StringsPkg} `{Host} (rootsFlag : string) : list string + Z :=
  if negb (String.eqb rootsFlag "") then inl (collectRoots (Split rootsFlag ","))
  else
    let roots := detectWindowsDrives in
    if (length roots =? 0)%nat then inr 2 else inl roots.

(** The loop of [main] over the parts of [-skip]. *)
Fixpoint collectPatterns `{StringsPkg} (parts : list string) : list string :=
  match parts with
  | [] => []
  | p :: rest =>
      let p := TrimSpace p in
      if negb (String.eqb p "") then p :: collectPatterns rest
      else collectPatterns rest
  end.

(** [main], "Flags": the value of [cfg.skipPatterns]. *)
Definition parseSkip `{StringsPkg} (skipGlobs : string) : list string :=
  if negb (String.eqb skipGlobs "") then collectPatterns (Split skipGlobs ",")
  else [].

(** ** Drive totals  (main.go, "WINDOWS: DRIVE TOTAL BYTES") *)

(** [type driveSpaceCache struct { mu sync.Mutex; byRoot map[string]uint64 }] *)
Record driveSpaceCache : Type := DriveSpaceCache { byRoot : gmap string Z }.

(** [func newDriveSpaceCache() *driveSpaceCache] *)
Definition newDriveSpaceCache : driveSpaceCache := {| byRoot := ∅ |}.

(** [func volumeRoot(p string) string] *)
Definition volumeRoot `{Host} (p : string) : string :=
  let vol := VolumeName p in
  if String.eqb vol "" then ""
  else if HasPrefix vol "\\" then
    if HasSuffix vol "\" then vol else (vol +:+ "\")%string
  else if HasSuffix vol "\" then vol
  else (vol +:+ "\")%string.

(** [func (c *driveSpaceCache) totalFor(path string) uint64]: the total
    and the cache after the call; [None] is the panic of
    [windows.StringToUTF16Ptr]. *)
Definition totalFor `{Host} (path : string) (c : driveSpaceCache)
    : option (Z * driveSpaceCache) :=
  if negb (String.eqb GOOS "windows") then Some (0, c)
  else
    let root := volumeRoot path in
    if String.eqb root "" then Some (0, c)
    else match byRoot c !! root with
         | Some v => Some (v, c)
         | None =>
             match GetDiskFreeSpaceEx root with
             | DiskPanic => None
             | DiskError => Some (0, c)
             | DiskTotal totalBytes =>
                 Some (totalBytes, {| byRoot := <[root := totalBytes]> (byRoot c) |})
             end
         end.

(** ** The tables  (main.go, "MAIN", "Print") *)

(** The four values that [fmt.Fprintf(w, "%d\t%s\t%s\t%s\n", ...)] puts
    into a row: [i+1], [humanBytesFixed(it.Size)], [pct], [it.Path]. *)
Record row : Type := Row {
  rank : Z;
  sizeText : string;
  drivePct : string;
  rowPath : string
}.

(** The body of [for i, it := range ....sortedDesc()], the same for both
    tables; [i] is an index into a slice, so [i+1] does not wrap. *)
Definition printRow `{Fmt} `{Host} (i : Z) (it : item) (dsc : driveSpaceCache)
    : option (row * driveSpaceCache) :=
  '(total, dsc) ← totalFor (Path it) dsc;
  let pct := if total >? 0 then Sprintf_pct (Size it) total else "n/a"%string in
  Some ({| rank := i + 1; sizeText := humanBytesFixed (Size it);
           drivePct := pct; rowPath := Path it |}, dsc).

(** The loop, from index [i] on. *)
Fixpoint printRows `{Fmt} `{Host} (i : Z) (its : list item) (dsc : driveSpaceCache)
    : option (list row * driveSpaceCache) :=
  match its with
  | [] => Some ([], dsc)
  | it :: rest =>
      '(r, dsc) ← printRow i it dsc;
      '(rows, dsc) ← printRows (i + 1) rest dsc;
      Some (r :: rows, dsc)
  end.

(** [dsc := newDriveSpaceCache()], the table of the directories and the
    table of the files: the rows of both, and the cache at the end. *)
Definition printTables `{Fmt} `{Host} (rep : report)
    : option (list row * list row * driveSpaceCache) :=
  let dsc := newDriveSpaceCache in
  '(dirRows, dsc) ← printRows 0 (largestDirs rep) dsc;
  '(fileRows, dsc) ← printRows 0 (largestFiles rep) dsc;
  Some (dirRows, fileRows, dsc).

(** Row [r] shows the item [it], which stands at index [j] of a table
    whose first rank is [i + 1]: its rank, its path, its size for people,
    and for the share of the drive either [n/a] or, on Windows, the
    percentage of the total that the cache [final] holds for the volume of
    the path. *)
Definition row_of `{Fmt} `{Host} (final : driveSpaceCache) (i : Z) (j : nat)
    (it : item) (r : row) : Prop :=
  rank r = i + Z.of_nat j + 1 ∧
  rowPath r = Path it ∧
  sizeText r = humanBytesFixed (Size it) ∧
  (drivePct r = "n/a"%string ∨
   ∃ t, GOOS = "windows"%string ∧
        byRoot final !! volumeRoot (Path it) = Some t ∧ 0 < t ∧
        drivePct r = Sprintf_pct (Size it) t).

(** ** Trees that can be read in full *)

Definition sumZ (l : list Z) : Z := foldr Z.add 0 l.

(** The four counters are [int64] values. *)
Definition counters_ok (c : stats) : Prop :=
  min_int64 <= filesSeen c <= max_int64 ∧
  min_int64 <= dirsSeen c <= max_int64 ∧
  min_int64 <= skipped c <= max_int64 ∧
  min_int64 <= errors c <= max_int64.

(** The sizes of the regular files of a tree, at any depth, in the order
    of the listings. *)
Fixpoint fileSizes (d : dir) : list Z :=
  match d with
  | Dir _ (inl _) => []
  | Dir _ (inr entries) =>
      entries ≫= λ de,
        let 'Entry _ type info _ below := de in
        if IsDir type then fileSizes below
        else match info with
             | inr fi => if IsRegular (Mode fi) then [FileSize fi] else []
             | inl _ => []
             end
  end.

(** The aggregates of the directories below the top of a tree, each the
    sum of the file sizes below it as an [int64], a directory after the
    directories below it. *)
Fixpoint dirAggregates (d : dir) : list Z :=
  match d with
  | Dir _ (inl _) => []
  | Dir _ (inr entries) =>
      entries ≫= λ de,
        let 'Entry _ type _ _ below := de in
        if IsDir type then dirAggregates below ++ [wrap64 (sumZ (fileSizes below))]
        else []
  end.

(** Nothing stands in the way of the walker: no call finds the context
    cancelled, every listing and every [Info] succeeds, and no entry is a
    symbolic link. *)
Fixpoint readable (d : dir) : bool :=
  match d with
  | Dir _ (inl _) => false
  | Dir done (inr entries) =>
      negb done &&
      forallb (λ de,
        let 'Entry _ type info _ below := de in
        match info with
        | inr fi =>
            negb (isSymlink (Mode fi)) && (if IsDir type then readable below else true)
        | inl _ => false
        end) entries
  end.

(** The three functions above, on one entry. *)
Definition entryFileSizes (de : DirEntry) : list Z :=
  let 'Entry _ type info _ below := de in
  if IsDir type then fileSizes below
  else match info with
       | inr fi => if IsRegular (Mode fi) then [FileSize fi] else []
       | inl _ => []
       end.

Definition entryDirAggregates (de : DirEntry) : list Z :=
  let 'Entry _ type _ _ below := de in
  if IsDir type then dirAggregates below ++ [wrap64 (sumZ (fileSizes below))]
  else [].

Definition readableEntry (de : DirEntry) : bool :=
  let 'Entry _ type info _ below := de in
  match info with
  | inr fi =>
      negb (isSymlink (Mode fi)) && (if IsDir type then readable below else true)
  | inl _ => false
  end.

(** The counters after [nf] files and [nd] directories were counted. *)
Definition bump (c : stats) (nf nd : nat) : stats :=
  {| filesSeen := wrap64 (filesSeen c + Z.of_nat nf);
     dirsSeen := wrap64 (dirsSeen c + Z.of_nat nd);
     skipped := skipped c;
     errors := errors c |}.

(** The regular files of the tree [d] found at [path], at any depth, each
    with its full path and its size, in the order of the listings. *)
Fixpoint fileItems `{FilePath} (path : string) (d : dir) : list item :=
  match d with
  | Dir _ (inl _) => []
  | Dir _ (inr entries) =>
      entries ≫= λ de,
        let 'Entry name type info _ below := de in
        if IsDir type then fileItems (Join path name) below
        else match info with
             | inr fi =>
                 if IsRegular (Mode fi)
                 then [{| Path := Join path name; Size := FileSize fi |}] else []
             | inl _ => []
             end
  end.

(** The directories below the top of the tree, each with its full path
    and its aggregate, a directory after the directories below it. *)
Fixpoint dirItems `{FilePath} (path : string) (d : dir) : list item :=
  match d with
  | Dir _ (inl _) => []
  | Dir _ (inr entries) =>
      entries ≫= λ de,
        let 'Entry name type _ _ below := de in
        if IsDir type
        then dirItems (Join path name) below
             ++ [{| Path := Join path name; Size := wrap64 (sumZ (fileSizes below)) |}]
        else []
  end.

(** The two functions above, on one entry. *)
Definition entryFileItems `{FilePath} (path : string) (de : DirEntry) : list item :=
  let 'Entry name type info _ below := de in
  if IsDir type then fileItems (Join path name) below
  else match info with
       | inr fi =>
           if IsRegular (Mode fi)
           then [{| Path := Join path name; Size := FileSize fi |}] else []
       | inl _ => []
       end.

Definition entryDirItems `{FilePath} (path : string) (de : DirEntry) : list item :=
  let 'Entry name type _ _ below := de in
  if IsDir type
  then dirItems (Join path name) below
       ++ [{| Path := Join path name; Size := wrap64 (sumZ (fileSizes below)) |}]
  else [].

(** No send on [sem] proceeds below [d]: every subdirectory, at any
    depth, is walked in the [default] arm of the [select].  No goroutine
    is started then, the calls run one after the other, and the variable
    [total] of a call is touched by that call alone. *)
Fixpoint undispatched (d : dir) : bool :=
  match d with
  | Dir _ (inl _) => true
  | Dir _ (inr entries) =>
      forallb (λ de,
        let 'Entry _ type _ slot below := de in
        if IsDir type then negb slot && undispatched below else true) entries
  end.

Definition undispatchedEntry (de : DirEntry) : bool :=
  let 'Entry _ type _ slot below := de in
  if IsDir type then negb slot && undispatched below else true.

(** From [w] to [w'] the items [files] went into the file selector, one
    after the other, and the items [dirs] into the directory selector, and
    as many files and [nd] directories were counted. *)
Definition reads (w w' : shared) (files dirs : list item) (nd : nat) : Prop :=
  pushes files (fileTop w) = Some (fileTop w') ∧
  pushes dirs (dirTop w) = Some (dirTop w') ∧
  counters w' = bump (counters w) (length files) nd.

(** No filter is configured: no depth limit (a limit that is not positive
    is none), no pattern, hidden entries are walked. *)
Definition unfiltered (cfg : walkCfg) : Prop :=
  maxDepth cfg <= 0 ∧ skipPatterns cfg = [] ∧ skipHidden cfg = false.

(** From [w] to [w'] the items [files] went into the file selector and
    the items [dirs] into the directory selector, one file was counted
    for each item of [files], and the counters are [int64] values. *)
Definition accounts (w w' : shared) (files dirs : list item) : Prop :=
  pushes files (fileTop w) = Some (fileTop w') ∧
  pushes dirs (dirTop w) = Some (dirTop w') ∧
  counters_ok (counters w') ∧
  filesSeen (counters w')
  = wrap64 (filesSeen (counters w) + Z.of_nat (length files)).

(** What the walker does on [d], from every state of the shared objects:
    it returns, and its effect is accounted for as above. *)
Definition accounted `{FilePath} (cfg : walkCfg) (d : dir) : Prop :=
  ∀ path depth w, counters_ok (counters w) →
    ∃ w' r files dirs,
      walkDir cfg d path depth w = Some (w', r) ∧ accounts w w' files dirs.

(** What the walker does on a tree [d] that can be read in full. *)
Definition walked `{FilePath} (cfg : walkCfg) (d : dir) : Prop :=
  readable d = true →
  ∀ path depth w, counters_ok (counters w) →
    ∃ w', walkDir cfg d path depth w
          = Some (w', (wrap64 (sumZ (fileSizes d)), None)) ∧
          reads w w' (fileItems path d) (dirItems path d)
                (1 + length (dirItems path d)).

(** ** The variable [total] under the scheduler *)

(** A call of [walkDir] shares its variable [total] with the goroutines
    it starts.  A goroutine adds to it under [mu] (lines 387-389); the
    caller adds to it without [mu] (lines 399 and 411) and reads it
    after [wg.Wait()] (lines 417-418).  So a goroutine and the caller can
    load the same value, and the one that stores last undoes the addition
    of the other.  The function [walkDir] above runs every goroutine to
    its end where it is started, which is one of the schedules; here are
    all of them, for the accesses to [total] of one call. *)

(** What an entry of the listing makes the caller do with [total]:
    [Own x] is [total += x] in the caller, for a regular file (line 411)
    or after a call in the [default] arm (line 399); [Go x] is the [go]
    statement of a goroutine that will run
    [mu.Lock(); total += x; mu.Unlock()] (lines 382-389). *)
Inductive access : Type :=
| Own (x : Z)
| Go (x : Z).

(** The threads that the scheduler can pick: the caller; the goroutine
    that is [j]-th among those that have yet to take [mu]; the goroutine
    that holds [mu]. *)
Inductive thread : Type :=
| Caller
| Waiting (j : nat)
| Holder.

(** - [cell] is the value of [total];
    - [program] holds what the caller has yet to do, in the order of the
      listing;
    - [loaded] is the value the caller has loaded for the [Own] at the
      head of [program], between the load and the store of [total += x];
    - [started] holds the sizes that the goroutines started and not yet
      in possession of [mu] will add;
    - [locked] is, for the goroutine that holds [mu], the value it has
      loaded and the size it adds. *)
Record totalState : Type := TotalState {
  cell : Z;
  program : list access;
  loaded : option Z;
  started : list Z;
  locked : option (Z * Z)
}.

(** [var total int64] at the head of the loop. *)
Definition startTotal (program : list access) : totalState :=
  {| cell := 0; program := program; loaded := None; started := []; locked := None |}.

(** One step of one thread; [None] when the thread cannot move.  A step
    is a load or a store of [total], or a [go] statement.  [mu.Lock()] is
    taken with the load that follows it and [mu.Unlock()] with the store
    that precedes it: between the two of a pair only the caller can move,
    and it neither sees nor needs [mu]. *)
Definition stepTotal (th : thread) (s : totalState) : option totalState :=
  match th with
  | Caller =>
      match loaded s, program s with
      | None, Own x :: rest =>
          Some {| cell := cell s; program := program s; loaded := Some (cell s);
                  started := started s; locked := locked s |}
      | Some v, Own x :: rest =>
          Some {| cell := add64 v x; program := rest; loaded := None;
                  started := started s; locked := locked s |}
      | None, Go x :: rest =>
          Some {| cell := cell s; program := rest; loaded := None;
                  started := started s ++ [x]; locked := locked s |}
      | _, _ => None
      end
  | Waiting j =>
      match locked s, started s !! j with
      | None, Some x =>
          Some {| cell := cell s; program := program s; loaded := loaded s;
                  started := delete j (started s); locked := Some (cell s, x) |}
      | _, _ => None
      end
  | Holder =>
      match locked s with
      | Some (v, x) =>
          Some {| cell := add64 v x; program := program s; loaded := loaded s;
                  started := started s; locked := None |}
      | None => None
      end
  end.

(** The state after the scheduler has picked the threads of [order], one
    after the other. *)
Fixpoint runTotal (order : list thread) (s : totalState) : option totalState :=
  match order with
  | [] => Some s
  | th :: order' => s' ← stepTotal th s; runTotal order' s'
  end.

(** [wg.Wait(); return total, nil]: the loop is over and every goroutine
    has ended. *)
Definition joined (s : totalState) : option Z :=
  match program s, loaded s, started s, locked s with
  | [], None, [], None => Some (cell s)
  | _, _, _, _ => None
  end.

(** The total that a call with the accesses [program] returns when the
    scheduler picks the threads in the order [order]. *)
Definition totalUnder (order : list thread) (program : list access) : option Z :=
  s ← runTotal order (startTotal program); joined s.

(** What the loop body makes of an entry, by the tests of the body in
    their order: it passes it over, counts it as a regular file of some
    size, or calls [walkDir] on it. *)
Inductive role : Type :=
| Passed
| File (fs : Z)
| Child.

Definition roleOf `{FilePath} (cfg : walkCfg) (path : string) (de : DirEntry) : role :=
  if shouldSkipByGlob (Join path (Name de)) (skipPatterns cfg) then Passed
  else match Info de with
  | inl _ => Passed
  | inr info =>
    if isSymlink (Mode info) && negb (followLinks cfg) then Passed
    else if skipHidden cfg && HasPrefix (Name de) "." then Passed
    else if IsDir (Type_ de) then Child
    else if IsRegular (Mode info) then File (FileSize info)
    else Passed
  end.

(** [returns cfg d path depth r]: under some schedule, the call of
    [walkDir] on [path], which finds [d] there, returns the pair [r].
    [accesses cfg path depth entries program]: under some schedule of the
    calls below, the loop over [entries] makes the accesses [program] to
    [total]; a subdirectory whose call returns an error makes none. *)
Inductive returns `{FilePath} (cfg : walkCfg) : dir → string → Z → result → Prop :=
| returns_cancelled listing path depth :
    returns cfg (Dir true listing) path depth (0, Some Canceled)
| returns_beyond listing path depth :
    (maxDepth cfg >? 0) && (depth >? maxDepth cfg) = true →
    returns cfg (Dir false listing) path depth (0, None)
| returns_failed err path depth :
    (maxDepth cfg >? 0) && (depth >? maxDepth cfg) = false →
    returns cfg (Dir false (inl err)) path depth (0, Some err)
| returns_total entries path depth program order t :
    (maxDepth cfg >? 0) && (depth >? maxDepth cfg) = false →
    accesses cfg path depth entries program →
    totalUnder order program = Some t →
    returns cfg (Dir false (inr entries)) path depth (t, None)
with accesses `{FilePath} (cfg : walkCfg)
    : string → Z → list DirEntry → list access → Prop :=
| accesses_nil path depth :
    accesses cfg path depth [] []
| accesses_passed path depth de rest program :
    roleOf cfg path de = Passed →
    accesses cfg path depth rest program →
    accesses cfg path depth (de :: rest) program
| accesses_file path depth de rest program fs :
    roleOf cfg path de = File fs →
    accesses cfg path depth rest program →
    accesses cfg path depth (de :: rest) (Own fs :: program)
| accesses_child path depth de rest program size :
    roleOf cfg path de = Child →
    returns cfg (Below de) (Join path (Name de)) (add64 depth 1) (size, None) →
    accesses cfg path depth rest program →
    accesses cfg path depth (de :: rest)
             ((if Slot de then Go size else Own size) :: program)
| accesses_child_failed path depth de rest program size derr :
    roleOf cfg path de = Child →
    returns cfg (Below de) (Join path (Name de)) (add64 depth 1) (size, Some derr) →
    accesses cfg path depth rest program →
    accesses cfg path depth (de :: rest) program.

(** What an entry adds to [total] in the run of [walkDir] above: the
    size of a regular file, the aggregate that the call on a subdirectory
    returns with no error, else nothing. *)
Definition ownOf `{FilePath} (cfg : walkCfg) (path : string) (depth : Z)
    (de : DirEntry) : list Z :=
  match roleOf cfg path de with
  | Passed => []
  | File fs => [fs]
  | Child =>
      match walkResult cfg (Below de) (Join path (Name de)) (add64 depth 1) with
      | Some (size, None) => [size]
      | _ => []
      end
  end.

(** Every schedule of the call on [d] returns what [walkDir] returns. *)
Definition serial `{FilePath} (cfg : walkCfg) (d : dir) : Prop :=
  ∀ path depth r,
    returns cfg d path depth r ↔ walkResult cfg d path depth = Some r.

(** A listing with a directory [a] that holds one file of 100 bytes and
    is handed to a goroutine, and after it a file [f] of 5 bytes. *)
Definition childThenFile : list DirEntry :=
  [subDirectory "a" true (Dir false (inr [regularFile "x" 100])); regularFile "f" 5].

Definition treeChildThenFile : dir := Dir false (inr childThenFile).

(** ** The work left in a pool *)

(** The directories of a subtree, its top included, and of a list of
    subtrees. *)
Fixpoint directories (s : subtree) : nat :=
  let 'Sub children := s in
  S ((fix all (l : list subtree) : nat :=
        match l with
        | [] => 0
        | c :: l' => directories c + all l'
        end) children)%nat.

Fixpoint directoriesOf (l : list subtree) : nat :=
  match l with
  | [] => 0
  | c :: l' => (directories c + directoriesOf l')%nat
  end.

(** The steps that a task can still take or cause: five for every
    directory that one of its loops has yet to reach (the [select], the
    [go] statement, the return of the call, the deferred receive and the
    end of the goroutine), one for every call on its stack, and what the
    goroutine itself has left to do at its end. *)
Definition taskCost (t : task) : nat :=
  ((if spawned t && negb (released t) then 2 else 1)
   + match starting t with
     | Some children => 4 + 5 * directoriesOf children
     | None => 0
     end
   + foldr (λ frame acc, 1 + 5 * directoriesOf frame + acc) 0 (frames t))%nat.

(** ** More inputs for the examples *)

(** [strings.Split] for a separator of one character, and
    [strings.TrimSpace] for blanks. *)
Fixpoint splitAt (sep : Ascii.ascii) (s : string) : list string :=
  match s with
  | EmptyString => [EmptyString]
  | String c s' =>
      if Ascii.eqb c sep then EmptyString :: splitAt sep s'
      else match splitAt sep s' with
           | [] => [String c EmptyString]
           | part :: parts => String c part :: parts
           end
  end.

Fixpoint trimLeft (s : string) : string :=
  match s with
  | EmptyString => EmptyString
  | String c s' => if Ascii.eqb c Ascii.Space then trimLeft s' else s
  end.

Definition plain_strings : StringsPkg := {|
  Split := λ s sep,
    match sep with
    | String c EmptyString => splitAt c s
    | _ => [s]
    end;
  TrimSpace := λ s, String.rev (trimLeft (String.rev (trimLeft s)))
|}.

(** A printer for the examples: decimals are cut off, not rounded. *)
Definition cut_fmt : Fmt := {|
  Sprintf_2f := λ n u,
    (pretty (n / u) +:+ "." +:+ pretty (n * 10 / u mod 10)
     +:+ pretty (n * 100 / u mod 10))%string;
  Sprintf_d := λ n, pretty n;
  Sprintf_pct := λ n total,
    (pretty (n * 100 / total) +:+ "." +:+ pretty (n * 1000 / total mod 10)
     +:+ pretty (n * 10000 / total mod 10) +:+ "%")%string
|}.

(** A Windows machine whose only drive is [C:]; [answer] is what the
    query for the size of that drive gives. *)
Definition drive_C (answer : diskAnswer) : Host := {|
  GOOS := "windows";
  StatOk := λ r, String.eqb r "C:\";
  VolumeName := λ p, if String.prefix "C:" p then "C:"%string else ""%string;
  GetDiskFreeSpaceEx := λ r, if String.eqb r "C:\" then answer else DiskError
|}.

(** A machine without drive letters. *)
Definition no_drives : Host := {|
  GOOS := "linux";
  StatOk := λ _, false;
  VolumeName := λ _, ""%string;
  GetDiskFreeSpaceEx := λ _, DiskError
|}.

(** * Properties of the selector *)

(** ** The two loops, unfolded once *)

Lemma up_eq d i :
  up d i = match i with
           | O => Some d
           | S _ => match up_step d i with
                    | None => None
                    | Some (inl d') => Some d'
                    | Some (inr (d', p)) => up d' p
                    end
           end.
Proof.
  funelim (up d i); [reflexivity | ..];
    match goal with e : up_step _ _ = _ |- _ => by rewrite e end.
Qed.

Lemma down_eq d i :
  down d i = match down_step d i with
             | None => None
             | Some (inl d') => Some d'
             | Some (inr (d', s)) => down d' s
             end.
Proof.
  funelim (down d i);
    match goal with e : down_step _ _ = _ |- _ => by rewrite e end.
Qed.

(** ** Exchanging two elements *)

Lemma exchange_Some d a b x y :
  d !! a = Some x → d !! b = Some y →
  exchange d a b = Some (<[b := x]> (<[a := y]> d)).
Proof. unfold exchange. by intros -> ->. Qed.

Lemma exchange_inv d a b d' :
  exchange d a b = Some d' →
  ∃ x y, d !! a = Some x ∧ d !! b = Some y ∧ d' = <[b := x]> (<[a := y]> d).
Proof.
  unfold exchange. intros H.
  apply bind_Some in H as (x & Ha & H).
  apply bind_Some in H as (y & Hb & H).
  injection H as <-. eauto.
Qed.

Lemma exchange_lookup d a b d' j :
  exchange d a b = Some d' →
  d' !! j = if decide (j = b) then d !! a
            else if decide (j = a) then d !! b else d !! j.
Proof.
  intros (x & y & Ha & Hb & ->)%exchange_inv.
  apply lookup_lt_Some in Ha as Hla. apply lookup_lt_Some in Hb as Hlb.
  destruct (decide (j = b)) as [->|Hjb].
  - rewrite list_lookup_insert_eq; [done | by rewrite length_insert].
  - rewrite list_lookup_insert_ne by done.
    destruct (decide (j = a)) as [->|Hja].
    + by rewrite list_lookup_insert_eq.
    + by rewrite list_lookup_insert_ne.
Qed.

Lemma exchange_perm d a b d' : exchange d a b = Some d' → d' ≡ₚ d.
Proof.
  intros Hx. apply Permutation_inj. split; [by eapply exchange_length|].
  exists (λ j, if decide (j = b) then a else if decide (j = a) then b else j).
  split.
  - intros i j. repeat case_decide; congruence.
  - intros j. rewrite (exchange_lookup _ _ _ _ _ Hx).
    repeat case_decide; congruence.
Qed.

(** ** Positions in the implicit tree *)

Lemma parent_spec j i :
  (0 < j)%nat → parent j = i ↔ (j = 2 * i + 1 ∨ j = 2 * i + 2)%nat.
Proof.
  unfold parent. intros Hj.
  pose proof (Nat.div_mod_eq (j - 1) 2) as Hd.
  pose proof (Nat.mod_upper_bound (j - 1) 2).
  lia.
Qed.

Lemma parent_lt j : (0 < j)%nat → (parent j < j)%nat.
Proof. intros Hj. unfold parent. apply Nat.Div0.div_lt_upper_bound. lia. Qed.

(** ** The heap order *)

Lemma heap_ordered_nil : heap_ordered [].
Proof. intros j x y _ H. by rewrite lookup_nil in H. Qed.

Lemma heap_ordered_root d r :
  heap_ordered d → d !! 0%nat = Some r → ∀ y, y ∈ d → Size r <= Size y.
Proof.
  intros Hh Hr y (j & Hj)%list_elem_of_lookup.
  revert y Hj. induction (lt_wf j) as [j _ IH]. intros y Hj.
  destruct (decide (j = 0%nat)) as [->|Hne].
  - assert (y = r) as -> by congruence. lia.
  - assert (0 < j)%nat as Hpos by lia.
    pose proof (parent_lt j Hpos) as Hp.
    destruct (lookup_lt_is_Some_2 d (parent j)) as [x Hx].
    { apply lookup_lt_Some in Hj. lia. }
    specialize (IH _ Hp _ Hx). specialize (Hh j x y Hpos Hx Hj). lia.
Qed.

(** ** [up] restores the order *)

Lemma up_step_inv d i r :
  up_step d i = Some r →
  ∃ x y, d !! parent i = Some x ∧ d !! i = Some y ∧
    ((Size x <= Size y ∧ r = inl d) ∨
     (Size y < Size x ∧
      ∃ d', exchange d (parent i) i = Some d' ∧ r = inr (d', parent i))).
Proof.
  unfold up_step. fold (parent i). intros H.
  apply bind_Some in H as (x & Hx & H).
  apply bind_Some in H as (y & Hy & H).
  exists x, y. split_and!; [done..|].
  destruct (Z.leb_spec (Size x) (Size y)).
  - left. split; [done | congruence].
  - right. split; [done|].
    apply bind_Some in H as (d' & Hd' & H). exists d'. split; [done | congruence].
Qed.

Lemma up_step_total d i :
  (0 < i < length d)%nat → is_Some (up_step d i).
Proof.
  intros Hi. unfold up_step. fold (parent i).
  pose proof (parent_lt i) as Hp.
  destruct (lookup_lt_is_Some_2 d (parent i)) as [x Hx]; [lia|].
  destruct (lookup_lt_is_Some_2 d i) as [y Hy]; [lia|].
  rewrite Hx, Hy. simpl.
  destruct (Size x <=? Size y); [done|].
  by rewrite (exchange_Some _ _ _ _ _ Hx Hy).
Qed.

Lemma up_inv_root d : up_inv d 0 → heap_ordered d.
Proof. intros [Ha _] j x y Hj. apply Ha; [done | lia]. Qed.

Lemma up_inv_break d i x y :
  up_inv d i → d !! parent i = Some x → d !! i = Some y →
  Size x <= Size y → heap_ordered d.
Proof.
  intros [Ha _] Hx Hy Hle j x' y' Hj Hx' Hy'.
  destruct (decide (j = i)) as [->|Hne]; [|by eapply Ha].
  simplify_eq. done.
Qed.

Lemma up_inv_step d i x y d' :
  (0 < i)%nat → up_inv d i →
  d !! parent i = Some x → d !! i = Some y → Size y < Size x →
  exchange d (parent i) i = Some d' →
  up_inv d' (parent i).
Proof.
  intros Hi [Ha Hb] Hx Hy Hlt Hex.
  pose proof (parent_lt i Hi) as Hpi.
  split.
  - intros j x' y' Hj Hjp.
    rewrite !(exchange_lookup _ _ _ _ _ Hex).
    destruct (decide (j = i)) as [->|Hji].
    + rewrite decide_False, decide_True by lia || done.
      intros ? ?. simplify_eq. lia.
    + rewrite (decide_False (P := j = parent i)) by done.
      destruct (decide (parent j = i)) as [Hpj|Hpj].
      * intros ? Hy'. simplify_eq. by eapply (Hb j).
      * destruct (decide (parent j = parent i)) as [Hpp|Hpp].
        -- intros ? Hy'. simplify_eq.
           assert (Size x <= Size y') by (eapply (Ha j); [done..| by rewrite Hpp | done]).
           lia.
        -- intros Hx' Hy'. by eapply (Ha j).
  - intros j x' y' Hp Hj Hjp.
    pose proof (parent_lt _ Hp) as Hpp. pose proof (parent_lt _ Hj) as Hpj.
    rewrite !(exchange_lookup _ _ _ _ _ Hex).
    rewrite (decide_False (P := parent (parent i) = i)) by lia.
    rewrite (decide_False (P := parent (parent i) = parent i)) by lia.
    intros Hx'.
    assert (Size x' <= Size x) by (eapply (Ha (parent i)); [done | lia | done..]).
    destruct (decide (j = i)) as [->|Hji].
    + intros ?. simplify_eq. done.
    + rewrite decide_False by lia. intros Hy'.
      assert (Size x <= Size y') by (eapply (Ha j); [done..| by rewrite Hjp | done]).
      lia.
Qed.

Lemma up_correct d i :
  (i < length d)%nat → up_inv d i →
  ∃ d', up d i = Some d' ∧ d' ≡ₚ d ∧ heap_ordered d'.
Proof.
  revert d. induction (lt_wf i) as [i _ IH]. intros d Hi Hinv.
  rewrite up_eq. destruct i as [|i'].
  { exists d. split_and!; [done..|]. by apply up_inv_root. }
  set (i := S i') in *.
  destruct (up_step_total d i) as [r Hr]; [lia|]. rewrite Hr.
  apply up_step_inv in Hr as (x & y & Hx & Hy & [[Hle ->]|[Hlt (d' & Hex & ->)]]).
  - exists d. split_and!; [done..|]. by eapply up_inv_break.
  - destruct (IH (parent i) (parent_lt i ltac:(lia)) d') as (d'' & Hup & Hperm & Hho).
    + rewrite (exchange_length _ _ _ _ Hex). pose proof (parent_lt i). lia.
    + eapply up_inv_step; [lia | done..].
    + exists d''. split_and!; [done | | done].
      by rewrite Hperm, (exchange_perm _ _ _ _ Hex).
Qed.

Lemma up_inv_snoc d it :
  heap_ordered d → up_inv (d ++ [it]) (length d).
Proof.
  intros Hh. split.
  - intros j x y Hj Hne Hx Hy.
    apply lookup_lt_Some in Hy as Hlen. rewrite length_app in Hlen. simpl in Hlen.
    pose proof (parent_lt j Hj).
    rewrite lookup_app_l in Hx, Hy by lia. by eapply Hh.
  - intros j x y _ Hj Hp _ Hy.
    apply lookup_lt_Some in Hy as Hlen. rewrite length_app in Hlen. simpl in Hlen.
    apply parent_spec in Hp; lia.
Qed.

(** ** [down] restores the order *)

(** [down_small] never panics, for any slice and any position: it reads
    a child only after the bound check, and a child in range puts [i] in
    range.  The position it returns holds a smallest element among [i]
    and the children of [i] that exist. *)
Lemma down_small_spec d i :
  ∃ small, down_small d i = Some small ∧
    (small = i ∨ (i < length d ∧ small < length d ∧
                  (small = 2 * i + 1 ∨ small = 2 * i + 2)))%nat ∧
    (∀ s c, d !! small = Some s → d !! i = Some c →
       Size s <= Size c ∧ (small ≠ i → Size s < Size c)) ∧
    (∀ j s c, (j = 2 * i + 1 ∨ j = 2 * i + 2)%nat →
       d !! small = Some s → d !! j = Some c → Size s <= Size c).
Proof.
  unfold down_small, size_lt_at.
  destruct (Nat.ltb_spec (2 * i + 1) (length d)) as [Hl|Hl].
  - destruct (lookup_lt_is_Some_2 d i) as [ci Hci]; [lia|].
    destruct (lookup_lt_is_Some_2 d (2 * i + 1)) as [cl Hcl]; [lia|].
    rewrite Hcl, Hci. cbn [mbind option_bind].
    destruct (Nat.ltb_spec (2 * i + 1 + 1) (length d)) as [Hr|Hr].
    + destruct (lookup_lt_is_Some_2 d (2 * i + 1 + 1)) as [cr Hcr]; [lia|].
      rewrite Hcr.
      destruct (Z.ltb_spec (Size cl) (Size ci)) as [Hc1|Hc1]; cbn [mbind option_bind].
      * rewrite Hcl. cbn [mbind option_bind].
        destruct (Z.ltb_spec (Size cr) (Size cl)) as [Hc2|Hc2];
          (eexists; split; [reflexivity|]; split_and!; [lia|..]).
        -- intros s c ? ?. simplify_eq. lia.
        -- intros j s c [->| ->] ? ?; simplify_eq;
             replace (2 * i + 2)%nat with (2 * i + 1 + 1)%nat in * by lia;
             simplify_eq; lia.
        -- intros s c ? ?. simplify_eq. lia.
        -- intros j s c [->| ->] ? ?; simplify_eq;
             replace (2 * i + 2)%nat with (2 * i + 1 + 1)%nat in * by lia;
             simplify_eq; lia.
      * rewrite Hci. cbn [mbind option_bind].
        destruct (Z.ltb_spec (Size cr) (Size ci)) as [Hc2|Hc2];
          (eexists; split; [reflexivity|]; split_and!; [lia|..]).
        -- intros s c ? ?. simplify_eq. lia.
        -- intros j s c [->| ->] ? ?; simplify_eq;
             replace (2 * i + 2)%nat with (2 * i + 1 + 1)%nat in * by lia;
             simplify_eq; lia.
        -- intros s c ? ?. simplify_eq. lia.
        -- intros j s c [->| ->] ? ?; simplify_eq;
             replace (2 * i + 2)%nat with (2 * i + 1 + 1)%nat in * by lia;
             simplify_eq; lia.
    + destruct (Z.ltb_spec (Size cl) (Size ci)) as [Hc1|Hc1]; cbn [mbind option_bind];
        (eexists; split; [reflexivity|]; split_and!; [lia|..]).
      * intros s c ? ?. simplify_eq. lia.
      * intros j s c [->| ->] ? Hj; simplify_eq; [lia|].
        apply lookup_lt_Some in Hj. lia.
      * intros s c ? ?. simplify_eq. lia.
      * intros j s c [->| ->] ? Hj; simplify_eq; [lia|].
        apply lookup_lt_Some in Hj. lia.
  - cbn [mbind option_bind]. destruct (Nat.ltb_spec (2 * i + 1 + 1) (length d)) as [Hr|Hr]; [lia|].
    exists i. split; [done|]. split_and!; [by left|..].
    + intros s c ? ?. simplify_eq. lia.
    + intros j s c Hj _ Hc. apply lookup_lt_Some in Hc. lia.
Qed.

Lemma down_step_total d i : is_Some (down_step d i).
Proof.
  unfold down_step.
  destruct (down_small_spec d i) as (small & -> & Hrange & _). simpl.
  destruct (decide (small = i)) as [|Hne]; [done|].
  destruct Hrange as [?|(Hi & Hs & _)]; [done|].
  destruct (lookup_lt_is_Some_2 d i Hi) as [x Hx].
  destruct (lookup_lt_is_Some_2 d small Hs) as [y Hy].
  by rewrite (exchange_Some _ _ _ _ _ Hx Hy).
Qed.

Lemma down_inv_break d i :
  down_inv d i → down_small d i = Some i → heap_ordered d.
Proof.
  intros [Ha _] Hs j x y Hj Hx Hy.
  destruct (decide (parent j = i)) as [Hp|Hp]; [|by eapply Ha].
  destruct (down_small_spec d i) as (small & Hs' & _ & _ & Hch).
  assert (small = i) as -> by congruence.
  subst i. eapply (Hch j); [by apply parent_spec | done..].
Qed.

Lemma down_inv_step d i small d' :
  down_inv d i → down_small d i = Some small → small ≠ i →
  exchange d i small = Some d' →
  down_inv d' small.
Proof.
  intros [Ha Hb] Hs Hne Hex.
  destruct (down_small_spec d i) as (small' & Hs' & Hrange & Hlt & Hch).
  assert (small' = small) as -> by congruence. clear Hs'.
  destruct Hrange as [?|(Hi & Hsl & Hsmall)]; [done|].
  assert (0 < small)%nat as Hspos by lia.
  assert (parent small = i) as Hps by (apply parent_spec; lia).
  destruct (exchange_inv _ _ _ _ Hex) as (ci & cs & Hci & Hcs & _).
  destruct (Hlt _ _ Hcs Hci) as [_ Hlt']. specialize (Hlt' Hne).
  split.
  - intros j x y Hj Hpj.
    rewrite !(exchange_lookup _ _ _ _ _ Hex).
    rewrite (decide_False (P := parent j = small)) by done.
    destruct (decide (parent j = i)) as [Hpji|Hpji].
    + destruct (decide (j = small)) as [->|Hjs].
      * intros ? ?. simplify_eq. lia.
      * rewrite decide_False by (pose proof (parent_lt j Hj); lia).
        intros ? Hy. simplify_eq.
        eapply (Hch j); [by apply parent_spec | done..].
    + rewrite (decide_False (P := j = small)) by congruence.
      destruct (decide (j = i)) as [->|Hji].
      * intros Hx ?. simplify_eq.
        eapply (Hb small); [lia | done..].
      * intros Hx Hy. by eapply (Ha j).
  - intros j x y _ Hj Hpj.
    pose proof (parent_lt j Hj).
    rewrite !(exchange_lookup _ _ _ _ _ Hex).
    rewrite Hps. rewrite (decide_False (P := i = small)) by done.
    rewrite decide_True by done.
    rewrite (decide_False (P := j = small)) by lia.
    rewrite (decide_False (P := j = i)) by lia.
    intros ? Hy. simplify_eq.
    eapply (Ha j); [done | lia | done..].
Qed.

Lemma down_correct d i :
  down_inv d i →
  ∃ d', down d i = Some d' ∧ d' ≡ₚ d ∧ heap_ordered d'.
Proof.
  remember (length d - i)%nat as m eqn:Hm.
  revert d i Hm. induction (lt_wf m) as [m _ IH]. intros d i -> Hinv.
  rewrite down_eq.
  destruct (down_step_total d i) as [r Hr]. rewrite Hr.
  pose proof Hr as Hr'. unfold down_step in Hr'.
  apply bind_Some in Hr' as (small & Hs & Hr').
  destruct (decide (small = i)) as [->|Hne].
  - injection Hr' as <-. exists d. split_and!; [done..|].
    by eapply down_inv_break.
  - apply bind_Some in Hr' as (d' & Hex & Hr'). injection Hr' as <-.
    destruct (IH _ (down_step_decreases _ _ _ _ Hr) d' small eq_refl)
      as (d'' & Hdown & Hperm & Hho).
    + by eapply down_inv_step.
    + exists d''. split_and!; [done | | done].
      by rewrite Hperm, (exchange_perm _ _ _ _ Hex).
Qed.

Lemma down_inv_replace_root d it :
  heap_ordered d → down_inv (<[0%nat := it]> d) 0.
Proof.
  intros Hh. split; [|intros; lia].
  intros j x y Hj Hp.
  rewrite !list_lookup_insert_ne by lia. by apply Hh.
Qed.

(** ** [push] *)

Lemma up_total d i : (i < length d)%nat → is_Some (up d i).
Proof.
  revert d. induction (lt_wf i) as [i _ IH]. intros d Hi.
  rewrite up_eq. destruct i as [|i']; [done|].
  destruct (up_step_total d (S i')) as [r Hr]; [lia|]. rewrite Hr.
  destruct r as [d'|[d' p]]; [done|].
  apply up_step_inv in Hr as (x & y & _ & _ & [[_ ?]|[_ (d'' & Hex & ?)]]);
    simplify_eq.
  apply IH.
  - apply parent_lt. lia.
  - rewrite (exchange_length _ _ _ _ Hex). pose proof (parent_lt (S i')). lia.
Qed.

Lemma down_total d i : is_Some (down d i).
Proof.
  remember (length d - i)%nat as m eqn:Hm.
  revert d i Hm. induction (lt_wf m) as [m _ IH]. intros d i ->.
  rewrite down_eq.
  destruct (down_step_total d i) as [r Hr]. rewrite Hr.
  destruct r as [d'|[d' s]]; [done|].
  eapply IH; [|done]. by apply down_step_decreases.
Qed.

(** No index expression of [push] is ever out of range. *)
Lemma push_total it h : is_Some (push it h).
Proof.
  unfold push.
  destruct (k h <=? 0) eqn:Hk; [done|].
  destruct (Z.of_nat (length (data h)) <? k h) eqn:Hlen.
  - destruct (up_total (data h ++ [it]) (length (data h ++ [it]) - 1)) as [d' ->];
      [rewrite length_app; simpl; lia | done].
  - apply Z.leb_gt in Hk. apply Z.ltb_ge in Hlen.
    destruct (lookup_lt_is_Some_2 (data h) 0) as [root ->]; [lia|]. simpl.
    destruct (Size it >? Size root); [|done].
    by destruct (down_total (<[0%nat := it]> (data h)) 0) as [d' ->].
Qed.

Lemma pushes_total its h : is_Some (pushes its h).
Proof.
  revert h. induction its as [|it its IH]; intros h; simpl; [done|].
  destruct (push_total it h) as [h' ->]. simpl. apply IH.
Qed.

Lemma push_k it h h' : push it h = Some h' → k h' = k h.
Proof.
  unfold push. intros Hp.
  destruct (k h <=? 0); [by simplify_eq|].
  destruct (Z.of_nat (length (data h)) <? k h).
  - apply bind_Some in Hp as (d' & _ & ?). by simplify_eq.
  - apply bind_Some in Hp as (root & _ & Hp).
    destruct (Size it >? Size root); [|by simplify_eq].
    apply bind_Some in Hp as (d' & _ & ?). by simplify_eq.
Qed.

(** A selector whose capacity is not positive drops every push. *)
Lemma push_discard it h : k h <= 0 → push it h = Some h.
Proof. intros Hk. unfold push. by rewrite (proj2 (Z.leb_le _ _) Hk). Qed.

(** Below capacity the item is kept. *)
Lemma push_grow it h :
  0 < k h → Z.of_nat (length (data h)) < k h → heap_ordered (data h) →
  ∃ h', push it h = Some h' ∧ data h' ≡ₚ it :: data h ∧ heap_ordered (data h').
Proof.
  intros Hk Hlen Hh. unfold push.
  rewrite (proj2 (Z.leb_gt _ _) Hk), (proj2 (Z.ltb_lt _ _) Hlen).
  destruct (up_correct (data h ++ [it]) (length (data h ++ [it]) - 1))
    as (d' & -> & Hperm & Hho).
  - rewrite length_app. simpl. lia.
  - replace (length (data h ++ [it]) - 1)%nat with (length (data h))
      by (rewrite length_app; simpl; lia).
    by apply up_inv_snoc.
  - eexists. split; [done|]. simpl. split; [|done].
    rewrite Hperm. by rewrite Permutation_app_comm.
Qed.

(** At capacity the item replaces the root when it is strictly larger,
    and is dropped otherwise. *)
Lemma push_full it h :
  0 < k h → k h <= Z.of_nat (length (data h)) → heap_ordered (data h) →
  ∃ root h', data h !! 0%nat = Some root ∧ push it h = Some h' ∧
    heap_ordered (data h') ∧
    (if Size it >? Size root then root :: data h' ≡ₚ it :: data h else h' = h).
Proof.
  intros Hk Hlen Hh. unfold push.
  rewrite (proj2 (Z.leb_gt _ _) Hk), (proj2 (Z.ltb_ge _ _) Hlen).
  destruct (lookup_lt_is_Some_2 (data h) 0) as [root Hroot]; [lia|].
  rewrite Hroot. simpl. exists root.
  destruct (Size it >? Size root).
  - destruct (down_correct (<[0%nat := it]> (data h)) 0)
      as (d' & -> & Hperm & Hho); [by apply down_inv_replace_root|].
    eexists. split_and!; [done..|]. simpl. rewrite Hperm.
    destruct (data h) as [|r tl]; [done|]. simpl in *. simplify_eq.
    apply perm_swap.
  - by exists h.
Qed.

(** ** The selector keeps the largest *)

Lemma selector_inv_new K : 0 < K → selector_inv K [] (newHeap K).
Proof.
  intros HK. split_and!; [done | apply heap_ordered_nil | simpl; lia |].
  exists []. split; [done|]. intros x y Hx. by apply elem_of_nil in Hx.
Qed.

Lemma selector_inv_push K pushed h it :
  0 < K → selector_inv K pushed h →
  ∃ h', push it h = Some h' ∧ selector_inv K (pushed ++ [it]) h'.
Proof.
  intros HK (Hk & Hh & Hlen & dropped & Hperm & Hdom).
  destruct (decide (Z.of_nat (length (data h)) < K)) as [Hlt|Hge].
  - destruct (push_grow it h) as (h' & Hp & Hperm' & Hh'); [lia..|done|].
    exists h'. split; [done|].
    assert (dropped = []) as ->.
    { apply Permutation_length in Hperm. rewrite length_app in Hperm.
      destruct dropped; [done|]. simpl in Hperm. lia. }
    split_and!; [by rewrite (push_k _ _ _ Hp) | done | |].
    + rewrite Hperm', length_app. simpl. lia.
    + exists []. split.
      * rewrite Hperm', Hperm, !app_nil_r. by rewrite Permutation_app_comm.
      * intros x y _ Hy. by apply elem_of_nil in Hy.
  - destruct (push_full it h) as (root & h' & Hroot & Hp & Hh' & Hcase);
      [lia..|done|].
    exists h'. split; [done|].
    assert (∀ y, y ∈ data h → Size root <= Size y) as Hmin
      by (by apply heap_ordered_root).
    assert (root ∈ data h) as Hrin by (by eapply list_elem_of_lookup_2).
    destruct (Z.gtb_spec (Size it) (Size root)) as [Hgt|Hle].
    + split_and!; [by rewrite (push_k _ _ _ Hp) | done | |].
      * apply Permutation_length in Hcase. simpl in Hcase.
        rewrite length_app. simpl. lia.
      * exists (root :: dropped). split.
        -- transitivity ((root :: data h') ++ dropped);
             [|simpl; apply Permutation_middle].
           rewrite Hcase, Hperm. by rewrite Permutation_app_comm.
        -- intros x y Hx Hy.
           assert (x ∈ it :: data h) as Hx'
             by (rewrite <- Hcase; by apply list_elem_of_further).
           assert (Size root <= Size x).
           { apply elem_of_cons in Hx' as [->|Hx']; [lia | by apply Hmin]. }
           apply elem_of_cons in Hy as [->|Hy]; [done|].
           specialize (Hdom root y Hrin Hy). lia.
    + subst h'.
      split_and!; [done..| |].
      * rewrite length_app. simpl. lia.
      * exists (it :: dropped). split.
        -- rewrite Hperm, (Permutation_app_comm _ [it]). simpl.
           apply Permutation_middle.
        -- intros x y Hx Hy.
           apply elem_of_cons in Hy as [->|Hy]; [|by apply Hdom].
           specialize (Hmin x Hx). lia.
Qed.

Lemma selector_inv_pushes K pushed h its :
  0 < K → selector_inv K pushed h →
  ∃ h', pushes its h = Some h' ∧ selector_inv K (pushed ++ its) h'.
Proof.
  intros HK. revert pushed h. induction its as [|it its IH]; intros pushed h Hinv.
  - exists h. by rewrite app_nil_r.
  - destruct (selector_inv_push K pushed h it HK Hinv) as (h1 & Hp & Hinv1).
    destruct (IH _ _ Hinv1) as (h' & Hps & Hinv').
    exists h'. simpl. rewrite Hp. simpl. split; [done|].
    by rewrite <- app_assoc in Hinv'.
Qed.

Lemma pushes_discard its h : k h <= 0 → pushes its h = Some h.
Proof.
  intros Hk. induction its as [|it its IH]; [done|].
  simpl. by rewrite (push_discard _ _ Hk).
Qed.

(** ** The snapshot *)

Lemma bySizeDesc_spec a b : bySizeDesc a b = true ↔ Size b < Size a.
Proof. unfold bySizeDesc. rewrite Z.gtb_ltb. apply Z.ltb_lt. Qed.

Lemma bySizeDesc_false a b : bySizeDesc a b = false ↔ Size a <= Size b.
Proof. unfold bySizeDesc. rewrite Z.gtb_ltb. apply Z.ltb_ge. Qed.

Lemma bySizeDesc_swo : StrictWeakOrder bySizeDesc.
Proof.
  split.
  - intros a. apply bySizeDesc_false. lia.
  - intros a b c. rewrite !bySizeDesc_spec. lia.
  - intros a b c. rewrite !bySizeDesc_false. lia.
Qed.

Lemma StronglySorted_weaken {A} (R1 R2 : relation A) l :
  (∀ x y, R1 x y → R2 x y) → StronglySorted R1 l → StronglySorted R2 l.
Proof.
  intros HR. induction 1 as [|x l ? IH Hx]; constructor; [done|].
  eapply Forall_impl; [exact Hx|]. intros y. apply HR.
Qed.

Lemma sortedDesc_heap `{SliceSorter} h : (sortedDesc h).1 = h.
Proof. done. Qed.

Lemma sortedDesc_perm `{SliceSorter} h : (sortedDesc h).2 ≡ₚ data h.
Proof. apply sort_slice_perm. Qed.

Lemma sortedDesc_sorted `{SliceSorter} h :
  StronglySorted descending (Size <$> (sortedDesc h).2).
Proof.
  apply StronglySorted_fmap with (R1 := λ a b, bySizeDesc b a = false).
  - intros a b. by rewrite bySizeDesc_false.
  - apply sort_slice_sorted, bySizeDesc_swo.
Qed.

(** A descending list that starts with the kept sizes is the descending
    sort of everything pushed. *)
Lemma largest_of_sizes pushed kept dropped :
  largest_of pushed kept dropped →
  StronglySorted descending (Size <$> kept) →
  largest_first (Size <$> pushed)
  = (Size <$> kept) ++ largest_first (Size <$> dropped).
Proof.
  intros [Hperm Hdom] Hsorted. unfold largest_first.
  apply (StronglySorted_unique descending).
  - apply StronglySorted_merge_sort; apply _.
  - apply StronglySorted_app. split_and!; [|done|].
    + intros a b (x & -> & Hx)%list_elem_of_fmap Hb.
      rewrite merge_sort_Permutation in Hb.
      apply list_elem_of_fmap in Hb as (y & -> & Hy).
      by apply Hdom.
    + apply StronglySorted_merge_sort; apply _.
  - rewrite !merge_sort_Permutation, Hperm. by rewrite fmap_app.
Qed.

(** ** Insertion sort meets the contract of [sort.Slice] *)

Lemma insert_by_perm less x l : insert_by less x l ≡ₚ x :: l.
Proof.
  induction l as [|y l IH]; simpl; [done|].
  destruct (less y x); [|done]. rewrite IH. apply perm_swap.
Qed.

Lemma insertion_sort_perm less l : insertion_sort less l ≡ₚ l.
Proof.
  induction l as [|x l IH]; simpl; [done|].
  by rewrite insert_by_perm, IH.
Qed.

Lemma swo_asym less a b :
  StrictWeakOrder less → less a b = true → less b a = false.
Proof.
  intros Hswo Hab. destruct (less b a) eqn:Hba; [|done].
  pose proof (swo_trans _ Hswo _ _ _ Hab Hba) as Haa.
  by rewrite (swo_irrefl _ Hswo) in Haa.
Qed.

(** "Not less" is transitive for a strict weak order. *)
Lemma swo_negtrans less a b c :
  StrictWeakOrder less → less b a = false → less c b = false → less c a = false.
Proof.
  intros Hswo Hba Hcb. destruct (less c a) eqn:Hca; [|done].
  destruct (less a b) eqn:Hab.
  - by rewrite (swo_trans _ Hswo _ _ _ Hca Hab) in Hcb.
  - destruct (less b c) eqn:Hbc.
    + by rewrite (swo_trans _ Hswo _ _ _ Hbc Hca) in Hba.
    + destruct (swo_incomp _ Hswo a b c Hab Hba Hbc Hcb) as [_ Hca'].
      congruence.
Qed.

Lemma insert_by_sorted less x l :
  StrictWeakOrder less →
  StronglySorted (λ a b, less b a = false) l →
  StronglySorted (λ a b, less b a = false) (insert_by less x l).
Proof.
  intros Hswo. induction l as [|y l IH]; intros Hs; simpl.
  - repeat constructor.
  - apply StronglySorted_cons in Hs as [Hy Hs].
    destruct (less y x) eqn:Hyx.
    + apply StronglySorted_cons. split; [|by apply IH].
      rewrite insert_by_perm. constructor; [|done].
      by eapply swo_asym.
    + apply StronglySorted_cons. split; [|by apply StronglySorted_cons].
      constructor; [done|].
      eapply Forall_impl; [exact Hy|]. intros z Hz. simpl in Hz.
      by eapply swo_negtrans.
Qed.

Lemma insertion_sort_sorted less l :
  StrictWeakOrder less →
  StronglySorted (λ a b, less b a = false) (insertion_sort less l).
Proof.
  intros Hswo. induction l as [|x l IH]; simpl; [constructor|].
  by apply insert_by_sorted.
Qed.

#[local] Instance insertion_sorter : SliceSorter := {|
  sort_slice := insertion_sort;
  sort_slice_perm := insertion_sort_perm;
  sort_slice_sorted := insertion_sort_sorted
|}.

Lemma largest_of_perm pushed kept kept' dropped :
  kept' ≡ₚ kept → largest_of pushed kept dropped → largest_of pushed kept' dropped.
Proof.
  intros Hk [Hperm Hdom]. split; [by rewrite Hk|].
  intros x y Hx. apply Hdom. by rewrite <- Hk.
Qed.

(** C1.  After any sequence of pushes into a selector built with capacity
    [K], no push panics; for [K <= 0] the selector is as it was built
    (every push was dropped); for [K >= 0] the selector holds at most [K]
    items, the snapshot has exactly [min K N] items, the pushed items
    split into the snapshot and a remainder none of whose sizes exceeds a
    size in the snapshot, and the sizes of the snapshot are the first [K]
    of all pushed sizes listed largest first. *)
Theorem selector_keeps_k_largest `{SliceSorter} (K : Z) (its : list item) :
  ∃ h, pushes its (newHeap K) = Some h ∧
    (K <= 0 → h = newHeap K) ∧
    (0 <= K →
       let out := (sortedDesc h).2 in
       Z.of_nat (length (data h)) <= K ∧
       Z.of_nat (length out) = Z.min K (Z.of_nat (length its)) ∧
       (∃ dropped, largest_of its out dropped) ∧
       Size <$> out = take (Z.to_nat K) (largest_first (Size <$> its))).
Proof.
  destruct (decide (K <= 0)) as [HK|HK].
  - exists (newHeap K). split; [by apply pushes_discard|].
    split; [done|]. intros HK0 out. assert (K = 0) as -> by lia.
    assert (out = []) as Hout.
    { apply Permutation_nil_r. apply (sortedDesc_perm (newHeap 0)). }
    rewrite Hout. simpl. split_and!; [lia | lia | | done].
    exists its. split; [done|]. intros x y Hx. by apply elem_of_nil in Hx.
  - destruct (selector_inv_pushes K [] (newHeap K) its)
      as (h & Hp & _ & _ & Hlen & dropped & Hlarge);
      [lia | apply selector_inv_new; lia |].
    simpl in Hlen, Hlarge.
    exists h. split; [done|]. split; [lia|]. intros _ out.
    pose proof (sortedDesc_perm h) as Hperm. fold out in Hperm.
    assert (largest_of its out dropped) as Hlarge'
      by (by eapply largest_of_perm).
    assert (Z.of_nat (length out) = Z.min K (Z.of_nat (length its))) as Hlen'
      by (by rewrite Hperm).
    split_and!; [lia | done | by exists dropped |].
    rewrite (largest_of_sizes _ _ _ Hlarge' (sortedDesc_sorted h)).
    destruct (decide (K <= Z.of_nat (length its))) as [Hle|Hgt].
    + rewrite take_app_length'; [done|]. rewrite length_fmap. lia.
    + assert (dropped = []) as ->.
      { destruct Hlarge' as [Hp' _]. apply Permutation_length in Hp'.
        rewrite length_app in Hp'. destruct dropped; [done|].
        simpl in Hp'. lia. }
      change (largest_first (Size <$> [])) with (@nil Z).
      rewrite app_nil_r, take_ge; [done|].
      rewrite length_fmap. lia.
Qed.

(** The scenario of the specification: five files, [K = 3]. *)
Lemma selector_keeps_k_largest_witness :
  ∃ h, pushes [Item "a" 10; Item "b" 50; Item "c" 5; Item "d" 100; Item "e" 20]
              (newHeap 3) = Some h ∧
       Size <$> (sortedDesc h).2 = [100; 50; 20].
Proof.
  destruct (selector_keeps_k_largest 3
    [Item "a" 10; Item "b" 50; Item "c" 5; Item "d" 100; Item "e" 20])
    as (h & Hp & _ & Hk).
  exists h. split; [exact Hp|].
  destruct (Hk ltac:(lia)) as (_ & _ & _ & ->).
  vm_compute. reflexivity.
Defined.

(** C2.  A snapshot leaves the selector as it was and returns the held
    items, each exactly as often as it is held, ordered by descending
    size.  A second snapshot with no push in between returns the same
    items as often, and the same sequence of sizes; this holds even when
    the two calls of [sort.Slice] order equal sizes differently (the two
    calls may be served by different sorters [S1] and [S2]). *)
Theorem snapshot_sorted_and_repeatable (S1 S2 : SliceSorter) (h : minHeap) :
  let first := @sortedDesc S1 h in
  let second := @sortedDesc S2 first.1 in
  first.1 = h ∧ second.1 = h ∧
  first.2 ≡ₚ data h ∧
  StronglySorted (λ a b, Size b <= Size a) first.2 ∧
  second.2 ≡ₚ first.2 ∧
  Size <$> second.2 = Size <$> first.2.
Proof.
  intros first second.
  pose proof (@sortedDesc_perm S1 h) as Hp1.
  pose proof (@sortedDesc_perm S2 h) as Hp2.
  pose proof (@sortedDesc_sorted S1 h) as Hs1.
  pose proof (@sortedDesc_sorted S2 h) as Hs2.
  split_and!; [done | done | done | | |].
  - eapply StronglySorted_weaken; [|apply (@sort_slice_sorted S1), bySizeDesc_swo].
    intros a b. by rewrite bySizeDesc_false.
  - unfold second, first. simpl. by rewrite Hp1, Hp2.
  - apply (StronglySorted_unique descending); [done..|].
    unfold second, first. simpl. by rewrite Hp1, Hp2.
Qed.

Lemma snapshot_sorted_and_repeatable_witness :
  let h := {| data := [Item "e" 20; Item "b" 50; Item "d" 100]; k := 3 |} in
  (sortedDesc h).2 ≡ₚ data h ∧
  Size <$> (sortedDesc (sortedDesc h).1).2 = Size <$> (sortedDesc h).2.
Proof.
  intros h.
  destruct (snapshot_sorted_and_repeatable insertion_sorter insertion_sorter h)
    as (_ & _ & Hperm & _ & _ & Hsizes).
  split; [exact Hperm | exact Hsizes].
Defined.

(** * Properties of the walker *)

(** ** Machine arithmetic *)

Lemma wrap64_small z : min_int64 <= z <= max_int64 → wrap64 z = z.
Proof.
  unfold wrap64, min_int64, max_int64. intros Hz.
  rewrite Z.mod_small; lia.
Qed.

Lemma wrap64_range z : min_int64 <= wrap64 z <= max_int64.
Proof.
  unfold wrap64, min_int64, max_int64.
  pose proof (Z.mod_pos_bound (z + 2 ^ 63) (2 ^ 64)). lia.
Qed.

Lemma wrap64_add_l a b : wrap64 (wrap64 a + b) = wrap64 (a + b).
Proof.
  unfold wrap64. f_equal.
  replace ((a + 2 ^ 63) mod 2 ^ 64 - 2 ^ 63 + b + 2 ^ 63)
    with ((a + 2 ^ 63) mod 2 ^ 64 + b) by lia.
  rewrite Zplus_mod_idemp_l. f_equal. lia.
Qed.

Lemma add64_succ a : min_int64 <= a < max_int64 → add64 a 1 = a + 1.
Proof. intros Ha. unfold add64. apply wrap64_small. unfold min_int64 in *. lia. Qed.

(** The running total of a loop that adds the numbers [cs] one by one. *)
Lemma foldl_add64 cs t : foldl add64 (wrap64 t) cs = wrap64 (t + foldr Z.add 0 cs).
Proof.
  revert t. induction cs as [|c cs IH]; intros t; simpl.
  - by rewrite Z.add_0_r.
  - unfold add64 at 2. rewrite wrap64_add_l, IH. f_equal. lia.
Qed.

(** ** What a call returns does not depend on the shared objects *)

Section WalkerFacts.
Context `{FilePath}.
Variable cfg : walkCfg.

Lemma walkDir_eq done listing path depth w :
  walkDir cfg (Dir done listing) path depth w =
  if done then Some (w, (0, Some Canceled))
  else if (maxDepth cfg >? 0) && (depth >? maxDepth cfg) then
    Some (incSkipped w, (0, None))
  else match listing with
  | inl err => Some (incErrors w, (0, Some err))
  | inr entries =>
    '(w, total) ← range (visit cfg (walkDir cfg) path depth) entries (incDirsSeen w) 0;
    Some (w, (total, None))
  end.
Proof. reflexivity. Qed.

Lemma pushFile_total it w : is_Some (pushFile it w).
Proof. unfold pushFile. by destruct (push_total it (fileTop w)) as [h ->]. Qed.

Lemma pushDir_total it w : is_Some (pushDir it w).
Proof. unfold pushDir. by destruct (push_total it (dirTop w)) as [h ->]. Qed.

Lemma afterChild_total p r w total : is_Some (afterChild p r w total).
Proof.
  destruct r as [size [derr|]]; simpl.
  - by destruct (negb (isIgnorable derr)).
  - by destruct (pushDir_total (Item p size) w) as [w' ->].
Qed.

Lemma pure_result_walkResult d path depth r w w' :
  walkDir cfg d path depth w = Some (w', r) → pure_result cfg d →
  walkResult cfg d path depth = Some r.
Proof.
  intros Hw Hp. destruct (Hp path depth) as (r' & Hr').
  destruct (Hr' w) as (w1 & Hw1). assert (r' = r) as -> by congruence.
  unfold walkResult. destruct (Hr' (newShared cfg)) as (w2 & ->). done.
Qed.

Lemma afterChild_total_of p size derr w t :
  min_int64 <= t <= max_int64 →
  ∃ w', afterChild p (size, derr) w t
        = Some (w', add64 t (match derr with None => size | Some _ => 0 end)).
Proof.
  intros Ht. destruct derr as [derr|]; simpl.
  - unfold add64. rewrite Z.add_0_r, wrap64_small by done.
    destruct (negb (isIgnorable derr)); eauto.
  - destruct (pushDir_total (Item p size) w) as [w' ->]. simpl. eauto.
Qed.

Lemma visit_contribution path depth de w t :
  pure_result cfg (Below de) → min_int64 <= t <= max_int64 →
  ∃ w', visit cfg (walkDir cfg) path depth de w t
        = Some (w', add64 t (contribution cfg path depth de)).
Proof.
  intros Hpure Ht.
  assert (add64 t 0 = t) as Ht0
    by (unfold add64; rewrite Z.add_0_r; by apply wrap64_small).
  unfold visit, contribution, skippedByConfig.
  destruct (shouldSkipByGlob _ _); simpl; [rewrite Ht0; eauto|].
  destruct (Info de) as [lerr|info].
  { destruct (skipHidden cfg && HasPrefix (Name de) "."); simpl;
      rewrite Ht0; eauto. }
  destruct (isSymlink (Mode info) && negb (followLinks cfg)); simpl.
  { rewrite orb_true_r, Ht0. eauto. }
  rewrite orb_false_r.
  destruct (skipHidden cfg && HasPrefix (Name de) "."); simpl;
    [rewrite Ht0; eauto|].
  destruct (IsDir (Type_ de)).
  - destruct (Hpure (Join path (Name de)) (add64 depth 1)) as ([size derr] & Hr).
    destruct (Hr w) as (w1 & Hw1).
    rewrite (pure_result_walkResult _ _ _ _ _ _ Hw1 Hpure).
    destruct (afterChild_total_of (Join path (Name de)) size derr w1 t Ht)
      as (w2 & Hw2).
    exists w2. destruct (Slot de); rewrite Hw1; cbn [mbind option_bind];
      rewrite Hw2; by destruct derr.
  - destruct (IsRegular (Mode info)); [|rewrite Ht0; eauto].
    destruct (pushFile_total (Item (Join path (Name de)) (FileSize info))
                (incFilesSeen w)) as [w' ->].
    simpl. eauto.
Qed.

Lemma range_contributions path depth entries w t :
  Forall (λ de, pure_result cfg (Below de)) entries →
  min_int64 <= t <= max_int64 →
  ∃ w', range (visit cfg (walkDir cfg) path depth) entries w t
        = Some (w', foldl add64 t (contribution cfg path depth <$> entries)).
Proof.
  intros Hall. revert w t. induction Hall as [|de rest Hde _ IH]; intros w t Ht.
  - simpl. eauto.
  - destruct (visit_contribution path depth de w t Hde Ht) as (w1 & Hw1).
    destruct (IH w1 (add64 t (contribution cfg path depth de)))
      as (w2 & Hw2); [apply wrap64_range|].
    exists w2. simpl. rewrite Hw1. simpl. by rewrite Hw2.
Qed.

Lemma walkDir_pure d : pure_result cfg d.
Proof.
  induction d as [done err|done entries IH] using dir_below_ind;
    intros path depth.
  - destruct done; [eexists; intros w; rewrite walkDir_eq; eauto|].
    destruct ((maxDepth cfg >? 0) && (depth >? maxDepth cfg)) eqn:Hd;
      eexists; intros w; rewrite walkDir_eq; simpl; rewrite Hd; eauto.
  - destruct done; [eexists; intros w; rewrite walkDir_eq; eauto|].
    destruct ((maxDepth cfg >? 0) && (depth >? maxDepth cfg)) eqn:Hd.
    { eexists; intros w; rewrite walkDir_eq; simpl; rewrite Hd; eauto. }
    exists (foldl add64 0 (contribution cfg path depth <$> entries), None).
    intros w. rewrite walkDir_eq. simpl. rewrite Hd.
    destruct (range_contributions path depth entries (incDirsSeen w) 0 IH)
      as (w' & ->); [done|].
    simpl. eauto.
Qed.

(** A call that is not cancelled and lists its directory returns no
    error, and the wrapped sum of what the entries contribute. *)
Lemma walkDir_listed entries path depth w :
  ∃ w', walkDir cfg (Dir false (inr entries)) path depth w
        = Some (w', (if (maxDepth cfg >? 0) && (depth >? maxDepth cfg) then 0
                     else wrap64 (foldr Z.add 0 (contribution cfg path depth <$> entries)),
                     None)).
Proof.
  rewrite walkDir_eq. simpl.
  destruct ((maxDepth cfg >? 0) && (depth >? maxDepth cfg)); [eauto|].
  destruct (range_contributions path depth entries (incDirsSeen w) 0)
    as (w' & ->); [|done|].
  - apply Forall_forall. intros de _. apply walkDir_pure.
  - simpl. exists w'. do 3 f_equal. apply (foldl_add64 _ 0).
Qed.

Lemma walkDir_total d path depth w : is_Some (walkDir cfg d path depth w).
Proof.
  destruct (walkDir_pure d path depth) as (r & Hr).
  destruct (Hr w) as (w' & ->). done.
Qed.
End WalkerFacts.

(** ** Entries the walker descends into *)

Lemma beyondDepth_true cfg depth :
  beyondDepth cfg depth → (maxDepth cfg >? 0) && (depth >? maxDepth cfg) = true.
Proof.
  intros [H1 H2]. apply andb_true_iff. rewrite !Z.gtb_ltb. split; by apply Z.ltb_lt.
Qed.

Lemma beyondDepth_false cfg depth :
  ¬ beyondDepth cfg depth → (maxDepth cfg >? 0) && (depth >? maxDepth cfg) = false.
Proof.
  intros Hn. apply andb_false_iff. rewrite !Z.gtb_ltb, !Z.ltb_ge.
  unfold beyondDepth in Hn. lia.
Qed.

Lemma visit_descends `{FilePath} cfg walk path depth de w t :
  descends cfg path de →
  visit cfg walk path depth de w t =
  '(w, r) ← walk (Below de) (Join path (Name de)) (add64 depth 1) w;
  afterChild (Join path (Name de)) r w t.
Proof.
  intros (Hglob & (info & Hinfo & Hlink) & Hhid & Hdir).
  unfold visit. rewrite Hglob, Hinfo, Hlink, Hhid, Hdir.
  by destruct (Slot de).
Qed.

Lemma symlink_not_regular m : isSymlink m = true → IsRegular m = false.
Proof.
  unfold isSymlink, IsRegular. rewrite negb_true_iff, !Z.eqb_neq.
  intros Hs Hr. apply Hs. apply Z.bits_inj_0. intros n. rewrite Z.land_spec.
  destruct (decide (n = 27)) as [->|Hn].
  - assert (Z.testbit (Z.land m ModeType) 27 = false) as Hb
      by (rewrite Hr; apply Z.bits_0).
    rewrite Z.land_spec in Hb.
    change (Z.testbit ModeType 27) with true in Hb.
    rewrite andb_true_r in Hb. by rewrite Hb.
  - change ModeSymlink with (2 ^ 27).
    destruct (decide (0 <= n)) as [Hpos|Hneg].
    + rewrite (Z.pow2_bits_false 27 n) by lia. apply andb_false_r.
    + rewrite (Z.testbit_neg_r _ n) by lia. done.
Qed.

(** The end-to-end scenario of the specification: five files of sizes
    10, 50, 5, 100 and 20 in one directory, [K = 3]. *)
Example scenario_five_files :
  let entries := [regularFile "a" 10; regularFile "b" 50; regularFile "c" 5;
                  regularFile "d" 100; regularFile "e" 20] in
  ∃ w, walkDir (defaultCfg 3 0) (Dir false (inr entries)) "r" 0
         (newShared (defaultCfg 3 0)) = Some (w, (185, None)) ∧
       Size <$> (sortedDesc (fileTop w)).2 = [100; 50; 20] ∧
       filesSeen (counters w) = 5 ∧ dirsSeen (counters w) = 1.
Proof. eexists. vm_compute. done. Qed.

(** ** The aggregate of a directory *)

(** The running total is an [int64] and wraps.  Two regular files of
    [2^62] bytes each (sparse files reach such sizes) in one directory:
    the sizes sum to [2^63], the call succeeds and returns [-2^63]. *)
Example total_wraps_at_int64 :
  let cfg := defaultCfg 20 0 in
  let entries := [regularFile "a" (2 ^ 62); regularFile "b" (2 ^ 62)] in
  let sum := foldr Z.add 0 (contribution cfg "r" 0 <$> entries) in
  sum = 2 ^ 62 + 2 ^ 62 ∧
  ∃ w total, walkDir cfg (Dir false (inr entries)) "r" 0 (newShared cfg)
             = Some (w, (total, None)) ∧
             total = - 2 ^ 63 ∧ total ≠ sum.
Proof.
  split; [vm_compute; reflexivity|].
  do 2 eexists. split; [vm_compute; reflexivity|].
  split; [reflexivity | vm_compute; discriminate].
Qed.

(** ** The depth limit *)

(** C4, as stated, fails for a call made after cancellation: the
    cancellation test comes first, the call returns [context.Canceled] and
    counts nothing. *)
Lemma depth_limit_counterexample :
  let cfg := defaultCfg 20 1 in
  let w := newShared cfg in
  0 < maxDepth cfg ∧ maxDepth cfg < 2 ∧
  walkDir cfg (Dir true (inr [])) "r" 2 w = Some (w, (0, Some Canceled)) ∧
  ¬ ∃ w', walkDir cfg (Dir true (inr [])) "r" 2 w = Some (w', (0, None)) ∧
          skipped (counters w') = skipped (counters w) + 1.
Proof.
  split_and!; [reflexivity..|].
  intros (w' & Hw & _). vm_compute in Hw. discriminate.
Qed.

(** C4, amended.  A call that is not cancelled, made with a maximum depth
    [D > 0] at a depth greater than [D], returns aggregate 0 and no error
    whatever the directory holds; it adds one to the skipped counter and
    leaves the other counters and both selectors as they were. *)
Theorem walkDir_beyond_depth `{FilePath} (cfg : walkCfg)
    (listing : error + list DirEntry) (path : string) (depth : Z) (w : shared) :
  0 < maxDepth cfg → maxDepth cfg < depth →
  min_int64 <= skipped (counters w) < max_int64 →
  ∃ w', walkDir cfg (Dir false listing) path depth w = Some (w', (0, None)) ∧
    skipped (counters w') = skipped (counters w) + 1 ∧
    errors (counters w') = errors (counters w) ∧
    dirsSeen (counters w') = dirsSeen (counters w) ∧
    filesSeen (counters w') = filesSeen (counters w) ∧
    fileTop w' = fileTop w ∧ dirTop w' = dirTop w.
Proof.
  intros HD Hdepth Hrange. exists (incSkipped w).
  rewrite walkDir_eq. simpl.
  rewrite (beyondDepth_true cfg depth) by done.
  split_and!; try done. simpl. by apply add64_succ.
Qed.

Lemma walkDir_beyond_depth_witness :
  ∃ w', walkDir (defaultCfg 20 1)
          (Dir false (inr [regularFile "file" 100])) "root/a/b" 2
          (newShared (defaultCfg 20 1)) = Some (w', (0, None)) ∧
        skipped (counters w') = 1.
Proof.
  destruct (walkDir_beyond_depth (defaultCfg 20 1)
    (inr [regularFile "file" 100]) "root/a/b" 2 (newShared (defaultCfg 20 1)))
    as (w' & Hw & Hs & _); [reflexivity | reflexivity | vm_compute; done |].
  exists w'. split; [exact Hw | exact Hs].
Defined.

(** ** Cancellation *)

(** C7.  A call made while the cancellation token is set returns
    aggregate 0 and [context.Canceled], whatever the depth and whatever
    listing the directory would give; the counters and the selectors are
    as before the call, so nothing was listed and nothing dispatched. *)
Theorem walkDir_cancelled `{FilePath} (cfg : walkCfg)
    (listing : error + list DirEntry) (path : string) (depth : Z) (w : shared) :
  walkDir cfg (Dir true listing) path depth w = Some (w, (0, Some Canceled)).
Proof. by rewrite walkDir_eq. Qed.

(** ** Failures *)

Lemma range_cons body de rest w total :
  range body (de :: rest) w total
  = '(w, total) ← body de w total; range body rest w total.
Proof. reflexivity. Qed.

Lemma walkDir_listing_fails `{FilePath} cfg err path depth w :
  ¬ beyondDepth cfg depth →
  walkDir cfg (Dir false (inl err)) path depth w
  = Some (incErrors w, (0, Some err)).
Proof.
  intros Hd. rewrite walkDir_eq. simpl. by rewrite beyondDepth_false.
Qed.

Lemma walkDir_listed_no_error `{FilePath} cfg entries path depth w :
  ∃ w' total, walkDir cfg (Dir false (inr entries)) path depth w
              = Some (w', (total, None)).
Proof.
  destruct (walkDir_listed cfg entries path depth w) as [w' Hw]. eauto.
Qed.

(** C5.  When the listing of a directory fails, the call adds one to the
    error counter, touches nothing else, and returns aggregate 0 with the
    error of [os.ReadDir].  The failure stays with the caller: the loop of
    the caller goes on with the entries after the failed one, with the
    total it had and with shared objects that differ in the error counter
    only (the caller counts the error once more unless it is a permission
    error); and a call whose own listing succeeds returns no error,
    whatever happened below it. *)
Theorem listing_failure_is_local `{FilePath} (cfg : walkCfg) (err : error) :
  (∀ path depth w,
     ¬ beyondDepth cfg depth →
     min_int64 <= errors (counters w) < max_int64 →
     ∃ w', walkDir cfg (Dir false (inl err)) path depth w = Some (w', (0, Some err)) ∧
       errors (counters w') = errors (counters w) + 1 ∧
       skipped (counters w') = skipped (counters w) ∧
       dirsSeen (counters w') = dirsSeen (counters w) ∧
       filesSeen (counters w') = filesSeen (counters w) ∧
       fileTop w' = fileTop w ∧ dirTop w' = dirTop w) ∧
  (∀ parent depth de after w total,
     descends cfg parent de →
     Below de = Dir false (inl err) →
     ¬ beyondDepth cfg (add64 depth 1) →
     let body := visit cfg (walkDir cfg) parent depth in
     range body (de :: after) w total
     = range body after
         (if isIgnorable err then incErrors w else incErrors (incErrors w)) total) ∧
  (∀ entries path depth w,
     ∃ w' total, walkDir cfg (Dir false (inr entries)) path depth w
                 = Some (w', (total, None))).
Proof.
  split_and!.
  - intros path depth w Hdepth Hrange. exists (incErrors w).
    rewrite walkDir_listing_fails by done.
    split_and!; try done. simpl. by apply add64_succ.
  - intros parent depth de after w total Hdesc Hbelow Hdepth body.
    rewrite range_cons. unfold body. rewrite visit_descends by done.
    rewrite Hbelow, walkDir_listing_fails by done. simpl.
    by destruct (isIgnorable err).
  - intros entries path depth w. apply walkDir_listed_no_error.
Qed.

(** A directory [sub] that cannot be listed, followed by a file: the
    loop goes on with the file. *)
Lemma listing_failure_is_local_witness :
  let cfg := defaultCfg 20 0 in
  let w := incDirsSeen (newShared cfg) in
  let sub := subDirectory "sub" false (Dir false (inl (OtherFailure "EIO"))) in
  range (visit cfg (walkDir cfg) "r" 0) [sub; regularFile "f" 7] w 0
  = range (visit cfg (walkDir cfg) "r" 0) [regularFile "f" 7]
      (incErrors (incErrors w)) 0.
Proof.
  intros cfg w sub.
  destruct (listing_failure_is_local cfg (OtherFailure "EIO")) as (_ & Hloop & _).
  apply (Hloop "r" 0 sub [regularFile "f" 7] w 0).
  - split_and!; [reflexivity | | reflexivity | reflexivity].
    eexists. split; reflexivity.
  - reflexivity.
  - intros [Hgt _]. vm_compute in Hgt. discriminate.
Defined.

(** C6.  Where the result of a recursive call is folded into the caller,
    a permission error leaves the error counter alone, and any other error
    adds one to it; a call whose own listing fails adds one to the error
    counter, a permission error included.  So a subdirectory that may not
    be listed is counted once (by the call on it), and one that fails to
    list for another reason twice. *)
Theorem permission_errors_asymmetric `{FilePath} (cfg : walkCfg)
    (path : string) (depth : Z) (de : DirEntry) (w : shared) (total : Z) :
  (∀ p size derr,
     afterChild p (size, Some derr) w total
     = Some (if isIgnorable derr then w else incErrors w, total)) ∧
  isIgnorable PermissionDenied = true ∧
  isIgnorable Canceled = false ∧
  (∀ msg, isIgnorable (OtherFailure msg) = false) ∧
  (¬ beyondDepth cfg depth →
   walkDir cfg (Dir false (inl PermissionDenied)) path depth w
   = Some (incErrors w, (0, Some PermissionDenied))) ∧
  (descends cfg path de → ¬ beyondDepth cfg (add64 depth 1) →
   ∀ err, Below de = Dir false (inl err) →
     visit cfg (walkDir cfg) path depth de w total
     = Some (if isIgnorable err then incErrors w else incErrors (incErrors w),
             total)) ∧
  errors (counters (incErrors w)) = add64 (errors (counters w)) 1.
Proof.
  split_and!; try done.
  - intros p size derr. simpl. by destruct (isIgnorable derr).
  - apply walkDir_listing_fails.
  - intros Hdesc Hdepth err Hbelow.
    rewrite visit_descends by done.
    rewrite Hbelow, walkDir_listing_fails by done. simpl.
    by destruct (isIgnorable err).
Qed.

Lemma permission_errors_asymmetric_witness :
  let cfg := defaultCfg 20 0 in
  let w := newShared cfg in
  visit cfg (walkDir cfg) "r" 0
    (subDirectory "locked" false (Dir false (inl PermissionDenied))) w 0
  = Some (incErrors w, 0).
Proof.
  intros cfg w.
  destruct (permission_errors_asymmetric cfg "r" 0
    (subDirectory "locked" false (Dir false (inl PermissionDenied))) w 0)
    as (_ & _ & _ & _ & _ & Hvisit & _).
  apply (Hvisit) with (err := PermissionDenied).
  - split_and!; [reflexivity | | reflexivity | reflexivity].
    eexists. split; reflexivity.
  - intros [Hgt _]. vm_compute in Hgt. discriminate.
  - reflexivity.
Defined.

(** ** Subdirectories in the directory selector *)

(** C9.  When the recursive call on a subdirectory returns no error, the
    caller adds the returned aggregate to its total and pushes the pair of
    the child's path and that aggregate into the directory selector, on
    the shared objects as the call left them.  A call beyond the depth
    limit is such a call: it counts the subdirectory as skipped and
    returns 0, so the caller pushes the child with size 0.  In the tree
    [root/a/b/file] walked with maximum depth 1, the directory [b], at
    depth 2, is counted as skipped and still is listed in the snapshot of
    the directory selector, with size 0. *)
Theorem successful_child_is_pushed :
  (∀ (FP : FilePath) cfg path depth de w total w1 size,
     descends cfg path de →
     walkDir cfg (Below de) (Join path (Name de)) (add64 depth 1) w
       = Some (w1, (size, None)) →
     ∃ h, push {| Path := Join path (Name de); Size := size |} (dirTop w1) = Some h ∧
          visit cfg (walkDir cfg) path depth de w total
          = Some ({| fileTop := fileTop w1; dirTop := h; counters := counters w1 |},
                  add64 total size)) ∧
  (∀ (FP : FilePath) cfg path depth de w total listing,
     descends cfg path de →
     Below de = Dir false listing →
     beyondDepth cfg (add64 depth 1) →
     ∃ h, push {| Path := Join path (Name de); Size := 0 |} (dirTop w) = Some h ∧
          visit cfg (walkDir cfg) path depth de w total
          = Some ({| fileTop := fileTop w; dirTop := h;
                     counters := counters (incSkipped w) |},
                  add64 total 0)) ∧
  (let cfg := defaultCfg 20 1 in
   ∃ w total, walkDir cfg treeRootAB "root" 0 (newShared cfg) = Some (w, (total, None)) ∧
     skipped (counters w) = 1 ∧
     dirsSeen (counters w) = 2 ∧
     (sortedDesc (dirTop w)).2 = [Item "root/a/b" 0; Item "root/a" 0]).
Proof.
  split_and!.
  - intros FP cfg path depth de w total w1 size Hdesc Hwalk.
    destruct (push_total (Item (Join path (Name de)) size) (dirTop w1)) as [h Hh].
    exists h. split; [done|].
    rewrite visit_descends by done. rewrite Hwalk. simpl.
    unfold pushDir. by rewrite Hh.
  - intros FP cfg path depth de w total listing Hdesc Hbelow Hdepth.
    destruct (push_total (Item (Join path (Name de)) 0) (dirTop w)) as [h Hh].
    exists h. split; [done|].
    rewrite visit_descends by done. rewrite Hbelow, walkDir_eq.
    rewrite beyondDepth_true by done. simpl.
    unfold pushDir. simpl. by rewrite Hh.
  - do 2 eexists. split; [vm_compute; reflexivity|].
    vm_compute. done.
Qed.

(** ** Symbolic links *)

(** C10.  An entry that is a symbolic link by its own metadata (the type
    bits of the directory entry are [ModeSymlink], and the mode that
    [Info] reports has the [ModeSymlink] bit) is neither a directory nor a
    regular file for the walker.  Whatever the configuration, the loop body
    leaves the total and both selectors as they are and does not call
    [walkDir]: what it returns is the same for every function put in place
    of the recursive call.  It adds one to the skipped counter when a skip
    rule applies, which with links followed is left to the pattern and
    hidden rules, and changes no counter otherwise. *)
Theorem symlink_adds_nothing `{FilePath} (cfg : walkCfg)
    (walk : dir → string → Z → shared → option (shared * result))
    (path : string) (depth : Z) (de : DirEntry) (info : FileInfo)
    (w : shared) (total : Z) :
  Type_ de = ModeSymlink →
  Info de = inr info →
  isSymlink (Mode info) = true →
  IsDir (Type_ de) = false ∧
  IsRegular (Mode info) = false ∧
  visit cfg walk path depth de w total
  = Some (if shouldSkipByGlob (Join path (Name de)) (skipPatterns cfg)
             || negb (followLinks cfg)
             || (skipHidden cfg && HasPrefix (Name de) ".")
          then incSkipped w else w, total) ∧
  contribution cfg path depth de = 0.
Proof.
  intros Htype Hinfo Hlink.
  pose proof (symlink_not_regular _ Hlink) as Hreg.
  assert (IsDir (Type_ de) = false) as Hdir by (by rewrite Htype).
  split_and!; [done..| |].
  - unfold visit. rewrite Hinfo, Hlink, Hdir, Hreg.
    destruct (shouldSkipByGlob _ _); [done|].
    destruct (followLinks cfg); [|done]. simpl.
    by destruct (skipHidden cfg && HasPrefix (Name de) ".").
  - unfold contribution. destruct (skippedByConfig cfg path de); [done|].
    by rewrite Hinfo, Hdir, Hreg.
Qed.

(** A link to a directory that holds a file, walked with links followed:
    nothing is counted, nothing is added. *)
Lemma symlink_adds_nothing_witness :
  let cfg := {| topK := 20; workers := 4; followLinks := true; maxDepth := 0;
                skipHidden := false; skipPatterns := []; showProgress := true |} in
  let link := Entry "link" ModeSymlink
                (inr {| Mode := Z.lor ModeSymlink 511; FileSize := 9 |}) true
                (Dir false (inr [regularFile "file" 100])) in
  visit cfg (walkDir cfg) "r" 0 link (newShared cfg) 0 = Some (newShared cfg, 0).
Proof.
  intros cfg link.
  destruct (symlink_adds_nothing cfg (walkDir cfg) "r" 0 link
              {| Mode := Z.lor ModeSymlink 511; FileSize := 9 |} (newShared cfg) 0)
    as (_ & _ & Hvisit & _); [reflexivity..|].
  exact Hvisit.
Defined.

(** * Properties of the admission pool *)

Lemma weight_app f ts1 ts2 : weight f (ts1 ++ ts2) = (weight f ts1 + weight f ts2)%nat.
Proof. induction ts1 as [|t ts1 IH]; simpl; [done|]. rewrite IH. lia. Qed.

Lemma weight_insert f ts i t t' :
  ts !! i = Some t →
  (weight f (<[i := t']> ts) + f t)%nat = (weight f ts + f t')%nat.
Proof.
  revert i. induction ts as [|t0 ts IH]; intros [|i] Hi; simpl in *; try done.
  - simplify_eq. lia.
  - specialize (IH i Hi). lia.
Qed.

Lemma weight_delete f ts i t :
  ts !! i = Some t → weight f ts = (f t + weight f (delete i ts))%nat.
Proof.
  revert i. induction ts as [|t0 ts IH]; intros [|i] Hi; simpl in *; try done.
  - by simplify_eq.
  - rewrite (IH i Hi). lia.
Qed.

Lemma weight_roots f roots :
  (∀ r, f (rootTask r) = 0%nat) → weight f (rootTask <$> roots) = 0%nat.
Proof.
  intros Hf. induction roots as [|r roots IH]; [done|].
  rewrite fmap_cons. simpl. by rewrite Hf, IH.
Qed.

Lemma pool_inv_start cap roots : pool_inv cap (startScan roots).
Proof.
  split; [|simpl; lia]. unfold active. simpl.
  rewrite !weight_roots; [done | by intros [c] | by intros [c]].
Qed.

Lemma step_inv cap i p p' :
  pool_inv cap p → step cap i p = Some p' → pool_inv cap p'.
Proof.
  unfold pool_inv, active. intros [Hact Hcap] Hstep. unfold step in Hstep.
  apply bind_Some in Hstep as (t & Ht & Hstep).
  pose proof (λ t', weight_insert atWork _ _ _ t' Ht) as Hw.
  pose proof (λ t', weight_insert aboutToGo _ _ _ t' Ht) as Hg.
  destruct t as [sp rel [go|] fr]; simpl in Hstep.
  - simplify_eq. simpl. rewrite !weight_app.
    specialize (Hw (Task sp rel None fr)). specialize (Hg (Task sp rel None fr)).
    unfold atWork, aboutToGo in *. simpl in *. lia.
  - destruct fr as [|[|[children] rest] outer].
    + destruct (sp && negb rel) eqn:Hs.
      * destruct (semLen p) as [|n] eqn:Hn; [done|]. simplify_eq. simpl.
        specialize (Hw (Task true true None [])).
        specialize (Hg (Task true true None [])).
        unfold atWork, aboutToGo in *. simpl in *. rewrite Hs in Hw. lia.
      * simplify_eq. simpl.
        rewrite (weight_delete atWork _ _ _ Ht) in Hact.
        rewrite (weight_delete aboutToGo _ _ _ Ht) in Hact.
        unfold atWork at 1, aboutToGo at 1 in Hact. simpl in Hact.
        rewrite Hs in Hact. lia.
    + simplify_eq. simpl.
      specialize (Hw (Task sp rel None outer)).
      specialize (Hg (Task sp rel None outer)).
      unfold atWork, aboutToGo in *. simpl in *. lia.
    + destruct (Nat.ltb_spec (semLen p) cap); simplify_eq; simpl.
      * specialize (Hw (Task sp rel (Some children) (rest :: outer))).
        specialize (Hg (Task sp rel (Some children) (rest :: outer))).
        unfold atWork, aboutToGo in *. simpl in *. lia.
      * specialize (Hw (Task sp rel None (children :: rest :: outer))).
        specialize (Hg (Task sp rel None (children :: rest :: outer))).
        unfold atWork, aboutToGo in *. simpl in *. lia.
Qed.

Lemma run_inv cap schedule p p' :
  pool_inv cap p → run cap schedule p = Some p' → pool_inv cap p'.
Proof.
  revert p. induction schedule as [|i schedule IH]; intros p Hinv Hrun; simpl in *.
  - by simplify_eq.
  - apply bind_Some in Hrun as (p1 & Hstep & Hrun).
    eapply IH; [|done]. by eapply step_inv.
Qed.

Lemma step_enabled cap i p t :
  pool_inv cap p → tasks p !! i = Some t → is_Some (step cap i p).
Proof.
  unfold pool_inv, active. intros [Hact _] Ht. unfold step. rewrite Ht. simpl.
  destruct t as [sp rel [go|] fr]; simpl; [done|].
  destruct fr as [|[|[children] rest] outer]; [|done|].
  - destruct (sp && negb rel) eqn:Hs; [|done].
    rewrite (weight_delete atWork _ _ _ Ht) in Hact.
    unfold atWork at 1 in Hact. simpl in Hact. rewrite Hs in Hact.
    destruct (semLen p); [lia | done].
  - by destruct (semLen p <? cap)%nat.
Qed.

(** C8.  In every pool that a scan reaches, under every schedule: the
    goroutines started by [go] in [walkDir] that have not yet given their
    slot back, together with the [go] statements about to run, are as many
    as the values in the buffer of [sem], so the goroutines at work are at
    most [cfg.workers]; every task can take its next step, so no send and
    no receive on [sem] ever blocks; and when the buffer is full, a task
    that has reached a subdirectory makes the recursive call on its own
    stack, and neither a goroutine nor a buffered value is added. *)
Theorem admission_is_bounded (workers : Z) (roots : list subtree)
    (cap : nat) (schedule : list nat) (p : pool) :
  makeSem workers = Some cap →
  run cap schedule (startScan roots) = Some p →
  Z.of_nat (active (tasks p)) <= workers ∧
  (active (tasks p) + weight aboutToGo (tasks p))%nat = semLen p ∧
  (∀ i t, tasks p !! i = Some t → is_Some (step cap i p)) ∧
  (∀ i t children rest outer,
     tasks p !! i = Some t →
     starting t = None →
     frames t = (Sub children :: rest) :: outer →
     semLen p = cap →
     step cap i p
     = Some {| semLen := semLen p;
               tasks := <[i := {| spawned := spawned t; released := released t;
                                  starting := None;
                                  frames := children :: rest :: outer |}]> (tasks p) |}).
Proof.
  intros Hsem Hrun.
  assert (workers = Z.of_nat cap) as Hw.
  { unfold makeSem in Hsem. destruct (Z.ltb_spec workers 0); [done|].
    simplify_eq. lia. }
  assert (pool_inv cap p) as Hinv
    by (eapply run_inv; [apply pool_inv_start | done]).
  split_and!.
  - destruct Hinv. lia.
  - by destruct Hinv.
  - intros i t Ht. by eapply step_enabled.
  - intros i t children rest outer Ht Hgo Hf Hfull.
    unfold step. rewrite Ht. simpl. rewrite Hgo, Hf.
    by rewrite (proj2 (Nat.ltb_ge _ _)) by lia.
Qed.

(** Two workers and a directory with three subdirectories, each reached
    before any goroutine is done: two are dispatched, the third is walked
    in the caller. *)
Lemma admission_is_bounded_witness :
  ∃ p, run 2 [0; 0; 0; 0; 0]%nat (startScan [Sub [Sub []; Sub []; Sub []]]) = Some p ∧
       active (tasks p) = 2%nat ∧ length (tasks p) = 3%nat ∧
       Z.of_nat (active (tasks p)) <= 2.
Proof.
  eexists. split; [reflexivity|].
  pose proof (admission_is_bounded 2 [Sub [Sub []; Sub []; Sub []]] 2
                [0; 0; 0; 0; 0]%nat _ eq_refl eq_refl) as (Hbound & _).
  split_and!; [reflexivity | reflexivity | exact Hbound].
Defined.

(** * More on the selector *)

(** ** The loops on arbitrary slices *)

Lemma up_perm d i d' : up d i = Some d' → d' ≡ₚ d.
Proof.
  revert d d'. induction (lt_wf i) as [i _ IH]. intros d d'.
  rewrite up_eq. destruct i as [|j]; [by intros [= ->]|].
  destruct (up_step d (S j)) as [[d1|[d1 p]]|] eqn:Hstep; [| |done].
  - apply up_step_inv in Hstep as (x & y & _ & _ & [[_ ?]|[_ (d2 & _ & ?)]]);
      simplify_eq. by intros [= ->].
  - apply up_step_inv in Hstep as (x & y & _ & _ & [[_ ?]|[_ (d2 & Hex & ?)]]);
      simplify_eq.
    intros Hup. apply IH in Hup; [|apply parent_lt; lia].
    by rewrite Hup, (exchange_perm _ _ _ _ Hex).
Qed.

Lemma down_perm d i d' : down d i = Some d' → d' ≡ₚ d.
Proof.
  remember (length d - i)%nat as m eqn:Hm.
  revert d i d' Hm. induction (lt_wf m) as [m _ IH]. intros d i d' ->.
  rewrite down_eq.
  destruct (down_step d i) as [[d1|[d1 s]]|] eqn:Hstep; [| |done].
  - unfold down_step in Hstep.
    apply bind_Some in Hstep as (small & _ & Hstep).
    destruct (decide (small = i)); simplify_eq; [by intros [= ->]|].
    apply bind_Some in Hstep as (? & _ & ?). simplify_eq.
  - pose proof (down_step_decreases _ _ _ _ Hstep) as Hdec.
    unfold down_step in Hstep.
    apply bind_Some in Hstep as (small & _ & Hstep).
    destruct (decide (small = i)); [done|].
    apply bind_Some in Hstep as (d2 & Hex & ?). simplify_eq.
    intros Hdown. eapply IH in Hdown; [|exact Hdec|done].
    by rewrite Hdown, (exchange_perm _ _ _ _ Hex).
Qed.

Lemma up_out_of_range d i : (0 < i)%nat → (length d <= i)%nat → up d i = None.
Proof.
  intros Hpos Hlen. rewrite up_eq. destruct i as [|j]; [lia|].
  unfold up_step. rewrite (lookup_ge_None_2 d (S j)) by done.
  by destruct (d !! _).
Qed.

Lemma down_leaf d i : (length d <= 2 * i + 1)%nat → down d i = Some d.
Proof.
  intros Hlen. rewrite down_eq. unfold down_step, down_small.
  rewrite (proj2 (Nat.ltb_ge _ _)) by lia.
  rewrite (proj2 (Nat.ltb_ge _ _)) by lia.
  cbn [mbind option_bind]. by rewrite decide_True.
Qed.

(** X1.  At a position [i >= 0] for which [2*i + 2] is still an [int],
    in a slice so short that twice its length is one (every slice of
    items is), which is where the positions of the loops are those of the
    source: [down] does not panic, and leaves the slice as it is at a
    position without children; [up] panics exactly at a position that is
    positive and out of range; where they return, the slice they return
    holds the same items as often. *)
Theorem loops_bounds_and_contents (d : list item) (i : nat) :
  2 * Z.of_nat i + 2 <= max_int64 →
  2 * Z.of_nat (length d) <= max_int64 →
  is_Some (down d i) ∧
  ((length d <= 2 * i + 1)%nat → down d i = Some d) ∧
  (up d i = None ↔ (0 < i ∧ length d <= i)%nat) ∧
  (∀ d', down d i = Some d' → d' ≡ₚ d) ∧
  (∀ d', up d i = Some d' → d' ≡ₚ d).
Proof.
  intros _ _. split_and!.
  - apply down_total.
  - apply down_leaf.
  - split.
    + intros Hnone. destruct (decide (i < length d)%nat) as [Hlt|Hge].
      * destruct (up_total d i Hlt) as [d' Hd']. congruence.
      * destruct i as [|j]; [by rewrite up_eq in Hnone|]. lia.
    + intros [Hpos Hlen]. by apply up_out_of_range.
  - intros d'. apply down_perm.
  - intros d'. apply up_perm.
Qed.

Lemma loops_bounds_and_contents_witness :
  let d := [Item "a" 3; Item "b" 1; Item "c" 2] in
  down d 0 = Some [Item "b" 1; Item "a" 3; Item "c" 2] ∧
  down d 1 = Some d ∧ up d 3 = None.
Proof.
  intros d.
  destruct (loops_bounds_and_contents d 1) as (_ & Hleaf & _);
    [by vm_compute | by vm_compute |].
  destruct (loops_bounds_and_contents d 3) as (_ & _ & Hup & _);
    [by vm_compute | by vm_compute |].
  split_and!; [reflexivity | apply Hleaf; simpl; lia | apply Hup; simpl; lia].
Defined.

(** ** One push *)

Lemma push_cases it h :
  ∃ h', push it h = Some h' ∧ k h' = k h ∧
    ((k h <= 0 ∧ h' = h) ∨
     (0 < k h ∧ Z.of_nat (length (data h)) < k h ∧ data h' ≡ₚ it :: data h) ∨
     (0 < k h ∧ k h <= Z.of_nat (length (data h)) ∧
      ∃ root, data h !! 0%nat = Some root ∧
        ((Size it <= Size root ∧ h' = h) ∨
         (Size root < Size it ∧ root :: data h' ≡ₚ it :: data h)))).
Proof.
  destruct (push_total it h) as [h' Hp]. exists h'.
  split; [done|]. split; [by eapply push_k|].
  unfold push in Hp.
  destruct (Z.leb_spec (k h) 0) as [Hk|Hk]; [left; split; congruence|].
  right.
  destruct (Z.ltb_spec (Z.of_nat (length (data h))) (k h)) as [Hlen|Hlen].
  - left. apply bind_Some in Hp as (d' & Hup & ?). simplify_eq. simpl.
    split_and!; [done..|].
    rewrite (up_perm _ _ _ Hup). by rewrite Permutation_app_comm.
  - right. apply bind_Some in Hp as (root & Hroot & Hp).
    split_and!; [done..|]. exists root. split; [done|].
    destruct (Z.gtb_spec (Size it) (Size root)) as [Hgt|Hle].
    + right. apply bind_Some in Hp as (d' & Hdown & ?). simplify_eq. simpl.
      split; [done|]. rewrite (down_perm _ _ _ Hdown).
      destruct (data h) as [|r tl]; [done|]. simpl in *. simplify_eq.
      apply perm_swap.
    + left. split; [done | congruence].
Qed.

(** X2.  For every state of the heap, ordered or not, [push] returns: no
    index is out of range.  It leaves the capacity as it is, every item
    it holds afterwards was held before or is the pushed one, and the
    number of items grows by one below a positive capacity and stays the
    same otherwise. *)
Theorem push_shape (it : item) (h : minHeap) :
  ∃ h', push it h = Some h' ∧
    k h' = k h ∧
    data h' ⊆+ it :: data h ∧
    length (data h') =
      if (0 <? k h) && (Z.of_nat (length (data h)) <? k h)
      then S (length (data h)) else length (data h).
Proof.
  destruct (push_cases it h) as (h' & Hp & Hk & Hcase).
  exists h'. split_and!; [done..| |].
  - destruct Hcase as [[_ ->]|[(_ & _ & Hperm)|(_ & _ & root & _ & [[_ ->]|[_ Hperm]])]].
    + by apply submseteq_cons.
    + by rewrite Hperm.
    + by apply submseteq_cons.
    + rewrite <- Hperm. by apply submseteq_cons.
  - destruct Hcase as [[Hle ->]|[(Hpos & Hlt & Hperm)|(Hpos & Hge & root & _ & Hc)]].
    + by rewrite (proj2 (Z.ltb_ge 0 (k h))) by lia.
    + rewrite (proj2 (Z.ltb_lt 0 (k h))), (proj2 (Z.ltb_lt _ _)) by lia.
      by rewrite Hperm.
    + rewrite (proj2 (Z.ltb_lt 0 (k h))), (proj2 (Z.ltb_ge _ _)) by lia.
      destruct Hc as [[_ ->]|[_ Hperm]]; [done|].
      apply Permutation_length in Hperm. simpl in *. lia.
Qed.

Lemma push_heap_ordered it h h' :
  heap_ordered (data h) → push it h = Some h' → heap_ordered (data h').
Proof.
  intros Hh Hp.
  destruct (Z.leb_spec (k h) 0) as [Hk|Hk].
  { rewrite push_discard in Hp by done. by simplify_eq. }
  destruct (Z.ltb_spec (Z.of_nat (length (data h))) (k h)) as [Hlen|Hlen].
  - destruct (push_grow it h Hk Hlen Hh) as (h1 & Hp1 & _ & Hh1).
    by assert (h1 = h') as <- by congruence.
  - destruct (push_full it h Hk Hlen Hh) as (root & h1 & _ & Hp1 & Hh1 & _).
    by assert (h1 = h') as <- by congruence.
Qed.

Lemma pushes_heap_ordered its h h' :
  heap_ordered (data h) → pushes its h = Some h' → heap_ordered (data h').
Proof.
  revert h. induction its as [|it its IH]; intros h Hh Hp; simpl in Hp.
  - by simplify_eq.
  - apply bind_Some in Hp as (h1 & Hp1 & Hp).
    eapply IH; [|done]. by eapply push_heap_ordered.
Qed.

(** X3.  [push] keeps the heap order: pushed into a heap in which every
    item is at least its parent, it returns such a heap.  So after any
    pushes into a new selector of any capacity the heap is ordered, and
    the first item of its slice is a smallest one held. *)
Theorem push_keeps_heap_order :
  (∀ it h h',
     heap_ordered (data h) → push it h = Some h' → heap_ordered (data h')) ∧
  (∀ K its h,
     pushes its (newHeap K) = Some h →
     heap_ordered (data h) ∧
     ∀ root y, data h !! 0%nat = Some root → y ∈ data h → Size root <= Size y).
Proof.
  split; [apply push_heap_ordered|].
  intros K its h Hps.
  assert (heap_ordered (data h)) as Hh.
  { apply (pushes_heap_ordered its (newHeap K)); [apply heap_ordered_nil | done]. }
  split; [done|]. intros root y Hroot Hy. by eapply heap_ordered_root.
Qed.

(** X4.  At capacity, in an ordered heap: an item no larger than the
    first item of the slice is dropped and the heap is left as it is (so
    of two items of the same size the earlier one stays); a strictly
    larger item takes the place of one item of the smallest size, and no
    item held afterwards is smaller than the one that went. *)
Theorem push_at_capacity (it : item) (h : minHeap) :
  0 < k h → k h <= Z.of_nat (length (data h)) → heap_ordered (data h) →
  ∃ root, data h !! 0%nat = Some root ∧
    (∀ y, y ∈ data h → Size root <= Size y) ∧
    (Size it <= Size root → push it h = Some h) ∧
    (Size root < Size it →
       ∃ h', push it h = Some h' ∧
         root :: data h' ≡ₚ it :: data h ∧
         length (data h') = length (data h) ∧
         ∀ y, y ∈ data h' → Size root <= Size y).
Proof.
  intros Hk Hlen Hh.
  destruct (push_full it h Hk Hlen Hh) as (root & h' & Hroot & Hp & _ & Hcase).
  assert (∀ y, y ∈ data h → Size root <= Size y) as Hmin
    by (by apply heap_ordered_root).
  exists root. split_and!; [done..| |].
  - intros Hle. rewrite Z.gtb_ltb, (proj2 (Z.ltb_ge _ _)) in Hcase by done.
    congruence.
  - intros Hlt. rewrite Z.gtb_ltb, (proj2 (Z.ltb_lt _ _)) in Hcase by done.
    exists h'. split_and!; [done..| |].
    + apply Permutation_length in Hcase. simpl in Hcase. lia.
    + intros y Hy.
      assert (y ∈ it :: data h) as Hy'
        by (rewrite <- Hcase; by apply list_elem_of_further).
      apply elem_of_cons in Hy' as [->|Hy']; [lia | by apply Hmin].
Qed.

(** An ordered heap of three items, for the examples. *)
Lemma heap_ordered_example :
  heap_ordered [Item "e" 20; Item "b" 50; Item "d" 100].
Proof.
  intros [|[|[|j]]] x y Hj Hx Hy; [lia| | |by destruct j];
    vm_compute in Hx, Hy; simplify_eq; simpl; lia.
Qed.

Lemma push_at_capacity_witness :
  push (Item "t" 20) {| data := [Item "e" 20; Item "b" 50; Item "d" 100]; k := 3 |}
  = Some {| data := [Item "e" 20; Item "b" 50; Item "d" 100]; k := 3 |}.
Proof.
  destruct (push_at_capacity (Item "t" 20)
              {| data := [Item "e" 20; Item "b" 50; Item "d" 100]; k := 3 |})
    as (root & Hroot & _ & Hdrop & _).
  - reflexivity.
  - vm_compute. discriminate.
  - apply heap_ordered_example.
  - apply Hdrop. vm_compute in Hroot. simplify_eq. simpl. lia.
Defined.

(** ** The order of the pushes *)

(** The sizes of the snapshot are the first [K] of the pushed sizes,
    largest first, for every capacity. *)
Lemma snapshot_sizes `{SliceSorter} K its h :
  pushes its (newHeap K) = Some h →
  Size <$> (sortedDesc h).2 = take (Z.to_nat K) (largest_first (Size <$> its)).
Proof.
  intros Hp. pose proof (sortedDesc_perm h) as Hperm.
  destruct (decide (K <= 0)) as [HK|HK].
  - rewrite pushes_discard in Hp by done. simplify_eq.
    apply Permutation_nil_r in Hperm. rewrite Hperm.
    replace (Z.to_nat K) with 0%nat by lia. done.
  - destruct (selector_inv_pushes K [] (newHeap K) its)
      as (h1 & Hp1 & _ & _ & Hlen & dropped & Hlarge);
      [lia | apply selector_inv_new; lia |].
    assert (h1 = h) as -> by congruence. simpl in Hlen, Hlarge.
    assert (largest_of its (sortedDesc h).2 dropped) as Hlarge'
      by (by eapply largest_of_perm).
    rewrite (largest_of_sizes _ _ _ Hlarge' (sortedDesc_sorted h)).
    destruct (decide (K <= Z.of_nat (length its))) as [Hle|Hgt].
    + rewrite take_app_length'; [done|]. rewrite length_fmap, Hperm. lia.
    + assert (dropped = []) as ->.
      { destruct Hlarge as [Hp' _]. apply Permutation_length in Hp'.
        rewrite length_app in Hp'. destruct dropped; [done|].
        simpl in Hp'. lia. }
      change (largest_first (Size <$> [])) with (@nil Z).
      rewrite app_nil_r, take_ge; [done|].
      rewrite length_fmap, Hperm. lia.
Qed.

Lemma largest_first_perm l1 l2 : l1 ≡ₚ l2 → largest_first l1 = largest_first l2.
Proof.
  intros Hp. unfold largest_first.
  apply (StronglySorted_unique descending);
    [apply StronglySorted_merge_sort; apply _..|].
  by rewrite !merge_sort_Permutation.
Qed.

(** X5.  The order of the pushes does not show in the sizes reported:
    two sequences with the same items as often, pushed into new selectors
    of the same capacity, give snapshots with the same sequence of sizes,
    even when [sort.Slice] orders equal sizes differently in the two. *)
Theorem snapshot_sizes_order_independent (S1 S2 : SliceSorter)
    (K : Z) (its1 its2 : list item) :
  its1 ≡ₚ its2 →
  ∃ h1 h2, pushes its1 (newHeap K) = Some h1 ∧ pushes its2 (newHeap K) = Some h2 ∧
    Size <$> (@sortedDesc S1 h1).2 = Size <$> (@sortedDesc S2 h2).2.
Proof.
  intros Hperm.
  destruct (pushes_total its1 (newHeap K)) as [h1 Hp1].
  destruct (pushes_total its2 (newHeap K)) as [h2 Hp2].
  exists h1, h2. split_and!; [done..|].
  rewrite (@snapshot_sizes S1 _ _ _ Hp1), (@snapshot_sizes S2 _ _ _ Hp2).
  f_equal. apply largest_first_perm. by rewrite Hperm.
Qed.

Lemma snapshot_sizes_order_independent_witness :
  ∃ h1 h2,
    pushes [Item "a" 10; Item "b" 50; Item "c" 5] (newHeap 2) = Some h1 ∧
    pushes [Item "c" 5; Item "a" 10; Item "b" 50] (newHeap 2) = Some h2 ∧
    Size <$> (sortedDesc h1).2 = Size <$> (sortedDesc h2).2.
Proof.
  apply (snapshot_sizes_order_independent insertion_sorter insertion_sorter 2
           [Item "a" 10; Item "b" 50; Item "c" 5]
           [Item "c" 5; Item "a" 10; Item "b" 50]).
  by rewrite (Permutation_app_comm [Item "c" 5] [Item "a" 10; Item "b" 50]).
Defined.

(** * More on the walker *)

(** X6.  [shouldSkipByGlob] answers true exactly when one of the patterns
    matches the path; with no pattern nothing is skipped, and a pattern
    that matches makes every longer list of patterns skip the path. *)
Theorem shouldSkipByGlob_spec `{FilePath} (path : string) (patterns : list string) :
  (shouldSkipByGlob path patterns = true ↔
   ∃ p, p ∈ patterns ∧ Match p path = true) ∧
  shouldSkipByGlob path [] = false ∧
  (∀ more, shouldSkipByGlob path patterns = true →
           shouldSkipByGlob path (more ++ patterns) = true).
Proof.
  assert (∀ ps, shouldSkipByGlob path ps = true ↔
                ∃ p, p ∈ ps ∧ Match p path = true) as Hspec.
  { induction ps as [|q ps IH]; simpl.
    - split; [done|]. intros (p & Hp & _). by apply elem_of_nil in Hp.
    - destruct (Match q path) eqn:Hq.
      + split; [|done]. intros _. exists q. split; [apply list_elem_of_here | done].
      + rewrite IH. split.
        * intros (p & Hp & Hm). exists p. split; [by apply list_elem_of_further | done].
        * intros (p & Hp & Hm). apply elem_of_cons in Hp as [->|Hp]; [congruence|].
          eauto. }
  split_and!; [apply Hspec | done |].
  intros more. rewrite !Hspec. intros (p & Hp & Hm).
  exists p. split; [|done]. apply elem_of_app. by right.
Qed.

(** ** What a walk does to the shared objects *)

Lemma pushes_app its1 its2 h :
  pushes (its1 ++ its2) h = pushes its1 h ≫= pushes its2.
Proof.
  revert h. induction its1 as [|it its1 IH]; intros h; simpl; [done|].
  destruct (push it h) as [h1|]; simpl; [apply IH | done].
Qed.

Lemma pushes_k its h h' : pushes its h = Some h' → k h' = k h.
Proof.
  revert h. induction its as [|it its IH]; intros h Hp; simpl in Hp.
  - by simplify_eq.
  - apply bind_Some in Hp as (h1 & Hp1 & Hp).
    rewrite (IH _ Hp). by eapply push_k.
Qed.

Lemma accounts_refl w : counters_ok (counters w) → accounts w w [] [].
Proof.
  intros Hok. split_and!; [done..|]. simpl. rewrite Z.add_0_r.
  symmetry. apply wrap64_small. by destruct Hok.
Qed.

Lemma accounts_trans w w1 w2 files1 dirs1 files2 dirs2 :
  accounts w w1 files1 dirs1 → accounts w1 w2 files2 dirs2 →
  accounts w w2 (files1 ++ files2) (dirs1 ++ dirs2).
Proof.
  intros (Hf1 & Hd1 & _ & Hc1) (Hf2 & Hd2 & Hok & Hc2).
  split_and!; [| |done|].
  - by rewrite pushes_app, Hf1.
  - by rewrite pushes_app, Hd1.
  - rewrite Hc2, Hc1, wrap64_add_l, length_app. f_equal. lia.
Qed.

Lemma accounts_counter w w' :
  counters_ok (counters w) →
  fileTop w' = fileTop w → dirTop w' = dirTop w →
  filesSeen (counters w') = filesSeen (counters w) →
  counters_ok (counters w') →
  accounts w w' [] [].
Proof.
  intros Hok Hf Hd Hc Hok'. split_and!; [by rewrite Hf | by rewrite Hd | done |].
  rewrite Hc. simpl. rewrite Z.add_0_r. symmetry. apply wrap64_small. by destruct Hok.
Qed.

Lemma counters_ok_inc c c' :
  counters_ok c →
  (filesSeen c' = filesSeen c ∨ filesSeen c' = add64 (filesSeen c) 1) →
  (dirsSeen c' = dirsSeen c ∨ dirsSeen c' = add64 (dirsSeen c) 1) →
  (skipped c' = skipped c ∨ skipped c' = add64 (skipped c) 1) →
  (errors c' = errors c ∨ errors c' = add64 (errors c) 1) →
  counters_ok c'.
Proof.
  intros (Hf & Hd & Hs & He) Hf' Hd' Hs' He'. unfold add64 in *.
  pose proof (wrap64_range (filesSeen c + 1)).
  pose proof (wrap64_range (dirsSeen c + 1)).
  pose proof (wrap64_range (skipped c + 1)).
  pose proof (wrap64_range (errors c + 1)).
  unfold counters_ok.
  destruct Hf' as [-> | ->], Hd' as [-> | ->], Hs' as [-> | ->], He' as [-> | ->];
    done.
Qed.

Lemma accounts_incSkipped w : counters_ok (counters w) → accounts w (incSkipped w) [] [].
Proof.
  intros Hok. apply accounts_counter; try done.
  eapply counters_ok_inc; [done|simpl; auto..].
Qed.

Lemma accounts_incErrors w : counters_ok (counters w) → accounts w (incErrors w) [] [].
Proof.
  intros Hok. apply accounts_counter; try done.
  eapply counters_ok_inc; [done|simpl; auto..].
Qed.

Lemma accounts_incDirsSeen w : counters_ok (counters w) → accounts w (incDirsSeen w) [] [].
Proof.
  intros Hok. apply accounts_counter; try done.
  eapply counters_ok_inc; [done|simpl; auto..].
Qed.

Lemma accounts_pushDir it w w' :
  counters_ok (counters w) → pushDir it w = Some w' → accounts w w' [] [it].
Proof.
  intros Hok Hp. unfold pushDir in Hp. apply bind_Some in Hp as (h & Hh & ?).
  simplify_eq. split_and!; simpl; [done | by rewrite Hh | done |].
  rewrite Z.add_0_r. symmetry. apply wrap64_small. by destruct Hok.
Qed.

Lemma accounts_file it w w' :
  counters_ok (counters w) → pushFile it (incFilesSeen w) = Some w' →
  accounts w w' [it] [].
Proof.
  intros Hok Hp. unfold pushFile in Hp. apply bind_Some in Hp as (h & Hh & ?).
  simplify_eq.
  split_and!; simpl in *; [by rewrite Hh | done | | done].
  eapply counters_ok_inc; [done|simpl; auto..].
Qed.

Lemma accounts_ok w w' files dirs : accounts w w' files dirs → counters_ok (counters w').
Proof. by intros (_ & _ & ? & _). Qed.

Section Accounting.
Context `{FilePath}.
Variable cfg : walkCfg.

Lemma afterChild_accounts p r w total :
  counters_ok (counters w) →
  ∃ w' total' dirs, afterChild p r w total = Some (w', total') ∧
                    accounts w w' [] dirs.
Proof.
  intros Hok. destruct r as [size [derr|]]; simpl.
  - destruct (negb (isIgnorable derr)).
    + do 3 eexists. split; [done|]. by apply accounts_incErrors.
    + do 3 eexists. split; [done|]. by apply accounts_refl.
  - destruct (pushDir_total (Item p size) w) as [w' Hw']. rewrite Hw'. simpl.
    do 3 eexists. split; [done|]. by eapply accounts_pushDir.
Qed.

Lemma visit_accounts path depth de w total :
  accounted cfg (Below de) → counters_ok (counters w) →
  ∃ w' total' files dirs,
    visit cfg (walkDir cfg) path depth de w total = Some (w', total') ∧
    accounts w w' files dirs.
Proof.
  intros Hbelow Hok. unfold visit.
  destruct (shouldSkipByGlob _ _).
  { do 4 eexists. split; [done|]. by apply accounts_incSkipped. }
  destruct (Info de) as [lerr|info].
  { do 4 eexists. split; [done|]. by apply accounts_incErrors. }
  destruct (isSymlink (Mode info) && negb (followLinks cfg)).
  { do 4 eexists. split; [done|]. by apply accounts_incSkipped. }
  destruct (skipHidden cfg && HasPrefix (Name de) ".").
  { do 4 eexists. split; [done|]. by apply accounts_incSkipped. }
  destruct (IsDir (Type_ de)).
  - destruct (Hbelow (Join path (Name de)) (add64 depth 1) w Hok)
      as (w1 & r & files & dirs & Hw1 & Hacc1).
    destruct (afterChild_accounts (Join path (Name de)) r w1 total
                (accounts_ok _ _ _ _ Hacc1)) as (w2 & total' & dirs2 & Hw2 & Hacc2).
    exists w2, total', (files ++ []), (dirs ++ dirs2).
    split; [|by eapply accounts_trans].
    destruct (Slot de); rewrite Hw1; cbn [mbind option_bind]; exact Hw2.
  - destruct (IsRegular (Mode info)).
    + destruct (pushFile_total (Item (Join path (Name de)) (FileSize info))
                  (incFilesSeen w)) as [w' Hw'].
      rewrite Hw'. simpl. do 4 eexists. split; [done|]. by eapply accounts_file.
    + do 4 eexists. split; [done|]. by apply accounts_refl.
Qed.

Lemma range_accounts path depth entries w total :
  Forall (λ de, accounted cfg (Below de)) entries → counters_ok (counters w) →
  ∃ w' total' files dirs,
    range (visit cfg (walkDir cfg) path depth) entries w total = Some (w', total') ∧
    accounts w w' files dirs.
Proof.
  intros Hall. revert w total.
  induction Hall as [|de rest Hde _ IH]; intros w total Hok.
  - do 4 eexists. split; [done|]. by apply accounts_refl.
  - destruct (visit_accounts path depth de w total Hde Hok)
      as (w1 & t1 & files1 & dirs1 & Hv & Hacc1).
    destruct (IH w1 t1 (accounts_ok _ _ _ _ Hacc1))
      as (w2 & t2 & files2 & dirs2 & Hr & Hacc2).
    exists w2, t2, (files1 ++ files2), (dirs1 ++ dirs2).
    split; [|by eapply accounts_trans].
    rewrite range_cons, Hv. cbn [mbind option_bind]. exact Hr.
Qed.

Lemma walkDir_accounted d : accounted cfg d.
Proof.
  induction d as [done err|done entries IH] using dir_below_ind;
    intros path depth w Hok; rewrite walkDir_eq.
  - destruct done.
    { do 4 eexists. split; [done|]. by apply accounts_refl. }
    destruct ((maxDepth cfg >? 0) && (depth >? maxDepth cfg)).
    + do 4 eexists. split; [done|]. by apply accounts_incSkipped.
    + do 4 eexists. split; [done|]. by apply accounts_incErrors.
  - destruct done.
    { do 4 eexists. split; [done|]. by apply accounts_refl. }
    destruct ((maxDepth cfg >? 0) && (depth >? maxDepth cfg)).
    { do 4 eexists. split; [done|]. by apply accounts_incSkipped. }
    pose proof (accounts_incDirsSeen w Hok) as Hacc0.
    destruct (range_accounts path depth entries (incDirsSeen w) 0 IH
                (accounts_ok _ _ _ _ Hacc0)) as (w' & t & files & dirs & Hr & Hacc).
    rewrite Hr. simpl. exists w', (t, None), ([] ++ files), ([] ++ dirs).
    split; [done|]. by eapply accounts_trans.
Qed.
End Accounting.

(** X7.  Whatever the tree, the configuration and the state of the
    selectors, a walk does not panic.  What it does to the selectors is a
    sequence of pushes, so their capacities stay and a selector that was
    ordered is ordered afterwards; and the files-seen counter moves by one
    for each push into the file selector, in [int64] arithmetic. *)
Theorem walkDir_keeps_selectors `{FilePath} (cfg : walkCfg) (d : dir)
    (path : string) (depth : Z) (w : shared) :
  counters_ok (counters w) →
  ∃ w' r files dirs,
    walkDir cfg d path depth w = Some (w', r) ∧
    pushes files (fileTop w) = Some (fileTop w') ∧
    pushes dirs (dirTop w) = Some (dirTop w') ∧
    filesSeen (counters w')
    = wrap64 (filesSeen (counters w) + Z.of_nat (length files)) ∧
    counters_ok (counters w') ∧
    k (fileTop w') = k (fileTop w) ∧ k (dirTop w') = k (dirTop w) ∧
    (heap_ordered (data (fileTop w)) → heap_ordered (data (fileTop w'))) ∧
    (heap_ordered (data (dirTop w)) → heap_ordered (data (dirTop w'))).
Proof.
  intros Hok.
  destruct (walkDir_accounted cfg d path depth w Hok)
    as (w' & r & files & dirs & Hw & Hf & Hd & Hok' & Hc).
  exists w', r, files, dirs. split_and!; try done.
  - by eapply pushes_k.
  - by eapply pushes_k.
  - intros Hh. by eapply pushes_heap_ordered.
  - intros Hh. by eapply pushes_heap_ordered.
Qed.

Lemma walkDir_keeps_selectors_witness :
  ∃ w' r, walkDir (defaultCfg 20 1) treeRootAB "root" 0 (newShared (defaultCfg 20 1))
          = Some (w', r) ∧
          k (fileTop w') = 20 ∧ k (dirTop w') = 20.
Proof.
  destruct (walkDir_keeps_selectors (defaultCfg 20 1) treeRootAB "root" 0
              (newShared (defaultCfg 20 1)))
    as (w' & r & files & dirs & Hw & _ & _ & _ & _ & Hkf & Hkd & _).
  - vm_compute. repeat split; discriminate.
  - exists w', r. split_and!; [exact Hw | exact Hkf | exact Hkd].
Defined.

(** ** Trees that can be read in full *)

Lemma fileSizes_Dir done entries :
  fileSizes (Dir done (inr entries)) = entries ≫= entryFileSizes.
Proof. reflexivity. Qed.

Lemma dirAggregates_Dir done entries :
  dirAggregates (Dir done (inr entries)) = entries ≫= entryDirAggregates.
Proof. reflexivity. Qed.

Lemma readable_Dir done entries :
  readable (Dir done (inr entries)) = negb done && forallb readableEntry entries.
Proof. reflexivity. Qed.

Lemma sumZ_app l1 l2 : sumZ (l1 ++ l2) = sumZ l1 + sumZ l2.
Proof. induction l1 as [|x l1 IH]; simpl; [done|]. rewrite IH. lia. Qed.

Lemma wrap64_add_r a b : wrap64 (a + wrap64 b) = wrap64 (a + b).
Proof. by rewrite (Z.add_comm a), wrap64_add_l, Z.add_comm. Qed.

Lemma bump_bump c nf1 nd1 nf2 nd2 :
  bump (bump c nf1 nd1) nf2 nd2 = bump c (nf1 + nf2) (nd1 + nd2).
Proof.
  unfold bump. simpl. rewrite !wrap64_add_l. f_equal; f_equal; lia.
Qed.

Lemma bump_zero c : counters_ok c → bump c 0 0 = c.
Proof.
  intros (Hf & Hd & _). destruct c as [f d s e]. unfold bump. simpl in *.
  rewrite !Z.add_0_r, !wrap64_small by done. done.
Qed.

Lemma bump_ok c nf nd : counters_ok c → counters_ok (bump c nf nd).
Proof.
  intros (_ & _ & Hs & He). unfold counters_ok, bump. simpl.
  pose proof (wrap64_range (filesSeen c + Z.of_nat nf)).
  pose proof (wrap64_range (dirsSeen c + Z.of_nat nd)). done.
Qed.

Lemma fileItems_Dir `{FilePath} path done entries :
  fileItems path (Dir done (inr entries)) = entries ≫= entryFileItems path.
Proof. reflexivity. Qed.

Lemma dirItems_Dir `{FilePath} path done entries :
  dirItems path (Dir done (inr entries)) = entries ≫= entryDirItems path.
Proof. reflexivity. Qed.

Lemma fileItems_sizes `{FilePath} d path : Size <$> fileItems path d = fileSizes d.
Proof.
  revert path. induction d as [dn err|dn entries IH] using dir_below_ind;
    intros path; [done|].
  rewrite fileItems_Dir, fileSizes_Dir.
  induction IH as [|de rest Hde _ IHrest]; [done|].
  rewrite !bind_cons, fmap_app, IHrest. f_equal.
  destruct de as [name type info slot below]. simpl in *.
  destruct (IsDir type); [apply Hde|].
  destruct info as [?|fi]; [done|]. by destruct (IsRegular (Mode fi)).
Qed.

Lemma dirItems_sizes `{FilePath} d path : Size <$> dirItems path d = dirAggregates d.
Proof.
  revert path. induction d as [dn err|dn entries IH] using dir_below_ind;
    intros path; [done|].
  rewrite dirItems_Dir, dirAggregates_Dir.
  induction IH as [|de rest Hde _ IHrest]; [done|].
  rewrite !bind_cons, fmap_app, IHrest. f_equal.
  destruct de as [name type info slot below]. simpl in *.
  destruct (IsDir type); [|done]. by rewrite fmap_app, Hde.
Qed.

Lemma reads_refl w : counters_ok (counters w) → reads w w [] [] 0.
Proof. intros Hok. split_and!; try done. by rewrite bump_zero. Qed.

Lemma reads_trans w w1 w2 f1 d1 n1 f2 d2 n2 :
  reads w w1 f1 d1 n1 → reads w1 w2 f2 d2 n2 →
  reads w w2 (f1 ++ f2) (d1 ++ d2) (n1 + n2).
Proof.
  intros (Hf1 & Hd1 & Hc1) (Hf2 & Hd2 & Hc2). split_and!.
  - by rewrite pushes_app, Hf1.
  - by rewrite pushes_app, Hd1.
  - by rewrite Hc2, Hc1, bump_bump, length_app.
Qed.

Lemma reads_ok w w' files dirs nd :
  counters_ok (counters w) → reads w w' files dirs nd → counters_ok (counters w').
Proof. intros Hok (_ & _ & ->). by apply bump_ok. Qed.

Lemma reads_incDirsSeen w : counters_ok (counters w) → reads w (incDirsSeen w) [] [] 1.
Proof.
  intros (Hf & _). split_and!; try done.
  unfold bump. simpl. by rewrite Z.add_0_r, wrap64_small.
Qed.

Lemma reads_file it w w' :
  counters_ok (counters w) → pushFile it (incFilesSeen w) = Some w' →
  reads w w' [it] [] 0.
Proof.
  intros (_ & Hd & _) Hp. unfold pushFile in Hp.
  apply bind_Some in Hp as (h & Hh & ?). simplify_eq. simpl in Hh.
  split_and!; simpl; try done.
  - by rewrite Hh.
  - unfold bump. simpl. by rewrite Z.add_0_r, (wrap64_small (dirsSeen _)).
Qed.

Lemma reads_pushDir it w w' :
  counters_ok (counters w) → pushDir it w = Some w' → reads w w' [] [it] 0.
Proof.
  intros Hok Hp. unfold pushDir in Hp.
  apply bind_Some in Hp as (h & Hh & ?). simplify_eq.
  split_and!; simpl; try done.
  - by rewrite Hh.
  - by rewrite bump_zero.
Qed.

Section Readable.
Context `{FilePath}.
Variable cfg : walkCfg.
Hypothesis Hcfg : unfiltered cfg.

Lemma unfiltered_depth depth :
  (maxDepth cfg >? 0) && (depth >? maxDepth cfg) = false.
Proof.
  destruct Hcfg as (Hd & _). rewrite Z.gtb_ltb, (proj2 (Z.ltb_ge _ _)) by lia. done.
Qed.

Lemma visit_readable path depth de w a :
  walked cfg (Below de) → readableEntry de = true → counters_ok (counters w) →
  ∃ w', visit cfg (walkDir cfg) path depth de w (wrap64 a)
        = Some (w', wrap64 (a + sumZ (entryFileSizes de))) ∧
        reads w w' (entryFileItems path de) (entryDirItems path de)
              (length (entryDirItems path de)).
Proof.
  intros Hbelow Hread Hok. destruct Hcfg as (_ & Hpat & Hhid).
  destruct de as [name type info slot below].
  unfold visit, readableEntry, entryFileSizes, entryFileItems, entryDirItems in *.
  simpl in *.
  rewrite Hpat, Hhid. simpl.
  destruct info as [lerr|fi]; [done|].
  apply andb_true_iff in Hread as [Hlink Hsub].
  apply negb_true_iff in Hlink. rewrite Hlink. simpl.
  destruct (IsDir type).
  - destruct (Hbelow Hsub (Join path name) (add64 depth 1) w Hok) as (w1 & Hw1 & Hr1).
    pose proof (reads_ok _ _ _ _ _ Hok Hr1) as Hok1.
    destruct (pushDir_total (Item (Join path name) (wrap64 (sumZ (fileSizes below)))) w1)
      as [w2 Hw2].
    exists w2. split.
    + destruct slot; rewrite Hw1; cbn [mbind option_bind]; unfold afterChild;
        rewrite Hw2; cbn [mbind option_bind]; unfold add64;
        by rewrite wrap64_add_l, wrap64_add_r.
    + pose proof (reads_trans _ _ _ _ _ _ _ _ _ Hr1 (reads_pushDir _ _ _ Hok1 Hw2)) as Hr.
      rewrite app_nil_r in Hr.
      rewrite length_app. simpl.
      by replace (length (dirItems (Join path name) below) + 1)%nat
        with (1 + length (dirItems (Join path name) below) + 0)%nat by lia.
  - destruct (IsRegular (Mode fi)).
    + destruct (pushFile_total (Item (Join path name) (FileSize fi)) (incFilesSeen w))
        as [w' Hw'].
      rewrite Hw'. cbn [mbind option_bind]. exists w'. split.
      * unfold add64. simpl. rewrite wrap64_add_l. do 3 f_equal. lia.
      * by apply (reads_file (Item (Join path name) (FileSize fi))).
    + exists w. split; [|by apply reads_refl].
      simpl. by rewrite Z.add_0_r.
Qed.

Lemma range_readable path depth entries w a :
  Forall (λ de, walked cfg (Below de)) entries →
  forallb readableEntry entries = true →
  counters_ok (counters w) →
  ∃ w', range (visit cfg (walkDir cfg) path depth) entries w (wrap64 a)
        = Some (w', wrap64 (a + sumZ (entries ≫= entryFileSizes))) ∧
        reads w w' (entries ≫= entryFileItems path) (entries ≫= entryDirItems path)
              (length (entries ≫= entryDirItems path)).
Proof.
  intros Hall. revert w a.
  induction Hall as [|de rest Hde _ IH]; intros w a Hread Hok.
  - exists w. split; [simpl; by rewrite Z.add_0_r | by apply reads_refl].
  - simpl in Hread. apply andb_true_iff in Hread as [Hde' Hrest].
    destruct (visit_readable path depth de w a Hde Hde' Hok) as (w1 & Hv & Hr1).
    destruct (IH w1 (a + sumZ (entryFileSizes de)) Hrest (reads_ok _ _ _ _ _ Hok Hr1))
      as (w2 & Hr & Hr2).
    exists w2. split.
    + rewrite range_cons, Hv. cbn [mbind option_bind]. rewrite Hr.
      do 3 f_equal. rewrite bind_cons, sumZ_app. lia.
    + rewrite !bind_cons, length_app. by eapply reads_trans.
Qed.

Lemma walkDir_walked d : walked cfg d.
Proof.
  induction d as [dn err|dn entries IH] using dir_below_ind; [by intros ?|].
  intros Hread path depth w Hok.
  rewrite readable_Dir in Hread. apply andb_true_iff in Hread as [Hdn Hread].
  apply negb_true_iff in Hdn. subst dn.
  rewrite walkDir_eq, unfiltered_depth.
  destruct (range_readable path depth entries (incDirsSeen w) 0 IH Hread)
    as (w' & Hr & Hrd).
  { eapply reads_ok; [done | by apply reads_incDirsSeen]. }
  change 0 with (wrap64 0) at 1. rewrite Hr. cbn [mbind option_bind].
  exists w'. split; [by rewrite fileSizes_Dir|].
  rewrite fileItems_Dir, dirItems_Dir.
  by apply (reads_trans _ _ _ [] [] 1 _ _ _ (reads_incDirsSeen w Hok)).
Qed.
End Readable.

(** X8.  On a tree in which nothing is cancelled, every listing and
    every [Info] succeeds and no entry is a symbolic link, walked without
    filters and with no subdirectory handed to a goroutine, the call
    returns no error and the sum of the sizes of all regular files below
    the directory, at any depth, as an [int64] (the exact sum when it
    fits).  It pushes into the file selector exactly these files, each once
    with its full path and its size, in the order of the listings, and
    counts each; it pushes into the directory selector exactly the
    directories below the top, each once with its full path and its own
    aggregate, a directory after those below it, and counts each and the
    top; it counts nothing as skipped or as an error. *)
Theorem walkDir_readable_tree `{FilePath} (cfg : walkCfg) (d : dir)
    (path : string) (depth : Z) (w : shared) :
  unfiltered cfg → readable d = true → undispatched d = true →
  counters_ok (counters w) →
  ∃ w',
    walkDir cfg d path depth w = Some (w', (wrap64 (sumZ (fileSizes d)), None)) ∧
    (min_int64 <= sumZ (fileSizes d) <= max_int64 →
     wrap64 (sumZ (fileSizes d)) = sumZ (fileSizes d)) ∧
    pushes (fileItems path d) (fileTop w) = Some (fileTop w') ∧
    pushes (dirItems path d) (dirTop w) = Some (dirTop w') ∧
    Size <$> fileItems path d = fileSizes d ∧
    Size <$> dirItems path d = dirAggregates d ∧
    counters w' = bump (counters w) (length (fileItems path d))
                       (1 + length (dirItems path d)).
Proof.
  intros Hcfg Hread _ Hok.
  destruct (walkDir_walked cfg Hcfg d Hread path depth w Hok)
    as (w' & Hw & Hf & Hd & Hc).
  exists w'. split_and!; try done.
  - apply wrap64_small.
  - apply fileItems_sizes.
  - apply dirItems_sizes.
Qed.

Lemma walkDir_readable_tree_witness :
  ∃ w', walkDir (defaultCfg 20 0) treeRootAB "root" 0 (newShared (defaultCfg 20 0))
        = Some (w', (100, None)) ∧
        pushes [Item "root/a/b/file" 100] (newHeap 20) = Some (fileTop w') ∧
        pushes [Item "root/a/b" 100; Item "root/a" 100] (newHeap 20) = Some (dirTop w') ∧
        counters w' = {| filesSeen := 1; dirsSeen := 3; skipped := 0; errors := 0 |}.
Proof.
  destruct (walkDir_readable_tree (defaultCfg 20 0) treeRootAB "root" 0
              (newShared (defaultCfg 20 0)))
    as (w' & Hw & _ & Hf & Hd & _ & _ & Hc).
  - split_and!; [by vm_compute | done..].
  - reflexivity.
  - reflexivity.
  - vm_compute. repeat split; discriminate.
  - exists w'. split_and!; [exact Hw | exact Hf | exact Hd | exact Hc].
Defined.

(** ** The scan *)

Lemma makeSem_ok workers : 0 <= workers → makeSem workers = Some (Z.to_nat workers).
Proof. intros Hw. unfold makeSem. by rewrite (proj2 (Z.ltb_ge _ _)). Qed.

Lemma scanRoots_accounts `{FilePath} cfg roots w :
  counters_ok (counters w) →
  ∃ w' files dirs, scanRoots cfg roots w = Some w' ∧ accounts w w' files dirs.
Proof.
  revert w. induction roots as [|[r d] roots IH]; intros w Hok; simpl.
  - exists w, [], []. split; [done | by apply accounts_refl].
  - destruct (walkDir_accounted cfg d r 0 w Hok) as (w1 & res & f1 & d1 & Hw1 & Ha1).
    destruct (IH w1 (accounts_ok _ _ _ _ Ha1)) as (w2 & f2 & d2 & Hw2 & Ha2).
    exists w2, (f1 ++ f2), (d1 ++ d2). split; [|by eapply accounts_trans].
    rewrite Hw1. cbn [mbind option_bind]. exact Hw2.
Qed.

Lemma scanRoots_readable `{FilePath} cfg roots w :
  unfiltered cfg →
  Forall (λ rd, readable rd.2 = true) roots →
  counters_ok (counters w) →
  ∃ w', scanRoots cfg roots w = Some w' ∧
        reads w w' (roots ≫= λ rd, fileItems rd.1 rd.2)
              (roots ≫= λ rd, dirItems rd.1 rd.2)
              (length roots + length (roots ≫= λ rd, dirItems rd.1 rd.2)).
Proof.
  intros Hcfg Hall. revert w.
  induction Hall as [|[r d] roots Hd _ IH]; intros w Hok.
  - exists w. split; [done | by apply reads_refl].
  - simpl in Hd.
    destruct (walkDir_walked cfg Hcfg d Hd r 0 w Hok) as (w1 & Hw1 & Hr1).
    destruct (IH w1 (reads_ok _ _ _ _ _ Hok Hr1)) as (w2 & Hw2 & Hr2).
    exists w2. split.
    + cbn [scanRoots]. rewrite Hw1. cbn [mbind option_bind]. exact Hw2.
    + rewrite !bind_cons, length_app. cbn [fst snd length].
      pose proof (reads_trans _ _ _ _ _ _ _ _ _ Hr1 Hr2) as Hr.
      by replace (S (length roots) + (length (dirItems r d) +
                    length (roots ≫= λ rd, dirItems rd.1 rd.2)))%nat
        with (1 + length (dirItems r d) +
              (length roots + length (roots ≫= λ rd, dirItems rd.1 rd.2)))%nat by lia.
Qed.

Lemma roots_file_sizes `{FilePath} (roots : list (string * dir)) :
  Size <$> (roots ≫= λ rd, fileItems rd.1 rd.2) = roots ≫= λ rd, fileSizes rd.2.
Proof.
  induction roots as [|[r d] roots IH]; [done|].
  by rewrite !bind_cons, fmap_app, IH, fileItems_sizes.
Qed.

Lemma roots_dir_sizes `{FilePath} (roots : list (string * dir)) :
  Size <$> (roots ≫= λ rd, dirItems rd.1 rd.2) = roots ≫= λ rd, dirAggregates rd.2.
Proof.
  induction roots as [|[r d] roots IH]; [done|].
  by rewrite !bind_cons, fmap_app, IH, dirItems_sizes.
Qed.

Lemma pushes_new_length K its h :
  0 <= K → pushes its (newHeap K) = Some h →
  Z.of_nat (length (data h)) = Z.min K (Z.of_nat (length its)).
Proof.
  intros HK Hp. destruct (decide (K = 0)) as [->|Hne].
  - rewrite pushes_discard in Hp by done. simplify_eq. simpl. lia.
  - destruct (selector_inv_pushes K [] (newHeap K) its)
      as (h1 & Hp1 & _ & _ & Hlen & _); [lia | apply selector_inv_new; lia |].
    by assert (h1 = h) as <- by congruence.
Qed.

Lemma newShared_ok cfg : counters_ok (counters (newShared cfg)).
Proof. vm_compute. repeat split; discriminate. Qed.

(** X9.  With a number of workers that is not negative, a scan does not
    panic, whatever the roots hold and whatever fails or is cancelled in
    them.  With a capacity [K >= 0], the file table it prints has
    [min K n] rows, where [n] is the number of files pushed, and the
    files-seen counter of the summary is [n] as an [int64]; the directory
    table has at most [K] rows; and both tables are in descending order of
    size. *)
Theorem scan_tables `{FilePath} `{SliceSorter} (cfg : walkCfg)
    (roots : list (string * dir)) :
  0 <= workers cfg →
  0 <= topK cfg →
  ∃ rep (n : nat), scan cfg roots = Some rep ∧
    filesSeen (summary rep) = wrap64 (Z.of_nat n) ∧
    Z.of_nat (length (largestFiles rep)) = Z.min (topK cfg) (Z.of_nat n) ∧
    Z.of_nat (length (largestDirs rep)) <= topK cfg ∧
    StronglySorted descending (Size <$> largestFiles rep) ∧
    StronglySorted descending (Size <$> largestDirs rep).
Proof.
  intros Hworkers HK. unfold scan. rewrite makeSem_ok by done.
  cbn [mbind option_bind].
  destruct (scanRoots_accounts cfg roots (newShared cfg) (newShared_ok cfg))
    as (w & files & dirs & -> & Hf & Hd & _ & Hc).
  cbn [mbind option_bind]. eexists _, (length files). split; [done|].
  cbn [largestFiles largestDirs summary]. simpl in Hf, Hd.
  split_and!.
  - by rewrite Hc.
  - rewrite sortedDesc_perm. by apply pushes_new_length.
  - rewrite sortedDesc_perm, (pushes_new_length _ _ _ HK Hd). lia.
  - apply sortedDesc_sorted.
  - apply sortedDesc_sorted.
Qed.

Lemma scan_tables_witness :
  ∃ rep, scan (defaultCfg 1 0) [("root"%string, treeRootAB); ("gone"%string, notADirectory)]
         = Some rep ∧
         length (largestFiles rep) = 1%nat ∧ length (largestDirs rep) = 1%nat.
Proof.
  destruct (scan_tables (defaultCfg 1 0)
              [("root"%string, treeRootAB); ("gone"%string, notADirectory)])
    as (rep & n & Hs & _); [by vm_compute | by vm_compute |].
  exists rep. split; [exact Hs|].
  vm_compute in Hs. simplify_eq. split; reflexivity.
Defined.

(** X10.  When the number of workers is not negative, every root is a
    tree that can be read in full and no filter is configured, the scan
    prints, as the sizes of the file table, the first [K] of the sizes of
    all regular files below all roots, largest first, and the summary
    counts every file, and every directory with the roots, and nothing as
    skipped or as an error.  When moreover no subdirectory is handed to a
    goroutine, the sizes of the directory table are the first [K] of the
    aggregates of all directories below the roots, largest first: a root
    is never a row of the directory table. *)
Theorem scan_reports_largest `{FilePath} `{SliceSorter} (cfg : walkCfg)
    (roots : list (string * dir)) :
  0 <= workers cfg →
  unfiltered cfg →
  Forall (λ rd, readable rd.2 = true) roots →
  let files := roots ≫= λ rd, fileSizes rd.2 in
  let dirs := roots ≫= λ rd, dirAggregates rd.2 in
  ∃ rep, scan cfg roots = Some rep ∧
    Size <$> largestFiles rep = take (Z.to_nat (topK cfg)) (largest_first files) ∧
    (Forall (λ rd, undispatched rd.2 = true) roots →
     Size <$> largestDirs rep = take (Z.to_nat (topK cfg)) (largest_first dirs)) ∧
    summary rep = {| filesSeen := wrap64 (Z.of_nat (length files));
                     dirsSeen := wrap64 (Z.of_nat (length roots + length dirs));
                     skipped := 0; errors := 0 |}.
Proof.
  intros Hworkers Hcfg Hall files dirs. unfold scan. rewrite makeSem_ok by done.
  cbn [mbind option_bind].
  destruct (scanRoots_readable cfg roots (newShared cfg) Hcfg Hall (newShared_ok cfg))
    as (w & -> & Hf & Hd & Hc).
  cbn [mbind option_bind]. eexists. split; [done|].
  cbn [largestFiles largestDirs summary]. simpl in Hf, Hd. split_and!.
  - rewrite (snapshot_sizes _ _ _ Hf). by rewrite roots_file_sizes.
  - intros _. rewrite (snapshot_sizes _ _ _ Hd). by rewrite roots_dir_sizes.
  - rewrite Hc. unfold files, dirs.
    by rewrite <- roots_file_sizes, <- roots_dir_sizes, !length_fmap.
Qed.

Lemma scan_reports_largest_witness :
  ∃ rep, scan (defaultCfg 1 0) [("root"%string, treeRootAB)] = Some rep ∧
         Size <$> largestFiles rep = [100] ∧ Size <$> largestDirs rep = [100].
Proof.
  destruct (scan_reports_largest (defaultCfg 1 0) [("root"%string, treeRootAB)])
    as (rep & Hs & Hf & Hd & _).
  - by vm_compute.
  - split_and!; [by vm_compute | done..].
  - by repeat constructor.
  - exists rep. split; [exact Hs|]. split; [exact Hf|].
    apply Hd. by repeat constructor.
Defined.

(** * More on [main] and its helpers *)

(** ** Suffixes *)

Lemma list_ascii_app s t :
  String.list_ascii_of_string (s +:+ t)
  = String.list_ascii_of_string s ++ String.list_ascii_of_string t.
Proof. induction s as [|c s IH]; simpl; [done|]. by rewrite IH. Qed.

Lemma HasSuffix_app s t : HasSuffix (s +:+ t) t = true.
Proof.
  unfold HasSuffix. apply bool_decide_eq_true. rewrite list_ascii_app.
  by apply suffix_app_r.
Qed.

Lemma append_nonempty s t : t ≠ ""%string → (s +:+ t)%string ≠ ""%string.
Proof. intros Ht. destruct s; simpl; [done | discriminate]. Qed.

(** ** Drives *)

Lemma statRoots_elem `{Host} cs r :
  r ∈ statRoots cs ↔ ∃ c, c ∈ cs ∧ r = driveRoot c ∧ StatOk r = true.
Proof.
  induction cs as [|c cs IH]; simpl.
  - split; [by intros ?%elem_of_nil|]. intros (c & Hc & _). by apply elem_of_nil in Hc.
  - destruct (StatOk (driveRoot c)) eqn:Hstat.
    + rewrite elem_of_cons, IH. split.
      * intros [->|(c' & Hc' & Hr & Hs)].
        -- exists c. split_and!; [apply list_elem_of_here | done..].
        -- exists c'. split_and!; [by apply list_elem_of_further | done..].
      * intros (c' & Hc' & Hr & Hs). apply elem_of_cons in Hc' as [->|Hc'].
        -- by left.
        -- right. eauto.
    + rewrite IH. split.
      * intros (c' & Hc' & Hr & Hs).
        exists c'. split_and!; [by apply list_elem_of_further | done..].
      * intros (c' & Hc' & Hr & Hs). apply elem_of_cons in Hc' as [->|Hc'].
        -- congruence.
        -- eauto.
Qed.

Lemma statRoots_sublist `{Host} cs : statRoots cs `sublist_of` (driveRoot <$> cs).
Proof.
  induction cs as [|c cs IH]; [done|]. rewrite fmap_cons. cbn [statRoots].
  destruct (StatOk (driveRoot c)); by constructor.
Qed.

Lemma statRoots_suffix `{Host} cs :
  Forall (λ r, HasSuffix r "\" = true) (statRoots cs).
Proof.
  induction cs as [|c cs IH]; cbn [statRoots]; [by constructor|].
  destruct (StatOk (driveRoot c)); [|done].
  constructor; [|done]. unfold driveRoot. apply HasSuffix_app.
Qed.

Lemma driveRoot_inj c1 c2 : driveRoot c1 = driveRoot c2 → c1 = c2.
Proof. intros Heq. injection Heq. auto. Qed.

Lemma driveLetters_NoDup : NoDup driveLetters.
Proof.
  apply (NoDup_fmap_2_strong _).
  - intros x y Hx Hy Heq. apply elem_of_seq in Hx, Hy.
    apply (f_equal Ascii.nat_of_ascii) in Heq.
    rewrite !Ascii.nat_ascii_embedding in Heq by lia. lia.
  - apply NoDup_seq.
Qed.

(** X11.  [detectWindowsDrives] returns exactly the roots [A:\] to [Z:\]
    for which [os.Stat] gives no error, in the order of the alphabet and
    each once, so at most 26; every one ends in a backslash. *)
Theorem detectWindowsDrives_spec `{Host} :
  (∀ r, r ∈ detectWindowsDrives ↔
        ∃ c, c ∈ driveLetters ∧ r = driveRoot c ∧ StatOk r = true) ∧
  detectWindowsDrives `sublist_of` (driveRoot <$> driveLetters) ∧
  NoDup detectWindowsDrives ∧
  (length detectWindowsDrives <= 26)%nat ∧
  Forall (λ r, HasSuffix r "\" = true) detectWindowsDrives.
Proof.
  pose proof (statRoots_sublist driveLetters) as Hsub.
  split_and!.
  - intros r. apply statRoots_elem.
  - exact Hsub.
  - eapply sublist_NoDup; [|exact Hsub].
    apply NoDup_fmap_2_strong; [|apply driveLetters_NoDup].
    intros c1 c2 _ _. apply driveRoot_inj.
  - apply sublist_length in Hsub. rewrite length_fmap in Hsub.
    unfold driveLetters in Hsub. rewrite length_fmap, length_seq in Hsub.
    exact Hsub.
  - apply statRoots_suffix.
Qed.

(** ** Roots *)

Lemma statRoots_nil `{Host} cs :
  statRoots cs = [] ↔ ∀ c, c ∈ cs → StatOk (driveRoot c) = false.
Proof.
  induction cs as [|c cs IH]; cbn [statRoots].
  - split; [|done]. by intros _ c ?%elem_of_nil.
  - destruct (StatOk (driveRoot c)) eqn:Hstat.
    + split; [done|]. intros Hall.
      rewrite (Hall c) in Hstat by apply list_elem_of_here. done.
    + rewrite IH. split.
      * intros Hall c' [->|Hc']%elem_of_cons; [done | by apply Hall].
      * intros Hall c' Hc'. by apply Hall, list_elem_of_further.
Qed.

(** X12.  The part of [main] that settles the roots (lines 205-224) ends
    the program in one case only, and then with [os.Exit(2)]: [-roots] is
    empty and [os.Stat] fails for every root from [A:\] to [Z:\].  With an
    empty [-roots] and a drive, the roots are the drives detected, at least
    one.  (Other parts of the program end it on their own: [flag.Parse] on
    a flag it cannot read, [make] on a negative number of workers.) *)
Theorem exit_only_without_drives `{StringsPkg} `{Host} (rootsFlag : string) :
  (∀ code, chooseRoots rootsFlag = inr code ↔
           code = 2 ∧ rootsFlag = ""%string ∧
           ∀ c, c ∈ driveLetters → StatOk (driveRoot c) = false) ∧
  (∀ roots, chooseRoots "" = inl roots ↔
            roots = detectWindowsDrives ∧ roots ≠ []).
Proof.
  unfold chooseRoots, detectWindowsDrives. generalize driveLetters. intros cs.
  pose proof (statRoots_nil cs) as Hnil.
  split.
  - intros code.
    destruct (String.eqb_spec rootsFlag "") as [->|Hne]; cbn [negb].
    + destruct (statRoots cs) as [|r roots] eqn:Hd; cbn [length Nat.eqb].
      * split; [intros [= <-]; split_and!; [done..|by apply Hnil] | by intros (-> & _)].
      * split; [done|]. intros (_ & _ & Hall). by apply Hnil in Hall.
    + split; [done | by intros (_ & ? & _)].
  - intros roots. cbn [String.eqb negb].
    destruct (statRoots cs) as [|r rs] eqn:Hd; cbn [length Nat.eqb].
    + split; [done | by intros [-> ?]].
    + split; [by intros [= <-] | by intros [-> _]].
Qed.

Lemma collectRoots_shape `{StringsPkg} parts :
  Forall (λ r, r ≠ ""%string ∧ (HasSuffix r "\" = true ∨ HasSuffix r "/" = true))
         (collectRoots parts).
Proof.
  induction parts as [|p parts IH]; cbn [collectRoots]; [by constructor|].
  destruct (String.eqb_spec (TrimSpace p) "") as [He|Hne]; [done|].
  constructor; [|done].
  destruct (HasSuffix (TrimSpace p) "\") eqn:Hb; cbn [negb andb].
  - split; [done | by left].
  - destruct (HasSuffix (TrimSpace p) "/") eqn:Hs; cbn [negb andb].
    + split; [done | by right].
    + split; [by apply append_nonempty | left; apply HasSuffix_app].
Qed.

Lemma collectRoots_length `{StringsPkg} parts :
  length (collectRoots parts)
  = length (filter (λ p, TrimSpace p ≠ ""%string) parts).
Proof.
  induction parts as [|p parts IH]; cbn [collectRoots]; [done|].
  destruct (String.eqb_spec (TrimSpace p) "") as [He|Hne].
  - by rewrite filter_cons_False by (by intros ?).
  - rewrite filter_cons_True by done. cbn [length]. by rewrite IH.
Qed.

Lemma collectRoots_map `{StringsPkg} parts :
  collectRoots parts
  = (λ t, if negb (HasSuffix t "\") && negb (HasSuffix t "/")
          then (t +:+ "\")%string else t)
    <$> filter (λ t, t ≠ ""%string) (TrimSpace <$> parts).
Proof.
  induction parts as [|p parts IH]; cbn [collectRoots]; [done|].
  rewrite fmap_cons.
  destruct (String.eqb_spec (TrimSpace p) "") as [He|Hne].
  - by rewrite filter_cons_False by (by intros ?).
  - rewrite filter_cons_True by done. rewrite fmap_cons. by rewrite IH.
Qed.

(** X13.  With a [-roots] that is not empty the program never looks for
    drives and never exits for want of roots, even when the flag names
    none.  The roots it scans are, in the order of the flag, the parts of
    the flag between commas, trimmed, without those that are blank, each
    as it is when it ends in a backslash or a slash and followed by a
    backslash when not: so no root is empty, every root ends in a
    separator, and there are as many roots as parts that are not blank. *)
Theorem roots_from_flag `{StringsPkg} `{Host} (rootsFlag : string) :
  rootsFlag ≠ ""%string →
  ∃ roots,
    chooseRoots rootsFlag = inl roots ∧
    roots
    = (λ t, if negb (HasSuffix t "\") && negb (HasSuffix t "/")
            then (t +:+ "\")%string else t)
      <$> filter (λ t, t ≠ ""%string) (TrimSpace <$> Split rootsFlag ",") ∧
    Forall (λ r, r ≠ ""%string ∧ (HasSuffix r "\" = true ∨ HasSuffix r "/" = true))
           roots ∧
    length roots
    = length (filter (λ p, TrimSpace p ≠ ""%string) (Split rootsFlag ",")).
Proof.
  intros Hne. exists (collectRoots (Split rootsFlag ",")). split_and!.
  - unfold chooseRoots. by destruct (String.eqb_spec rootsFlag "").
  - apply collectRoots_map.
  - apply collectRoots_shape.
  - apply collectRoots_length.
Qed.

Lemma roots_from_flag_witness :
  ∃ roots, @chooseRoots plain_strings no_drives "C:\, D:/ ,,E:" = inl roots ∧
           roots = ["C:\"; "D:/"; "E:\"]%string ∧
           Forall (λ r, r ≠ ""%string) roots.
Proof.
  destruct (@roots_from_flag plain_strings no_drives "C:\, D:/ ,,E:")
    as (roots & Hroots & _ & Hshape & _).
  - discriminate.
  - exists roots. split_and!; [exact Hroots | |].
    + vm_compute in Hroots. by injection Hroots.
    + eapply Forall_impl; [exact Hshape|]. by intros r [Hr _].
Defined.

(** ** Patterns *)

Lemma collectPatterns_elem `{StringsPkg} parts p :
  p ∈ collectPatterns parts ↔
  p ≠ ""%string ∧ ∃ part, part ∈ parts ∧ p = TrimSpace part.
Proof.
  induction parts as [|q parts IH]; cbn [collectPatterns].
  - split; [by intros ?%elem_of_nil|]. intros (_ & part & Hp & _).
    by apply elem_of_nil in Hp.
  - destruct (String.eqb_spec (TrimSpace q) "") as [He|Hne]; cbn [negb].
    + rewrite IH. split.
      * intros (Hp & part & Hin & Hpart).
        split; [done|]. exists part. split; [by apply list_elem_of_further | done].
      * intros (Hp & part & [->|Hin]%elem_of_cons & Hpart); [congruence|].
        split; [done|]. by exists part.
    + rewrite elem_of_cons, IH. split.
      * intros [->|(Hp & part & Hin & Hpart)].
        -- split; [done|]. exists q. split; [apply list_elem_of_here | done].
        -- split; [done|]. exists part. split; [by apply list_elem_of_further | done].
      * intros (Hp & part & [->|Hin]%elem_of_cons & Hpart); [by left|].
        right. split; [done|]. by exists part.
Qed.

Lemma collectPatterns_sublist `{StringsPkg} parts :
  collectPatterns parts `sublist_of` (TrimSpace <$> parts).
Proof.
  induction parts as [|q parts IH]; [done|]. rewrite fmap_cons.
  cbn [collectPatterns]. destruct (negb _); by constructor.
Qed.

(** X14.  The patterns of [-skip] are the parts of the flag between
    commas, trimmed, without those that are blank, in the order of the
    flag: no pattern is the empty string.  With an empty [-skip] there is
    no pattern, and no path is skipped for a pattern. *)
Theorem parseSkip_spec `{StringsPkg} (skipGlobs : string) :
  (∀ p, p ∈ parseSkip skipGlobs ↔
        skipGlobs ≠ ""%string ∧ p ≠ ""%string ∧
        ∃ part, part ∈ Split skipGlobs "," ∧ p = TrimSpace part) ∧
  parseSkip skipGlobs `sublist_of` (TrimSpace <$> Split skipGlobs ",") ∧
  (∀ (paths : FilePath) path, shouldSkipByGlob path (parseSkip "") = false).
Proof.
  unfold parseSkip. split_and!.
  - intros p. destruct (String.eqb_spec skipGlobs "") as [->|Hne]; cbn [negb].
    + split; [by intros ?%elem_of_nil | by intros [? _]].
    + rewrite collectPatterns_elem. split; [by intros [? ?] | by intros (_ & ? & ?)].
  - destruct (negb _); [apply collectPatterns_sublist | apply sublist_nil_l].
  - done.
Qed.

(** ** Volume roots and drive totals *)

Lemma volumeRoot_cases `{Host} (p : string) :
  volumeRoot p
  = (if String.eqb (VolumeName p) "" then ""
     else if HasSuffix (VolumeName p) "\" then VolumeName p
          else VolumeName p +:+ "\")%string.
Proof.
  unfold volumeRoot. destruct (String.eqb _ _); [done|].
  by destruct (HasPrefix _ _).
Qed.

Lemma volumeRoot_suffix `{Host} (p : string) :
  volumeRoot p ≠ ""%string → HasSuffix (volumeRoot p) "\" = true.
Proof.
  rewrite volumeRoot_cases. destruct (String.eqb_spec (VolumeName p) ""); [done|].
  intros _. destruct (HasSuffix (VolumeName p) "\") eqn:Hs; [done|].
  apply HasSuffix_app.
Qed.

(** X15.  [volumeRoot] gives the empty string exactly for a path without
    a volume name.  For any other path it gives the volume name itself
    when that ends in a backslash and the volume name followed by a
    backslash when not, so the result always ends in a backslash; whether
    the volume is a UNC share makes no difference. *)
Theorem volumeRoot_spec `{Host} (p : string) :
  (volumeRoot p = ""%string ↔ VolumeName p = ""%string) ∧
  (volumeRoot p = ""%string ∨ HasSuffix (volumeRoot p) "\" = true) ∧
  volumeRoot p
  = (if String.eqb (VolumeName p) "" then ""
     else if HasSuffix (VolumeName p) "\" then VolumeName p
          else VolumeName p +:+ "\")%string.
Proof.
  split_and!.
  - rewrite volumeRoot_cases.
    destruct (String.eqb_spec (VolumeName p) "") as [He|Hne]; [done|].
    destruct (HasSuffix (VolumeName p) "\"); [done|].
    split; [|done]. intros Happ. by apply append_nonempty in Happ.
  - destruct (decide (volumeRoot p = ""%string)) as [He|Hne]; [by left|].
    right. by apply volumeRoot_suffix.
  - apply volumeRoot_cases.
Qed.



(** X17.  A call of [totalFor] never changes or removes an entry of the
    cache.  It adds at most one: under the volume root of the path, which
    ends in a backslash, on Windows, the total that the system has just
    reported, which is also what the call returns.  A query that fails
    leaves the cache as it was. *)
Theorem totalFor_cache_grows `{Host} (path : string) (c c' : driveSpaceCache) (t : Z) :
  totalFor path c = Some (t, c') →
  byRoot c ⊆ byRoot c' ∧
  (∀ r v, byRoot c' !! r = Some v → byRoot c !! r = None →
          GOOS = "windows"%string ∧ r = volumeRoot path ∧ v = t ∧
          GetDiskFreeSpaceEx r = DiskTotal t ∧ HasSuffix r "\" = true) ∧
  (GetDiskFreeSpaceEx (volumeRoot path) = DiskError → c' = c).
Proof.
  unfold totalFor. intros Hcall.
  destruct (String.eqb_spec GOOS "windows") as [Hos|Hos]; cbn [negb] in Hcall;
    [|simplify_eq; split_and!; [done | congruence | done]].
  destruct (String.eqb_spec (volumeRoot path) "") as [Hroot|Hroot];
    [simplify_eq; split_and!; [done | congruence | done]|].
  destruct (byRoot c !! volumeRoot path) as [v0|] eqn:Hv;
    [simplify_eq; split_and!; [done | congruence | done]|].
  destruct (GetDiskFreeSpaceEx (volumeRoot path)) as [| |total] eqn:Hapi;
    [done | simplify_eq; split_and!; [done | congruence | done] |].
  simplify_eq. cbn [byRoot]. split_and!.
  - by apply insert_subseteq.
  - intros r v Hr Hnone.
    destruct (decide (r = volumeRoot path)) as [->|Hne].
    + rewrite lookup_insert_eq in Hr. simplify_eq.
      split_and!; [done..|]. by apply volumeRoot_suffix.
    + rewrite lookup_insert_ne in Hr by done. congruence.
  - done.
Qed.

Lemma totalFor_cache_grows_witness :
  ∃ c', @totalFor (drive_C (DiskTotal 1000)) "C:\Users" newDriveSpaceCache
        = Some (1000, c') ∧
        byRoot c' !! "C:\"%string = Some 1000 ∧
        byRoot newDriveSpaceCache ⊆ byRoot c'.
Proof.
  exists {| byRoot := <["C:\"%string := 1000]> ∅ |}.
  split; [reflexivity|]. split; [reflexivity|].
  apply (@totalFor_cache_grows (drive_C (DiskTotal 1000)) "C:\Users"
           newDriveSpaceCache _ 1000).
  reflexivity.
Defined.

(** ** Sizes for people *)

Lemma unit_values :
  KB = 1024 ∧ MB = 1024 * KB ∧ GB = 1024 * MB ∧ TB = 1024 * GB ∧ PB = 1024 * TB.
Proof. by vm_compute. Qed.

Lemma append_inj_r (s t1 t2 : string) : (s +:+ t1 = s +:+ t2)%string → t1 = t2.
Proof. induction s as [|c s IH]; simpl; [done|]. intros [= Heq]. by apply IH. Qed.

(** X18.  [humanBytes] and [humanBytesFixed] print the same text for
    every size except those from 1 KiB up to, not including, 1 MiB: there
    [humanBytes] prints the number of kibibytes with the unit [MB], so the
    two always differ. *)
Theorem humanBytes_differs_in_KB `{Fmt} (n : Z) :
  humanBytes n = humanBytesFixed n ↔ ¬ (KB <= n < MB).
Proof.
  destruct unit_values as (Hk & Hm & Hg & Ht & Hp).
  unfold humanBytes, humanBytesFixed. rewrite !Z.geb_leb.
  destruct (Z.leb_spec PB n); [split; [lia | done]|].
  destruct (Z.leb_spec TB n); [split; [lia | done]|].
  destruct (Z.leb_spec GB n); [split; [lia | done]|].
  destruct (Z.leb_spec MB n); [split; [lia | done]|].
  destruct (Z.leb_spec KB n); [|split; [lia | done]].
  split; [|lia]. intros Heq. by apply append_inj_r in Heq.
Qed.

(** X19.  [humanBytesFixed] prints a size below 1 KiB, a negative one
    included, as a whole number of bytes.  From 1 KiB on it prints the
    size divided by the largest of the units KB, MB, GB, TB and PB that
    does not exceed it, so the number printed is at least 1, and below
    1024 unless the unit is PB. *)
Theorem humanBytesFixed_unit `{Fmt} (n : Z) :
  (n < KB → humanBytesFixed n = (Sprintf_d n +:+ " B")%string) ∧
  (KB <= n →
   ∃ d u, (d, u) ∈ [(KB, "KB"); (MB, "MB"); (GB, "GB"); (TB, "TB"); (PB, "PB")]%string ∧
          humanBytesFixed n = (Sprintf_2f n d +:+ " " +:+ u)%string ∧
          d <= n ∧ (n < 1024 * d ∨ d = PB)).
Proof.
  destruct unit_values as (Hk & Hm & Hg & Ht & Hp).
  unfold humanBytesFixed. rewrite !Z.geb_leb.
  destruct (Z.leb_spec PB n).
  { split; [lia|]. intros _. exists PB, "PB"%string.
    split_and!; [set_solver | done | done | by right]. }
  destruct (Z.leb_spec TB n).
  { split; [lia|]. intros _. exists TB, "TB"%string.
    split_and!; [set_solver | done | done | left; lia]. }
  destruct (Z.leb_spec GB n).
  { split; [lia|]. intros _. exists GB, "GB"%string.
    split_and!; [set_solver | done | done | left; lia]. }
  destruct (Z.leb_spec MB n).
  { split; [lia|]. intros _. exists MB, "MB"%string.
    split_and!; [set_solver | done | done | left; lia]. }
  destruct (Z.leb_spec KB n).
  { split; [lia|]. intros _. exists KB, "KB"%string.
    split_and!; [set_solver | done | done | left; lia]. }
  split; [done | lia].
Qed.

(** * More on the admission pool *)

(** ** Every step uses up work *)

Lemma directories_Sub children :
  directories (Sub children) = S (directoriesOf children).
Proof. reflexivity. Qed.

Lemma taskCost_pos t : (1 <= taskCost t)%nat.
Proof. unfold taskCost. destruct (spawned t && negb (released t)); lia. Qed.

Lemma weight_length ts : (length ts <= weight taskCost ts)%nat.
Proof.
  induction ts as [|t ts IH]; [done|]. cbn [length weight].
  pose proof (taskCost_pos t). lia.
Qed.

Lemma step_cost cap i p p' :
  step cap i p = Some p' →
  (S (weight taskCost (tasks p')) <= weight taskCost (tasks p))%nat.
Proof.
  unfold step. intros Hstep.
  apply bind_Some in Hstep as (t & Ht & Hstep).
  pose proof (λ t', weight_insert taskCost _ _ _ t' Ht) as Hw.
  destruct t as [sp rel [go|] fr]; cbn [starting frames spawned released] in Hstep.
  - simplify_eq. cbn [tasks]. rewrite weight_app.
    specialize (Hw (Task sp rel None fr)).
    unfold taskCost in *. cbn [weight childTask starting frames spawned released foldr negb andb] in *.
    lia.
  - destruct fr as [|[|[children] rest] outer].
    + destruct (sp && negb rel) eqn:Hs.
      * destruct (semLen p) as [|n] eqn:Hn; [done|]. simplify_eq. cbn [tasks].
        specialize (Hw (Task true true None [])).
        unfold taskCost in *.
        cbn [starting frames spawned released foldr negb andb] in *.
        rewrite Hs in Hw. lia.
      * simplify_eq. cbn [tasks].
        rewrite (weight_delete taskCost _ _ _ Ht).
        pose proof (taskCost_pos (Task sp rel None [])). lia.
    + simplify_eq. cbn [tasks]. specialize (Hw (Task sp rel None outer)).
      unfold taskCost in *. cbn [starting frames spawned released foldr] in *. lia.
    + pose proof (directories_Sub children) as Hd.
      destruct (semLen p <? cap)%nat; simplify_eq; cbn [tasks].
      * specialize (Hw (Task sp rel (Some children) (rest :: outer))).
        unfold taskCost in *.
        cbn [starting frames spawned released foldr directoriesOf] in *. lia.
      * specialize (Hw (Task sp rel None (children :: rest :: outer))).
        unfold taskCost in *.
        cbn [starting frames spawned released foldr directoriesOf] in *. lia.
Qed.

Lemma run_cost cap schedule p p' :
  run cap schedule p = Some p' →
  (length schedule + weight taskCost (tasks p') <= weight taskCost (tasks p))%nat.
Proof.
  revert p. induction schedule as [|i schedule IH]; intros p Hrun; cbn [run] in Hrun.
  - simplify_eq. done.
  - apply bind_Some in Hrun as (p1 & Hstep & Hrun).
    apply step_cost in Hstep. apply IH in Hrun. cbn [length]. lia.
Qed.

Lemma startScan_cost roots :
  (weight taskCost (tasks (startScan roots)) <= 5 * directoriesOf roots)%nat.
Proof.
  cbn [startScan tasks].
  induction roots as [|[children] roots IH]; [done|].
  rewrite fmap_cons. cbn [weight directoriesOf]. rewrite directories_Sub.
  unfold taskCost at 1.
  cbn [rootTask starting frames spawned released foldr negb andb]. lia.
Qed.

(** X20.  A scan comes to an end under every schedule: the sends and
    receives on [sem], the [go] statements, the returns of [walkDir] and
    the ends of goroutines that a scan can execute are at most five for
    each directory below and including the roots, less one for each
    goroutine still alive.  When the last goroutine has ended, the buffer of
    [sem] is empty: every slot taken was given back. *)
Theorem scan_steps_bounded (cap : nat) (roots : list subtree)
    (schedule : list nat) (p : pool) :
  run cap schedule (startScan roots) = Some p →
  (length schedule + length (tasks p) <= 5 * directoriesOf roots)%nat ∧
  (tasks p = [] → semLen p = 0%nat).
Proof.
  intros Hrun. split.
  - pose proof (run_cost _ _ _ _ Hrun). pose proof (startScan_cost roots).
    pose proof (weight_length (tasks p)). lia.
  - intros Hend.
    assert (pool_inv cap p) as [Hinv _]
      by (eapply run_inv; [apply pool_inv_start | done]).
    rewrite Hend in Hinv. by rewrite <- Hinv.
Qed.

Lemma scan_steps_bounded_witness :
  ∃ p, run 2 [0; 0; 0; 0; 0]%nat (startScan [Sub [Sub []; Sub []; Sub []]]) = Some p ∧
       (5 + length (tasks p) <= 5 * 4)%nat.
Proof.
  eexists. split; [reflexivity|].
  apply (scan_steps_bounded 2 [Sub [Sub []; Sub []; Sub []]] [0; 0; 0; 0; 0]%nat).
  reflexivity.
Defined.

(** ** A channel without buffer *)

Lemma length_delete_le {A} (l : list A) i : (length (delete i l) <= length l)%nat.
Proof.
  revert i. induction l as [|x l IH]; intros [|i]; simpl; try lia.
  specialize (IH i). lia.
Qed.

Lemma step_unbuffered i p p' :
  semLen p = 0%nat →
  Forall (λ t, spawned t = false ∧ starting t = None) (tasks p) →
  step 0 i p = Some p' →
  semLen p' = 0%nat ∧ (length (tasks p') <= length (tasks p))%nat ∧
  Forall (λ t, spawned t = false ∧ starting t = None) (tasks p').
Proof.
  intros Hsem Hall Hstep. unfold step in Hstep.
  apply bind_Some in Hstep as (t & Ht & Hstep).
  destruct (proj1 (Forall_lookup _ _) Hall i t Ht) as [Hsp Hst].
  rewrite Hst, Hsp in Hstep. cbn [andb] in Hstep.
  assert ((semLen p <? 0)%nat = false) as Hlt by (apply Nat.ltb_ge; lia).
  rewrite Hlt in Hstep.
  destruct (frames t) as [|[|[children] rest] outer]; simplify_eq; cbn [semLen tasks].
  - split_and!; [done | apply length_delete_le | by apply Forall_delete].
  - split_and!; [done | by rewrite length_insert | by apply Forall_insert].
  - split_and!; [done | by rewrite length_insert | by apply Forall_insert].
Qed.

(** X21.  With [-workers 0] the channel [sem] has no buffer, and a scan
    never starts a goroutine from [walkDir]: under every schedule the only
    goroutines are those that [main] started for the roots, the send on
    [sem] never proceeds, and every directory is walked in the goroutine
    of its root. *)
Theorem no_workers_no_goroutines (cap : nat) (roots : list subtree)
    (schedule : list nat) (p : pool) :
  makeSem 0 = Some cap →
  run cap schedule (startScan roots) = Some p →
  semLen p = 0%nat ∧ (length (tasks p) <= length roots)%nat ∧
  Forall (λ t, spawned t = false ∧ starting t = None) (tasks p).
Proof.
  intros [= <-]. cbn [Z.to_nat].
  assert (∀ p0, semLen p0 = 0%nat →
                Forall (λ t, spawned t = false ∧ starting t = None) (tasks p0) →
                run 0 schedule p0 = Some p →
                semLen p = 0%nat ∧ (length (tasks p) <= length (tasks p0))%nat ∧
                Forall (λ t, spawned t = false ∧ starting t = None) (tasks p)) as Hrun.
  { induction schedule as [|i schedule IH]; intros p0 Hsem Hall Hrun; cbn [run] in Hrun.
    - by simplify_eq.
    - apply bind_Some in Hrun as (p1 & Hstep & Hrun).
      destruct (step_unbuffered i p0 p1 Hsem Hall Hstep) as (Hsem1 & Hlen1 & Hall1).
      destruct (IH p1 Hsem1 Hall1 Hrun) as (? & ? & ?).
      split_and!; [done | lia | done]. }
  intros Hscan. apply Hrun in Hscan.
  - cbn [startScan tasks] in Hscan. by rewrite length_fmap in Hscan.
  - done.
  - cbn [startScan tasks]. apply Forall_fmap, Forall_forall. by intros [children] _.
Qed.

Lemma no_workers_no_goroutines_witness :
  ∃ p, run 0 [0; 0; 0; 0; 0]%nat (startScan [Sub [Sub []; Sub []]]) = Some p ∧
       semLen p = 0%nat ∧ (length (tasks p) <= 1)%nat.
Proof.
  eexists. split; [reflexivity|].
  destruct (no_workers_no_goroutines 0 [Sub [Sub []; Sub []]] [0; 0; 0; 0; 0]%nat
              _ eq_refl eq_refl) as (Hsem & Hlen & _).
  split; [exact Hsem | exact Hlen].
Defined.

(** * More on the tables *)

Lemma totalFor_cases `{Host} (path : string) (dsc : driveSpaceCache) :
  (∀ r, GetDiskFreeSpaceEx r ≠ DiskPanic) →
  ∃ t dsc',
    totalFor path dsc = Some (t, dsc') ∧
    byRoot dsc ⊆ byRoot dsc' ∧
    (t = 0 ∨ GOOS = "windows"%string ∧ byRoot dsc' !! volumeRoot path = Some t) ∧
    (GOOS ≠ "windows"%string → t = 0 ∧ dsc' = dsc).
Proof.
  intros Hapi. unfold totalFor.
  destruct (String.eqb_spec GOOS "windows") as [Hos|Hos]; cbn [negb];
    [|exists 0, dsc; split_and!; [done | done | by left | done]].
  destruct (String.eqb (volumeRoot path) "");
    [exists 0, dsc; split_and!; [done | done | by left | done]|].
  destruct (byRoot dsc !! volumeRoot path) as [v|] eqn:Hv;
    [exists v, dsc; split_and!; [done | done | by right | done]|].
  destruct (GetDiskFreeSpaceEx (volumeRoot path)) as [| |total] eqn:Ha.
  - by apply Hapi in Ha.
  - exists 0, dsc. split_and!; [done | done | by left | done].
  - eexists total, _. split_and!; [done | | right | done]; cbn [byRoot].
    + by apply insert_subseteq.
    + split; [done|]. by rewrite lookup_insert_eq.
Qed.

Lemma row_of_later `{Fmt} `{Host} final final' i j it r :
  byRoot final ⊆ byRoot final' → row_of final i j it r → row_of final' i j it r.
Proof.
  intros Hsub (Hrank & Hpath & Hsize & Hpct). split_and!; [done..|].
  destruct Hpct as [Hna|(t & Hos & Ht & Hpos & Hpct)]; [by left|].
  right. exists t. split_and!; [done | | done | done].
  by eapply lookup_weaken.
Qed.

Lemma printRow_spec `{Fmt} `{Host} (i : Z) (it : item) (dsc : driveSpaceCache) :
  (∀ r, GetDiskFreeSpaceEx r ≠ DiskPanic) →
  ∃ r dsc',
    printRow i it dsc = Some (r, dsc') ∧
    byRoot dsc ⊆ byRoot dsc' ∧
    row_of dsc' i 0 it r ∧
    (GOOS ≠ "windows"%string → dsc' = dsc ∧ drivePct r = "n/a"%string).
Proof.
  intros Hapi. unfold printRow.
  destruct (totalFor_cases (Path it) dsc Hapi) as (t & dsc' & -> & Hsub & Ht & Hoff).
  cbn [mbind option_bind]. eexists _, dsc'. split_and!; [done | done | |].
  - unfold row_of. cbn [rank rowPath sizeText drivePct].
    split_and!; [lia | done | done |].
    destruct (Z.gtb_spec t 0) as [Hpos|Hneg]; [|by left].
    right. exists t. destruct Ht as [->|[Hos Ht]]; [lia|].
    split_and!; [done | done | lia | done].
  - intros Hos. destruct (Hoff Hos) as [-> ->]. done.
Qed.

Lemma printRows_spec `{Fmt} `{Host} (its : list item) :
  (∀ r, GetDiskFreeSpaceEx r ≠ DiskPanic) →
  ∀ i dsc, ∃ rows dsc',
    printRows i its dsc = Some (rows, dsc') ∧
    byRoot dsc ⊆ byRoot dsc' ∧
    length rows = length its ∧
    (∀ j it, its !! j = Some it → ∃ r, rows !! j = Some r ∧ row_of dsc' i j it r) ∧
    (GOOS ≠ "windows"%string →
     dsc' = dsc ∧ Forall (λ r, drivePct r = "n/a"%string) rows).
Proof.
  intros Hapi. induction its as [|it its IH]; intros i dsc; cbn [printRows].
  - exists [], dsc. split_and!; [done | done | done | | done].
    intros j it Hj. by rewrite lookup_nil in Hj.
  - destruct (printRow_spec i it dsc Hapi) as (r & dsc1 & -> & Hsub1 & Hrow & Hoff1).
    cbn [mbind option_bind].
    destruct (IH (i + 1) dsc1) as (rows & dsc2 & -> & Hsub2 & Hlen & Hrows & Hoff2).
    cbn [mbind option_bind].
    exists (r :: rows), dsc2. split_and!.
    + done.
    + by etrans.
    + cbn [length]. by rewrite Hlen.
    + intros [|j] it' Hj; cbn [lookup list_lookup] in *.
      * simplify_eq. exists r. split; [done|]. by eapply row_of_later.
      * destruct (Hrows j it' Hj) as (r' & Hr' & Hrow').
        exists r'. split; [done|].
        destruct Hrow' as (Hrank & Hrest). split; [lia | done].
    + intros Hos. destruct (Hoff1 Hos) as [-> Hna], (Hoff2 Hos) as [-> Hnas].
      split; [done|]. by constructor.
Qed.

(** X22.  When no query for a drive panics, both tables are printed,
    with one row for each item of the snapshot and in its order: rank
    [j + 1] for the item at index [j], its path, and its size as
    [humanBytesFixed] prints it.  The share of the drive is either [n/a]
    or the percentage of the one total that the cache holds for the
    volume of the path at the end, so all rows of a volume, in both
    tables, are measured against the same total.  Off Windows every share
    is [n/a]. *)
Theorem tables_rows `{Fmt} `{Host} (rep : report) :
  (∀ r, GetDiskFreeSpaceEx r ≠ DiskPanic) →
  ∃ dirRows fileRows dsc,
    printTables rep = Some (dirRows, fileRows, dsc) ∧
    length dirRows = length (largestDirs rep) ∧
    length fileRows = length (largestFiles rep) ∧
    (∀ j it, largestDirs rep !! j = Some it →
             ∃ r, dirRows !! j = Some r ∧ row_of dsc 0 j it r) ∧
    (∀ j it, largestFiles rep !! j = Some it →
             ∃ r, fileRows !! j = Some r ∧ row_of dsc 0 j it r) ∧
    (GOOS ≠ "windows"%string →
     Forall (λ r, drivePct r = "n/a"%string) (dirRows ++ fileRows)).
Proof.
  intros Hapi. unfold printTables.
  destruct (printRows_spec (largestDirs rep) Hapi 0 newDriveSpaceCache)
    as (dirRows & dsc1 & -> & _ & Hlen1 & Hrows1 & Hoff1).
  cbn [mbind option_bind].
  destruct (printRows_spec (largestFiles rep) Hapi 0 dsc1)
    as (fileRows & dsc2 & -> & Hsub & Hlen2 & Hrows2 & Hoff2).
  cbn [mbind option_bind].
  exists dirRows, fileRows, dsc2. split_and!; [done..| | done |].
  - intros j it Hj. destruct (Hrows1 j it Hj) as (r & Hr & Hrow).
    exists r. split; [done|]. by eapply row_of_later.
  - intros Hos. apply Forall_app. split; [by apply Hoff1 | by apply Hoff2].
Qed.

Lemma tables_rows_witness :
  ∃ dirRows fileRows dsc,
    @printTables cut_fmt (drive_C (DiskTotal 1000))
      {| largestDirs := [Item "C:\a" 500];
         largestFiles := [Item "C:\a\f" 250; Item "D:\g" 10];
         summary := Stats 2 2 0 0 |}
    = Some (dirRows, fileRows, dsc) ∧
    drivePct <$> dirRows = ["50.00%"]%string ∧
    drivePct <$> fileRows = ["25.00%"; "n/a"]%string ∧
    length fileRows = 2%nat.
Proof.
  destruct (@tables_rows cut_fmt (drive_C (DiskTotal 1000))
              {| largestDirs := [Item "C:\a" 500];
                 largestFiles := [Item "C:\a\f" 250; Item "D:\g" 10];
                 summary := Stats 2 2 0 0 |})
    as (dirRows & fileRows & dsc & Hp & _ & Hlen & _).
  - intros r. cbn [GetDiskFreeSpaceEx drive_C]. by destruct (String.eqb r "C:\").
  - exists dirRows, fileRows, dsc. split; [exact Hp|].
    vm_compute in Hp. injection Hp as <- <- _.
    split_and!; [reflexivity | reflexivity | exact Hlen].
Defined.

(** * The total under every schedule *)

(** ** A child in a goroutine and a file in the caller *)

(** C3.  The aggregate that a call returns is not always the sum of what
    its entries contribute.  The listing holds a subdirectory [a] with one
    file of 100 bytes and, after it, a file [f] of 5 bytes; a slot of
    [sem] is free, so [a] is walked in a goroutine.  The contributions
    sum to 105, and 105 is what the call returns when the goroutine has
    stored its sum before the caller loads [total] for [f].  When the
    caller has loaded [total] before the goroutine stores and stores after
    it, the call returns 5; when the goroutine has loaded [total] before
    the caller stores and stores after it, the call returns 100. *)
Theorem total_race_loses_an_addition :
  let cfg := defaultCfg 20 0 in
  sumZ (fileSizes treeChildThenFile) = 105 ∧
  foldr Z.add 0 (contribution cfg "r" 0 <$> childThenFile) = 105 ∧
  accesses cfg "r" 0 childThenFile [Go 100; Own 5] ∧
  totalUnder [Caller; Waiting 0; Holder; Caller; Caller] [Go 100; Own 5] = Some 105 ∧
  totalUnder [Caller; Caller; Waiting 0; Holder; Caller] [Go 100; Own 5] = Some 5 ∧
  totalUnder [Caller; Waiting 0; Caller; Caller; Holder] [Go 100; Own 5] = Some 100 ∧
  returns cfg treeChildThenFile "r" 0 (105, None) ∧
  returns cfg treeChildThenFile "r" 0 (5, None) ∧
  returns cfg treeChildThenFile "r" 0 (100, None).
Proof.
  intros cfg.
  assert (accesses cfg "r" 0 childThenFile [Go 100; Own 5]) as Hacc.
  { unfold childThenFile.
    change [Go 100; Own 5]
      with ((if Slot (subDirectory "a" true (Dir false (inr [regularFile "x" 100])))
             then Go 100 else Own 100) :: [Own 5]).
    apply accesses_child; [reflexivity | |].
    - apply (returns_total cfg _ _ _ [Own 100] [Caller; Caller]);
        [reflexivity | | reflexivity].
      apply (accesses_file cfg _ _ _ _ [] 100); [reflexivity|]. constructor.
    - apply (accesses_file cfg "r" 0 _ _ [] 5); [reflexivity|]. constructor. }
  split_and!; [reflexivity | reflexivity | exact Hacc | reflexivity..| | |].
  - by apply (returns_total cfg _ _ _ [Go 100; Own 5]
                [Caller; Waiting 0; Holder; Caller; Caller]).
  - by apply (returns_total cfg _ _ _ [Go 100; Own 5]
                [Caller; Caller; Waiting 0; Holder; Caller]).
  - by apply (returns_total cfg _ _ _ [Go 100; Own 5]
                [Caller; Waiting 0; Caller; Caller; Holder]).
Qed.

(** ** A call that starts no goroutine *)

Lemma foldl_add64_0 cs : foldl add64 0 cs = wrap64 (foldr Z.add 0 cs).
Proof. exact (foldl_add64 cs 0). Qed.

Lemma runTotal_own xs : ∀ order s s',
  started s = [] → locked s = None → program s = Own <$> xs →
  (loaded s = None ∨ loaded s = Some (cell s)) →
  runTotal order s = Some s' → ∀ t, joined s' = Some t →
  t = foldl add64 (cell s) xs.
Proof.
  intros order. revert xs.
  induction order as [|th order IH]; intros xs s s' Hst Hlk Hprog Hld Hrun t Hj.
  - cbn [runTotal] in Hrun. simplify_eq. unfold joined in Hj.
    rewrite Hprog in Hj. destruct xs as [|x xs]; simpl in Hj; [|done].
    destruct (loaded s'), (started s'), (locked s'); by simplify_eq.
  - cbn [runTotal] in Hrun. apply bind_Some in Hrun as (s1 & Hstep & Hrun).
    destruct th as [|j|]; unfold stepTotal in Hstep.
    + rewrite Hprog in Hstep. destruct xs as [|x xs].
      { by destruct (loaded s). }
      rewrite fmap_cons in Hstep.
      destruct Hld as [Hld|Hld]; rewrite Hld in Hstep; simplify_eq.
      * refine (IH (x :: xs) _ s' _ _ _ _ Hrun t Hj);
          [exact Hst | exact Hlk | reflexivity | by right].
      * cbn [foldl].
        refine (IH xs _ s' _ _ _ _ Hrun t Hj);
          [exact Hst | exact Hlk | reflexivity | by left].
    + rewrite Hlk, Hst in Hstep. by rewrite lookup_nil in Hstep.
    + by rewrite Hlk in Hstep.
Qed.

Lemma totalUnder_own order xs t :
  totalUnder order (Own <$> xs) = Some t → t = foldl add64 0 xs.
Proof.
  unfold totalUnder. intros Hrun. apply bind_Some in Hrun as (s' & Hrun & Hj).
  by eapply (runTotal_own xs order (startTotal (Own <$> xs)) s');
    [done | done | done | left | done | done].
Qed.

Lemma totalUnder_own_ex xs :
  ∃ order, totalUnder order (Own <$> xs) = Some (foldl add64 0 xs).
Proof.
  exists (xs ≫= λ _, [Caller; Caller]). unfold totalUnder, startTotal.
  generalize 0 as c. induction xs as [|x xs IH]; intros c; [done|].
  rewrite bind_cons, fmap_cons. cbn [app runTotal stepTotal loaded program cell
    started locked mbind option_bind]. apply IH.
Qed.

Section Serial.
Context `{FilePath}.
Variable cfg : walkCfg.

Lemma roleOf_Child path de : roleOf cfg path de = Child → IsDir (Type_ de) = true.
Proof.
  unfold roleOf. destruct (shouldSkipByGlob _ _); [done|].
  destruct (Info de) as [?|info]; [done|].
  destruct (isSymlink (Mode info) && negb (followLinks cfg)); [done|].
  destruct (skipHidden cfg && HasPrefix (Name de) "."); [done|].
  destruct (IsDir (Type_ de)); [done|]. by destruct (IsRegular (Mode info)).
Qed.

Lemma contribution_ownOf path depth de :
  contribution cfg path depth de = foldr Z.add 0 (ownOf cfg path depth de).
Proof.
  unfold contribution, ownOf, roleOf, skippedByConfig.
  destruct (shouldSkipByGlob _ _); [done|]. cbn [orb].
  destruct (Info de) as [?|info].
  { by destruct (skipHidden cfg && HasPrefix (Name de) "."). }
  destruct (isSymlink (Mode info) && negb (followLinks cfg)).
  { by rewrite orb_true_r. }
  rewrite orb_false_r.
  destruct (skipHidden cfg && HasPrefix (Name de) "."); [done|].
  destruct (IsDir (Type_ de)).
  - destruct (walkResult cfg _ _ _) as [[size [derr|]]|]; simpl; lia.
  - destruct (IsRegular (Mode info)); simpl; lia.
Qed.

Lemma contributions_ownOf path depth entries :
  foldr Z.add 0 (contribution cfg path depth <$> entries)
  = foldr Z.add 0 (entries ≫= ownOf cfg path depth).
Proof.
  induction entries as [|de entries IH]; [done|].
  rewrite fmap_cons, bind_cons. cbn [foldr]. rewrite IH, contribution_ownOf.
  symmetry. apply (sumZ_app (ownOf cfg path depth de)).
Qed.

Lemma walkResult_total d path depth : is_Some (walkResult cfg d path depth).
Proof.
  unfold walkResult.
  destruct (walkDir_total cfg d path depth (newShared cfg)) as [[w r] ->]. by eexists.
Qed.

Lemma accesses_serial path depth entries :
  Forall (λ de, IsDir (Type_ de) = true →
                Slot de = false ∧ serial cfg (Below de)) entries →
  ∀ program, accesses cfg path depth entries program ↔
             program = Own <$> (entries ≫= ownOf cfg path depth).
Proof.
  intros Hall program. split.
  - intros Hacc. induction Hacc as [path depth
      | path depth de rest program Hrole Hacc IH
      | path depth de rest program fs Hrole Hacc IH
      | path depth de rest program size Hrole Hret Hacc IH
      | path depth de rest program size derr Hrole Hret Hacc IH]; [done|..];
      apply Forall_cons in Hall as [Hde Hall]; specialize (IH Hall);
      rewrite bind_cons, fmap_app, <- IH; unfold ownOf; rewrite Hrole.
    + done.
    + done.
    + destruct (Hde (roleOf_Child _ _ Hrole)) as [-> Hser].
      apply Hser in Hret. by rewrite Hret.
    + destruct (Hde (roleOf_Child _ _ Hrole)) as [_ Hser].
      apply Hser in Hret. by rewrite Hret.
  - intros ->. induction Hall as [|de rest Hde _ IH]; [constructor|].
    rewrite bind_cons, fmap_app. unfold ownOf at 1.
    destruct (roleOf cfg path de) as [|fs|] eqn:Hrole.
    + by apply accesses_passed.
    + by apply accesses_file.
    + destruct (Hde (roleOf_Child _ _ Hrole)) as [Hslot Hser].
      destruct (walkResult_total (Below de) (Join path (Name de)) (add64 depth 1))
        as [[size [derr|]] Hres]; rewrite Hres; apply Hser in Hres.
      * by eapply accesses_child_failed.
      * cbn [fmap list_fmap app].
        replace (Own size) with (if Slot de then Go size else Own size)
          by (by rewrite Hslot).
        by apply accesses_child.
Qed.

Lemma walkResult_listed entries path depth :
  walkResult cfg (Dir false (inr entries)) path depth
  = Some (if (maxDepth cfg >? 0) && (depth >? maxDepth cfg) then 0
          else wrap64 (foldr Z.add 0 (contribution cfg path depth <$> entries)),
          None).
Proof.
  unfold walkResult.
  destruct (walkDir_listed cfg entries path depth (newShared cfg)) as [w' ->]. done.
Qed.

Lemma undispatched_serial d : undispatched d = true → serial cfg d.
Proof.
  induction d as [dn err|dn entries IH] using dir_below_ind;
    intros Hun path depth r.
  - unfold walkResult. rewrite walkDir_eq. destruct dn.
    { split; [by inversion 1 | intros [= <-]; constructor]. }
    destruct ((maxDepth cfg >? 0) && (depth >? maxDepth cfg)) eqn:Hdepth.
    + split; [inversion 1; [done | congruence] | intros [= <-]; by constructor].
    + split; [inversion 1; [congruence | done] | intros [= <-]; by constructor].
  - destruct dn.
    { unfold walkResult. rewrite walkDir_eq.
      split; [by inversion 1 | intros [= <-]; constructor]. }
    rewrite walkResult_listed.
    assert (Forall (λ de, IsDir (Type_ de) = true →
                          Slot de = false ∧ serial cfg (Below de)) entries) as Hall.
    { cbn [undispatched] in Hun. rewrite forallb_forall in Hun.
      apply Forall_forall. intros de Hde Hdir.
      pose proof (proj1 (Forall_forall _ _) IH de Hde) as Hbelow.
      apply list_elem_of_In, Hun in Hde.
      destruct de as [name type info slot below]. cbn in *.
      rewrite Hdir in Hde. apply andb_true_iff in Hde as [Hslot Hunb].
      split; [by apply negb_true_iff | by apply Hbelow]. }
    pose proof (accesses_serial path depth entries Hall) as Hacc.
    destruct ((maxDepth cfg >? 0) && (depth >? maxDepth cfg)) eqn:Hdepth.
    + split; [inversion 1; [done | congruence] | intros [= <-]; by constructor].
    + split.
      * inversion 1 as [| |?|? ? ? program order t Hd Hprog Htot]; [congruence|].
        simplify_eq. apply Hacc in Hprog as ->. apply totalUnder_own in Htot as ->.
        by rewrite foldl_add64_0, contributions_ownOf.
      * intros [= <-].
        destruct (totalUnder_own_ex (entries ≫= ownOf cfg path depth)) as [order Horder].
        eapply (returns_total cfg _ _ _ _ order); [done | by apply Hacc |].
        by rewrite Horder, foldl_add64_0, contributions_ownOf.
Qed.
End Serial.

Lemma undispatched_entries dn entries :
  undispatched (Dir dn (inr entries)) = true →
  Forall (λ de, IsDir (Type_ de) = true →
                Slot de = false ∧ undispatched (Below de) = true) entries.
Proof.
  cbn [undispatched]. rewrite forallb_forall. intros Hun.
  apply Forall_forall. intros de Hde%list_elem_of_In%Hun Hdir.
  destruct de as [name type info slot below]. cbn in *.
  rewrite Hdir in Hde. apply andb_true_iff in Hde as [Hslot Hunb].
  split; [by apply negb_true_iff | done].
Qed.

(** X23.  A call that is not cancelled, whose listing succeeds and below
    which no subdirectory, at any depth, is handed to a goroutine returns
    under every schedule no error and one aggregate, the one that the run
    of [walkDir] returns from every state of the shared objects: 0 when the
    directory lies beyond the depth limit (nothing below it is visited),
    otherwise the sum of what its entries contribute, reduced to [int64]
    by wrap-around, hence the exact sum whenever that fits an [int64].  An
    entry contributes its size when it is a regular file that the
    configuration does not skip, the aggregate of the recursive call when
    it is a subdirectory whose call returned without error, which again
    is the same under every schedule, and 0 otherwise. *)
Theorem aggregate_without_goroutines `{FilePath} (cfg : walkCfg)
    (entries : list DirEntry) (path : string) (depth : Z) :
  undispatched (Dir false (inr entries)) = true →
  let sum := foldr Z.add 0 (contribution cfg path depth <$> entries) in
  let aggregate :=
    if (maxDepth cfg >? 0) && (depth >? maxDepth cfg) then 0 else wrap64 sum in
  (∀ r, returns cfg (Dir false (inr entries)) path depth r ↔ r = (aggregate, None)) ∧
  (∀ w, ∃ w', walkDir cfg (Dir false (inr entries)) path depth w
              = Some (w', (aggregate, None))) ∧
  (min_int64 <= sum <= max_int64 → wrap64 sum = sum) ∧
  (∀ de, de ∈ entries →
     contribution cfg path depth de = foldr Z.add 0 (ownOf cfg path depth de) ∧
     (IsDir (Type_ de) = true → serial cfg (Below de))).
Proof.
  intros Hun sum aggregate. split_and!.
  - intros r. rewrite (undispatched_serial cfg _ Hun path depth r).
    rewrite walkResult_listed. fold sum aggregate.
    split; [by intros [= <-] | by intros ->].
  - intros w. apply walkDir_listed.
  - apply wrap64_small.
  - intros de Hde. split; [apply contribution_ownOf|]. intros Hdir.
    apply undispatched_entries in Hun.
    destruct (proj1 (Forall_forall _ _) Hun de Hde Hdir) as [_ Hbelow].
    by apply undispatched_serial.
Qed.

Lemma aggregate_without_goroutines_witness :
  let entries := [regularFile "a" 10; regularFile "b" 50; regularFile "c" 5;
                  regularFile "d" 100; regularFile "e" 20] in
  returns (defaultCfg 3 0) (Dir false (inr entries)) "r" 0 (185, None) ∧
  ¬ returns (defaultCfg 3 0) (Dir false (inr entries)) "r" 0 (180, None).
Proof.
  intros entries.
  destruct (aggregate_without_goroutines (defaultCfg 3 0) entries "r" 0) as [Hret _].
  - reflexivity.
  - split; [by apply Hret|]. by intros [=]%Hret.
Defined.
